(** * ghinstall: archive extraction, release selection and mirror URLs

    A shallow embedding of the Go sources of [sixban6/ghinstall]:
    - [internal/extractor]: format sniffing, the path guard and the
      per-entry materialisation of tar.gz and zip archives;
    - [internal/release]: selection of the latest stable release;
    - [internal/config], [internal/installer]: the download URL.

    Go strings are [string], byte slices are [list byte], Go's [error] is a
    small inductive type whose [Wrap] constructor stands for
    [fmt.Errorf("...: %w", err)], and a Go function returning [error]
    returns [option error] here ([None] is [nil]). *)

From Stdlib Require Import ZArith Ascii String List Bool Lia Permutation Sorted.
From Stdlib Require Import OrderedTypeEx.
From Stdlib Require Import Strings.Byte.
From stdpp Require Import base option gmap strings list fin_maps.

Local Open Scope string_scope.
Local Open Scope Z_scope.

(** ** Errors *)

Inductive error : Type :=
| Msg (text : string)                   (* errors.New / fmt.Errorf without %w *)
| Wrap (text : string) (cause : error)  (* fmt.Errorf(text + ": %w", cause) *)
| EOF                                   (* io.EOF *)
| PathError (op path : string) (errno : string). (* *os.PathError / *os.LinkError *)

(** [err.Error()] *)
Fixpoint error_text (e : error) : string :=
  match e with
  | Msg t => t
  | Wrap t c => t +:+ ": " +:+ error_text c
  | EOF => "EOF"
  | PathError op p errno => op +:+ " " +:+ p +:+ ": " +:+ errno
  end.

(** ** Format sniffing *)

Definition byte_eqb (a b : byte) : bool := Byte.eqb a b.

(** [data[i]] for an index the caller has checked to be in range. *)
Definition at_ (data : list byte) (i : nat) : byte := nth i data x00.

(** The legacy extractor of extractor.go; its entry functions have the
    text of the optimized extractor below, and its sniffing returns an
    error of its own for a short input. *)
Module MultiExtractor.

(** [detectFormat] *)
Definition detectFormat (data : list byte) : string * option error :=
  if (length data <? 4)%nat then
    ("", Some (Msg "file too small to detect format"))
  else if byte_eqb (at_ data 0) x1f && byte_eqb (at_ data 1) x8b then
    ("tar.gz", None)
  else if byte_eqb (at_ data 0) "P"%byte && byte_eqb (at_ data 1) "K"%byte
          && byte_eqb (at_ data 2) x03 && byte_eqb (at_ data 3) x04 then
    ("zip", None)
  else
    ("", Some (Msg "unknown archive format")).

End MultiExtractor.

(** [detectFormatFromBytes] of the optimized extractor. *)
Definition detectFormatFromBytes (data : list byte) : string :=
  if (length data <? 4)%nat then ""
  else if byte_eqb (at_ data 0) x1f && byte_eqb (at_ data 1) x8b then "tar.gz"
  else if byte_eqb (at_ data 0) "P"%byte && byte_eqb (at_ data 1) "K"%byte
          && byte_eqb (at_ data 2) x03 && byte_eqb (at_ data 3) x04 then "zip"
  else "".

(** The byte source given to [Extract]: what it yields before it ends or
    fails. *)
Record Reader : Type := mkReader {
  bytes : list byte;
  fault : option error
}.

(** [bufio.Reader.Peek(n)]: the first [n] bytes, or what is there and the
    error that ended the stream before [n] bytes. *)
Definition Peek (src : Reader) (n : nat) : list byte * option error :=
  if (length (bytes src) <? n)%nat then
    (bytes src, Some (match fault src with Some err => err | None => EOF end))
  else (firstn n (bytes src), None).

(** The three outcomes of the peek, the sniff and the [switch] on the
    format in [OptimizedExtractor.Extract]. *)
Inductive dispatch : Type :=
| ToTarGz
| ToZip
| Refused (e : error).

Definition Extract_dispatch (src : Reader) : dispatch :=
  match Peek src 4 with
  | (_, Some err) => Refused (Wrap "failed to peek archive data" err)
  | (peek, None) =>
      let format := detectFormatFromBytes peek in
      if String.eqb format "tar.gz" || String.eqb format "tgz" then ToTarGz
      else if String.eqb format "zip" then ToZip
      else Refused (Msg "unsupported archive format")
  end.

(** ** Paths ([path/filepath] and [strings] on Unix)

    The functions of Go's standard library that the extractor calls.  They
    are not part of this repository; they are modelled from their
    documented behaviour on Unix, where the separator is [/] and there is
    no volume name. *)

Definition Separator : ascii := "/"%char.

(** [strings.HasPrefix(s, prefix)] *)
Definition HasPrefix (s pre : string) : bool := String.prefix pre s.

(** [strings.Split(s, "/")]: the segments between separators; never empty. *)
Fixpoint split_sep (s : string) : list string :=
  match s with
  | EmptyString => [""]
  | String a rest =>
      if Ascii.eqb a Separator then "" :: split_sep rest
      else match split_sep rest with
           | seg :: segs => String a seg :: segs
           | [] => [String a ""]
           end
  end.

(** [strings.Join(segs, "/")] *)
Fixpoint join_sep (segs : list string) : string :=
  match segs with
  | [] => ""
  | [seg] => seg
  | seg :: rest => seg +:+ "/" +:+ join_sep rest
  end.

Definition rooted (path : string) : bool :=
  match path with
  | String a _ => Ascii.eqb a Separator
  | EmptyString => false
  end.

(** One element of the path met by [Clean]; [out] is the output so far,
    last element first.  Empty and [.] elements are dropped; [..] removes
    the element before it, is dropped at the root of a rooted path, and is
    kept where a relative path has nothing left to remove. *)
Definition clean_step (is_rooted : bool) (out : list string) (seg : string)
  : list string :=
  if String.eqb seg "" || String.eqb seg "." then out
  else if String.eqb seg ".." then
    match out with
    | top :: below =>
        if is_rooted then below
        else if String.eqb top ".." then seg :: out
        else below
    | [] => if is_rooted then [] else [seg]
    end
  else seg :: out.

Definition clean_segs (is_rooted : bool) (segs : list string) : list string :=
  rev (fold_left (clean_step is_rooted) segs []).

(** The text of a path given by its elements. *)
Definition render (is_rooted : bool) (segs : list string) : string :=
  if is_rooted then "/" +:+ join_sep segs
  else match segs with
       | [] => "."
       | _ => join_sep segs
       end.

(** [filepath.Clean(path)]: the shortest path equivalent to [path] by
    purely lexical processing. *)
Definition Clean (path : string) : string :=
  render (rooted path) (clean_segs (rooted path) (split_sep path)).

(** [filepath.Join(a, b)]: the non-empty elements joined by the separator
    and cleaned; empty when both are empty. *)
Definition Join (a b : string) : string :=
  if negb (String.eqb a "") then Clean (a +:+ "/" +:+ b)
  else if negb (String.eqb b "") then Clean b
  else "".

(** The part of [path] up to and including its last separator. *)
Fixpoint upto_last_sep (path : string) : string :=
  match path with
  | EmptyString => ""
  | String a rest =>
      if existsb (Ascii.eqb Separator) (list_ascii_of_string rest)
      then String a (upto_last_sep rest)
      else if Ascii.eqb a Separator then "/" else ""
  end.

(** [filepath.Dir(path)]: all but the last element of [path], cleaned. *)
Definition Dir (path : string) : string := Clean (upto_last_sep path).

(** ** The file system

    What [os.MkdirAll], [os.OpenFile], writes and [os.Symlink] do to the
    directory tree.  The tree maps a cleaned path to what is there; every
    call is also recorded in a log, so that "no call was issued" can be
    stated.  The process is not privileged: it opens an existing file for
    writing only when the owner may write it.  The permissions of
    directories and the umask are not modelled, and links are leaves: a
    call that would have to follow a link is refused. *)

Inductive node : Type :=
| NDir (perm : Z)
| NFile (perm : Z) (data : list byte)
| NLink (target : string).

Inductive FsCall : Type :=
| CallMkdirAll (path : string) (perm : Z)
| CallOpenFile (path : string) (perm : Z)
| CallWrite (path : string) (data : list byte)
| CallSymlink (target path : string).

Record World : Type := mkWorld {
  tree : gmap string node;
  calls : list FsCall
}.

Definition perm_0755 : Z := 493.

(** [FileMode.Perm]: the permission bits, which is what the system calls
    are given. *)
Definition Perm (m : Z) : Z := Z.land m 511.

(** The root, the working directory and the directories above it are
    there without being listed in the tree. *)
Definition always_there (p : string) : bool :=
  String.eqb p "/" || String.eqb p "."
  || String.eqb (List.last (split_sep p) "") "..".

(** What is at the cleaned path [p]. *)
Definition view (t : gmap string node) (p : string) : option node :=
  match t !! p with
  | Some n => Some n
  | None => if always_there p then Some (NDir perm_0755) else None
  end.

(** [os.MkdirAll] on the elements of a cleaned path, last element first:
    an existing directory is a success, anything else in the way is an
    error, and a missing directory is made after its parent. *)
Fixpoint mkdir_all (is_rooted : bool) (rsegs : list string) (perm : Z)
    (t : gmap string node) : gmap string node + error :=
  let p := render is_rooted (rev rsegs) in
  match view t p with
  | Some (NDir _) => inl t
  | Some (NFile _ _) => inr (PathError "mkdir" p "not a directory")
  | Some (NLink _) => inr (PathError "mkdir" p "file exists")
  | None =>
      match rsegs with
      | [] => inr (PathError "mkdir" p "no such file or directory")
      | seg :: up =>
          match mkdir_all is_rooted up perm t with
          | inl t' => inl (<[p := NDir (Perm perm)]> t')
          | inr e => inr e
          end
      end
  end.

Definition mkdir_path (path : string) (perm : Z) (t : gmap string node)
  : gmap string node + error :=
  mkdir_all (rooted path) (rev (clean_segs (rooted path) (split_sep path))) perm t.

(** The owner may write: bit 0200 of the mode. *)
Definition owner_writable (m : Z) : bool := Z.testbit m 7.

(** [os.OpenFile(path, O_WRONLY|O_CREATE|O_TRUNC, perm)]: an existing file
    is emptied and keeps its mode, a missing one is created with [perm]. *)
Definition open_file (path : string) (perm : Z) (t : gmap string node)
  : gmap string node + error :=
  let p := Clean path in
  match view t (Dir p) with
  | Some (NDir _) =>
      match view t p with
      | Some (NDir _) => inr (PathError "open" path "is a directory")
      | Some (NLink _) =>
          inr (PathError "open" path "too many levels of symbolic links")
      | Some (NFile m _) =>
          if owner_writable m then inl (<[p := NFile m []]> t)
          else inr (PathError "open" path "permission denied")
      | None => inl (<[p := NFile (Perm perm) []]> t)
      end
  | Some _ => inr (PathError "open" path "not a directory")
  | None => inr (PathError "open" path "no such file or directory")
  end.

(** Writing [data] to the file opened at [path]. *)
Definition write_file (path : string) (data : list byte) (t : gmap string node)
  : gmap string node :=
  let p := Clean path in
  match t !! p with
  | Some (NFile m old) => <[p := NFile m (old ++ data)]> t
  | _ => t
  end.

(** [os.Symlink(target, path)]: refuses a path that exists. *)
Definition sym_link (target path : string) (t : gmap string node)
  : gmap string node + error :=
  let p := Clean path in
  match view t p with
  | Some _ => inr (PathError "symlink" path "file exists")
  | None =>
      match view t (Dir p) with
      | Some (NDir _) => inl (<[p := NLink target]> t)
      | Some _ => inr (PathError "symlink" path "not a directory")
      | None => inr (PathError "symlink" path "no such file or directory")
      end
  end.

(** A call is logged, and changes the tree when it succeeds. *)
Definition call (c : FsCall) (r : gmap string node + error) (w : World)
  : option error * World :=
  match r with
  | inl t => (None, mkWorld t (calls w ++ [c]))
  | inr e => (Some e, mkWorld (tree w) (calls w ++ [c]))
  end.

Definition MkdirAll (path : string) (perm : Z) (w : World) : option error * World :=
  call (CallMkdirAll path perm) (mkdir_path path perm (tree w)) w.

Definition OpenFile (path : string) (perm : Z) (w : World) : option error * World :=
  call (CallOpenFile path perm) (open_file path perm (tree w)) w.

Definition WriteTo (path : string) (data : list byte) (w : World) : World :=
  mkWorld (write_file path data (tree w)) (calls w ++ [CallWrite path data]).

Definition Symlink (target path : string) (w : World) : option error * World :=
  call (CallSymlink target path) (sym_link target path (tree w)) w.

(** ** Archives as the decoders hand them over

    [compress/gzip], [archive/tar] and [archive/zip] are libraries; the
    extractor sees their output: a sequence of headers with a content
    reader each, ended by [io.EOF] or by a decoding error. *)

(** What a content reader yields: bytes, then the end or a read error. *)
Record Body : Type := mkBody {
  data : list byte;
  broken : option error
}.

Record Header : Type := mkHeader {
  Name : string;
  Typeflag : ascii;
  Mode : Z;
  Linkname : string
}.

Definition TypeReg : ascii := "0"%char.
Definition TypeSymlink : ascii := "2"%char.
Definition TypeDir : ascii := "5"%char.

Inductive TarStream : Type :=
| NotGzip (e : error)
| Tar (entries : list (Header * Body)) (tail : option error).

(** [os.FileMode] is a [uint32]. *)
Definition FileMode (m : Z) : Z := m mod 2 ^ 32.
Definition ModeDir : Z := 2 ^ 31.
Definition IsDir (m : Z) : bool := Z.testbit m 31.

Record ZipFile : Type := mkZipFile {
  zName : string;
  zMode : Z;                 (* file.FileInfo().Mode() *)
  zOpen : Body + error       (* file.Open() *)
}.

Inductive ZipArchive : Type :=
| NotZip (e : error)
| Zip (files : list ZipFile).

(** ** The optimized extractor (the one [extractor.New] returns) *)

(** [extractFileOptimized] *)
Definition extractFileOptimized (reader : Body) (path : string) (mode : Z)
    (w : World) : option error * World :=
  match MkdirAll (Dir path) perm_0755 w with
  | (Some err, w) =>
      (Some (Wrap ("failed to create directory for file " +:+ path) err), w)
  | (None, w) =>
      match OpenFile path mode w with
      | (Some err, w) => (Some (Wrap ("failed to create file " +:+ path) err), w)
      | (None, w) =>
          let w := WriteTo path (data reader) w in
          match broken reader with
          | Some err => (Some (Wrap ("failed to write file " +:+ path) err), w)
          | None => (None, w)
          end
      end
  end.

(** The path guard shared by the tar and zip entries: [true] when the
    entry is refused. *)
Definition path_refused (cleanedPath cleanedDst : string) : bool :=
  negb (HasPrefix cleanedPath cleanedDst)
  || (negb (String.eqb cleanedPath cleanedDst)
      && negb (HasPrefix cleanedPath (cleanedDst +:+ String Separator ""))).

(** [extractTarEntryOptimized] *)
Definition extractTarEntryOptimized (reader : Body) (header : Header) (dst : string)
    (w : World) : option error * World :=
  let path := Join dst (Name header) in
  let cleanedDst := Clean dst in
  let cleanedPath := Clean path in
  if String.eqb (Name header) "./" || String.eqb (Name header) "." then (None, w)
  else if path_refused cleanedPath cleanedDst then
    (Some (Msg ("invalid file path: " +:+ Name header)), w)
  else if Ascii.eqb (Typeflag header) TypeDir then
    MkdirAll path (FileMode (Mode header)) w
  else if Ascii.eqb (Typeflag header) TypeReg then
    extractFileOptimized reader path (FileMode (Mode header)) w
  else if Ascii.eqb (Typeflag header) TypeSymlink then
    let linkTarget := Linkname header in
    if negb (HasPrefix (Join dst linkTarget) dst) then
      (Some (Msg ("invalid symlink target: " +:+ linkTarget)), w)
    else Symlink linkTarget path w
  else (None, w).

(** The loop of [extractTarGzStream] over the entries [tarReader.Next]
    yields. *)
Fixpoint tar_loop (entries : list (Header * Body)) (tail : option error)
    (dst : string) (w : World) : option error * World :=
  match entries with
  | [] =>
      match tail with
      | None => (None, w)
      | Some err => (Some (Wrap "failed to read tar entry" err), w)
      end
  | (header, reader) :: rest =>
      match extractTarEntryOptimized reader header dst w with
      | (Some err, w) =>
          (Some (Wrap ("failed to extract tar entry " +:+ Name header) err), w)
      | (None, w) => tar_loop rest tail dst w
      end
  end.

(** [extractTarGzStream] *)
Definition extractTarGzStream (src : TarStream) (dst : string) (w : World)
  : option error * World :=
  match src with
  | NotGzip err => (Some (Wrap "failed to create gzip reader" err), w)
  | Tar entries tail => tar_loop entries tail dst w
  end.

(** [extractZipEntryOptimized] *)
Definition extractZipEntryOptimized (file : ZipFile) (dst : string) (w : World)
  : option error * World :=
  let path := Join dst (zName file) in
  let cleanedDst := Clean dst in
  let cleanedPath := Clean path in
  if String.eqb (zName file) "./" || String.eqb (zName file) "." then (None, w)
  else if path_refused cleanedPath cleanedDst then
    (Some (Msg ("invalid file path: " +:+ zName file)), w)
  else if IsDir (zMode file) then MkdirAll path (zMode file) w
  else match zOpen file with
       | inr err => (Some (Wrap "failed to open zip file entry" err), w)
       | inl fileReader => extractFileOptimized fileReader path (zMode file) w
       end.

(** The loop of [extractZipFromReader] over [reader.File]. *)
Fixpoint zip_loop (files : list ZipFile) (dst : string) (w : World)
  : option error * World :=
  match files with
  | [] => (None, w)
  | file :: rest =>
      match extractZipEntryOptimized file dst w with
      | (Some err, w) =>
          (Some (Wrap ("failed to extract zip entry " +:+ zName file) err), w)
      | (None, w) => zip_loop rest dst w
      end
  end.

Section Decoders.

(** The library decoders: [gzip.NewReader] with [tar.NewReader] on a
    stream, and [zip.NewReader] on the bytes held in memory. *)
Variable untar : Reader -> TarStream.
Variable unzip : list byte -> ZipArchive.

(** [extractZipFromReader] *)
Definition extractZipFromReader (src : Reader) (dst : string) (w : World)
  : option error * World :=
  match fault src with
  | Some err => (Some (Wrap "failed to read zip data" err), w)
  | None =>
      match unzip (bytes src) with
      | NotZip err => (Some (Wrap "failed to create zip reader" err), w)
      | Zip files => zip_loop files dst w
      end
  end.

(** [OptimizedExtractor.Extract] *)
Definition Extract (src : Reader) (dst : string) (w : World)
  : option error * World :=
  match MkdirAll dst perm_0755 w with
  | (Some err, w) =>
      (Some (Wrap ("failed to create destination directory " +:+ dst) err), w)
  | (None, w) =>
      match Extract_dispatch src with
      | Refused err => (Some err, w)
      | ToTarGz => extractTarGzStream (untar src) dst w
      | ToZip => extractZipFromReader src dst w
      end
  end.

End Decoders.

(** ** Semantic versions ([golang.org/x/mod/semver])

    The library is not part of this repository.  The release finder is
    stated over any [IsValid] and [Compare]; the model below follows the
    library and serves where a concrete version string is evaluated. *)

Module semver.

Definition is_digit (c : ascii) : bool :=
  (48 <=? nat_of_ascii c)%nat && (nat_of_ascii c <=? 57)%nat.

Definition isIdentChar (c : ascii) : bool :=
  let n := nat_of_ascii c in
  ((65 <=? n) && (n <=? 90) || (97 <=? n) && (n <=? 122)
   || (48 <=? n) && (n <=? 57))%nat
  || Ascii.eqb c "-".

(** The longest prefix of digits and what follows it. *)
Fixpoint span_digits (v : string) : string * string :=
  match v with
  | String c rest =>
      if is_digit c then
        let (t, r) := span_digits rest in (String c t, r)
      else ("", v)
  | EmptyString => ("", "")
  end.

(** [parseInt]: a decimal number without leading zero. *)
Definition parseInt (v : string) : option (string * string) :=
  match v with
  | EmptyString => None
  | String c _ =>
      if negb (is_digit c) then None
      else
        let (t, rest) := span_digits v in
        if Ascii.eqb c "0" && negb (String.length t =? 1)%nat then None
        else Some (t, rest)
  end.

(** [isNum]: only digits. *)
Fixpoint isNum (v : string) : bool :=
  match v with
  | EmptyString => true
  | String c rest => is_digit c && isNum rest
  end.

(** [isBadNum]: a number with a leading zero. *)
Definition isBadNum (v : string) : bool :=
  isNum v && (1 <? String.length v)%nat
  && match v with String c _ => Ascii.eqb c "0" | EmptyString => false end.

(** [nextIdent]: up to the next dot. *)
Fixpoint nextIdent (x : string) : string * string :=
  match x with
  | String c rest =>
      if Ascii.eqb c "." then ("", x)
      else let (d, r) := nextIdent rest in (String c d, r)
  | EmptyString => ("", "")
  end.

(** The identifiers of [x], each written after a hyphen or a dot. *)
Fixpoint idents_from (fuel : nat) (x : string) : list string :=
  match fuel, x with
  | S fuel, String _ x' =>
      let (d, rest) := nextIdent x' in d :: idents_from fuel rest
  | _, _ => []
  end.

Definition idents (x : string) : list string := idents_from (String.length x) x.

(** The scan of [parsePrerelease] and [parseBuild] over the characters
    after the sign: the identifier read so far is [cur]; [stop_plus]
    ends the scan at a plus sign, [nums] refuses numbers with a leading
    zero. *)
Fixpoint scan_idents (stop_plus nums : bool) (cur : string) (v : string)
  : option (string * string) :=
  match v with
  | EmptyString =>
      if String.eqb cur "" || (nums && isBadNum cur) then None
      else Some ("", "")
  | String c rest =>
      if stop_plus && Ascii.eqb c "+" then
        if String.eqb cur "" || (nums && isBadNum cur) then None
        else Some ("", v)
      else if negb (isIdentChar c) && negb (Ascii.eqb c ".") then None
      else if Ascii.eqb c "." then
        if String.eqb cur "" || (nums && isBadNum cur) then None
        else match scan_idents stop_plus nums "" rest with
             | Some (t, r) => Some (String c t, r)
             | None => None
             end
      else match scan_idents stop_plus nums (cur +:+ String c "") rest with
           | Some (t, r) => Some (String c t, r)
           | None => None
           end
  end.

Definition parsePrerelease (v : string) : option (string * string) :=
  match v with
  | String "-" rest =>
      match scan_idents true true "" rest with
      | Some (t, r) => Some (String "-" t, r)
      | None => None
      end
  | _ => None
  end.

Definition parseBuild (v : string) : option (string * string) :=
  match v with
  | String "+" rest =>
      match scan_idents false false "" rest with
      | Some (t, r) => Some (String "+" t, r)
      | None => None
      end
  | _ => None
  end.

Record parsed : Type := mkParsed {
  major : string;
  minor : string;
  patch : string;
  prerelease : string;
  build : string
}.

Definition starts_with (c : ascii) (v : string) : bool :=
  match v with String a _ => Ascii.eqb a c | EmptyString => false end.

Definition drop1 (v : string) : string :=
  match v with String _ rest => rest | EmptyString => "" end.

(** The tail of [parse] after the patch number. *)
Definition parse_tail (ma mi pa v : string) : option parsed :=
  match (if starts_with "-" v then parsePrerelease v else Some ("", v)) with
  | None => None
  | Some (pre, v) =>
      match (if starts_with "+" v then parseBuild v else Some ("", v)) with
      | None => None
      | Some (bld, v) =>
          if String.eqb v "" then Some (mkParsed ma mi pa pre bld) else None
      end
  end.

(** [parse] *)
Definition parse (v : string) : option parsed :=
  if negb (starts_with "v" v) then None
  else match parseInt (drop1 v) with
  | None => None
  | Some (ma, v) =>
      if String.eqb v "" then Some (mkParsed ma "0" "0" "" "")
      else if negb (starts_with "." v) then None
      else match parseInt (drop1 v) with
      | None => None
      | Some (mi, v) =>
          if String.eqb v "" then Some (mkParsed ma mi "0" "" "")
          else if negb (starts_with "." v) then None
          else match parseInt (drop1 v) with
          | None => None
          | Some (pa, v) => parse_tail ma mi pa v
          end
      end
  end.

Definition IsValid (v : string) : bool :=
  match parse v with Some _ => true | None => false end.

(** Go's [x < y] on strings. *)
Definition str_lt (x y : string) : bool :=
  match String.compare x y with Lt => true | _ => false end.

(** [compareInt] *)
Definition compareInt (x y : string) : Z :=
  if String.eqb x y then 0
  else if (String.length x <? String.length y)%nat then -1
  else if (String.length y <? String.length x)%nat then 1
  else if str_lt x y then -1 else 1.

(** One step of the loop of [comparePrerelease] on two identifiers that
    differ. *)
Definition compareIdent (dx dy : string) : Z :=
  let ix := isNum dx in
  let iy := isNum dy in
  if negb (Bool.eqb ix iy) then (if ix then -1 else 1)
  else if ix && (String.length dx <? String.length dy)%nat then -1
  else if ix && (String.length dy <? String.length dx)%nat then 1
  else if str_lt dx dy then -1 else 1.

(** The loop of [comparePrerelease]. *)
Fixpoint compareIdents (xs ys : list string) : Z :=
  match xs, ys with
  | dx :: xs, dy :: ys =>
      if String.eqb dx dy then compareIdents xs ys else compareIdent dx dy
  | [], _ => -1
  | _ :: _, [] => 1
  end.

(** [comparePrerelease] *)
Definition comparePrerelease (x y : string) : Z :=
  if String.eqb x y then 0
  else if String.eqb x "" then 1
  else if String.eqb y "" then -1
  else compareIdents (idents x) (idents y).

(** [Compare] *)
Definition Compare (v w : string) : Z :=
  match parse v, parse w with
  | None, None => 0
  | None, Some _ => -1
  | Some _, None => 1
  | Some pv, Some pw =>
      if negb (compareInt (major pv) (major pw) =? 0) then
        compareInt (major pv) (major pw)
      else if negb (compareInt (minor pv) (minor pw) =? 0) then
        compareInt (minor pv) (minor pw)
      else if negb (compareInt (patch pv) (patch pw) =? 0) then
        compareInt (patch pv) (patch pw)
      else comparePrerelease (prerelease pv) (prerelease pw)
  end.

End semver.

(** ** Releases ([internal/release]) *)

Record Asset : Type := mkAsset {
  AssetName : string;
  URL : string;
  ContentType : string;
  Size : Z
}.

Record Release : Type := mkRelease {
  TagName : string;
  ReleaseName : string;
  Assets : list Asset;
  Draft : bool;
  Prerelease : bool;
  PublishedAt : Z            (* the instant, as a count of nanoseconds *)
}.

(** [time.Time.After] *)
Definition After (t u : Z) : bool := u <? t.

(** [filterStableReleases] *)
Definition filterStableReleases (releases : list Release) : list Release :=
  List.filter (fun release => negb (Draft release) && negb (Prerelease release))
    releases.

(** [normalizeTag] *)
Definition normalizeTag (tag : string) : string :=
  if String.eqb tag "" then ""
  else if HasPrefix tag "v" then tag
  else "v" +:+ tag.

Section Finder.

(** [semver.IsValid] and [semver.Compare]. *)
Variable IsValid : string -> bool.
Variable Compare : string -> string -> Z.

(** [sort.Slice] with its [less] function read on the elements. *)
Variable sort_Slice : (Release -> Release -> bool) -> list Release -> list Release.

(** The function literal given to [sort.Slice] in [findLatestRelease]:
    [true] when [ri] goes before [rj], that is when it is the later
    release. *)
Definition release_less (ri rj : Release) : bool :=
  let tagI := normalizeTag (TagName ri) in
  let tagJ := normalizeTag (TagName rj) in
  if IsValid tagI && IsValid tagJ then 0 <? Compare tagI tagJ
  else if IsValid tagI && negb (IsValid tagJ) then true
  else if negb (IsValid tagI) && IsValid tagJ then false
  else After (PublishedAt ri) (PublishedAt rj).

(** [findLatestRelease]; [None] is the panic on an empty slice. *)
Definition findLatestRelease (releases : list Release) : option Release :=
  match releases with
  | [] => None
  | [only] => Some only
  | _ => List.hd_error (sort_Slice release_less releases)
  end.

(** [GitHubClient.LatestStable] from the decoded list of releases on. *)
Definition LatestStable (releases : list Release) (owner repo : string)
  : Release + error :=
  if (length releases =? 0)%nat then
    inr (Msg ("no releases found for " +:+ owner +:+ "/" +:+ repo))
  else
    let stableReleases := filterStableReleases releases in
    if (length stableReleases =? 0)%nat then
      inr (Msg ("no stable releases found for " +:+ owner +:+ "/" +:+ repo))
    else
      match findLatestRelease stableReleases with
      | Some latest => inl latest
      | None => inr (Msg "panic: no releases to compare")
      end.

End Finder.

(** ** Configuration ([internal/config]) *)

Record Repo : Type := mkRepo {
  RepoURL : string;
  OutputDir : string
}.

Record Config : Type := mkConfig {
  Github : list Repo;
  MirrorURL : string
}.

(** [Config.GetDownloadURL] *)
Definition GetDownloadURL (c : Config) (repoURL assetURL : string) : string :=
  if String.eqb (MirrorURL c) "" then assetURL
  else MirrorURL c +:+ "/" +:+ assetURL.

(** [strings.TrimPrefix] *)
Fixpoint TrimPrefix_from (s pre : string) : option string :=
  match pre, s with
  | EmptyString, _ => Some s
  | String a pre', String b s' =>
      if Ascii.eqb a b then TrimPrefix_from s' pre' else None
  | String _ _, EmptyString => None
  end.

Definition TrimPrefix (s pre : string) : string :=
  match TrimPrefix_from s pre with Some rest => rest | None => s end.

(** [ParseRepoURL] *)
Definition ParseRepoURL (repoURL : string) : (string * string) + error :=
  if negb (HasPrefix repoURL "https://github.com/") then
    inr (Msg ("invalid GitHub URL: " +:+ repoURL))
  else
    let path := TrimPrefix repoURL "https://github.com/" in
    match split_sep path with
    | owner :: repo :: _ => inl (owner, repo)
    | _ => inr (Msg ("invalid GitHub URL format: " +:+ repoURL))
    end.

(** ** The installer ([internal/installer]) *)

(** The cancellation signal of the caller's [context.Context], as far as an
    extraction can see it: raised once that many entries have been
    extracted, or never. *)
Record Context : Type := mkContext {
  raised_after : option nat
}.

Section Installer.

(** The collaborators of [Installer]; [PingGoogle] is the outcome of the
    probe of https://google.com. *)
Variable finder_LatestStable : Context -> string -> string -> Release + error.
Variable downloader_Download : Context -> string -> Reader + error.
Variable extractor_Extract : Reader -> string -> World -> option error * World.
Variable filter : list Asset -> Asset + error.
Variable PingGoogle : bool.

(** The URL [installRepo] downloads from. *)
Definition downloadURL_of (cfg : Config) (repo : Repo) (asset : Asset) : string :=
  if PingGoogle then URL asset
  else GetDownloadURL cfg (RepoURL repo) (URL asset).

(** [Installer.installRepo] *)
Definition installRepo (ctx : Context) (cfg : Config) (repo : Repo) (w : World)
  : option error * World :=
  match ParseRepoURL (RepoURL repo) with
  | inr err => (Some (Wrap "failed to parse repository URL" err), w)
  | inl (owner, repoName) =>
      match finder_LatestStable ctx owner repoName with
      | inr err => (Some (Wrap "failed to find latest release" err), w)
      | inl rel =>
          match filter (Assets rel) with
          | inr err =>
              (Some (Wrap ("no suitable asset found in release " +:+ TagName rel) err), w)
          | inl asset =>
              let downloadURL := downloadURL_of cfg repo asset in
              match downloader_Download ctx downloadURL with
              | inr err => (Some (Wrap "failed to download asset" err), w)
              | inl reader =>
                  match extractor_Extract reader (OutputDir repo) w with
                  | (Some err, w) =>
                      (Some (Wrap "failed to extract archive" err), w)
                  | (None, w) => (None, w)
                  end
              end
          end
      end
  end.

(** [Installer.Install] *)
Fixpoint Install_loop (ctx : Context) (cfg : Config) (repos : list Repo) (w : World)
  : option error * World :=
  match repos with
  | [] => (None, w)
  | repo :: rest =>
      match installRepo ctx cfg repo w with
      | (Some err, w) =>
          (Some (Wrap ("failed to install " +:+ RepoURL repo) err), w)
      | (None, w) => Install_loop ctx cfg rest w
      end
  end.

Definition Install (ctx : Context) (cfg : Config) (w : World) : option error * World :=
  Install_loop ctx cfg (Github cfg) w.

End Installer.

(** * The vocabulary of the properties *)

(** ** Paths and what is kept *)

(** The magic numbers, as the prefix of the data. *)
Definition starts_gzip (data : list byte) : Prop :=
  exists rest, data = x1f :: x8b :: rest.

Definition starts_zip (data : list byte) : Prop :=
  exists rest, data = "P"%byte :: "K"%byte :: x03 :: x04 :: rest.

(** A string without separator is its own single element. *)
Definition no_sep (s : string) : Prop := split_sep s = [s].

(** The elements of a path: what lies between its separators. *)
Definition path_elems (p : string) : list string :=
  List.filter (fun seg => negb (String.eqb seg "")) (split_sep p).

(** [p] is [root] or lies below it, element by element: a sibling whose
    name merely begins with the name of [root] does not. *)
Definition within_root (root p : string) : Prop :=
  rooted p = rooted root /\ exists below, path_elems p = (path_elems root ++ below)%list.

(** An ordinary path element: a name, not empty, not [.] and not [..]. *)
Definition is_name (s : string) : Prop :=
  s <> "" /\ s <> "." /\ s <> ".." /\ no_sep s.

(** The shape of [Clean]'s output, last element first: names above the
    [..] elements a relative path could not resolve; none in a rooted path. *)
Definition cleaned_stack (is_rooted : bool) (out : list string) : Prop :=
  exists names k,
    out = (names ++ repeat ".." k)%list /\ Forall is_name names /\
    (is_rooted = true -> k = 0%nat).


(** The calls of [w] are the first calls of [w']. *)
Definition calls_extend (w w' : World) : Prop :=
  exists more, calls w' = (calls w ++ more)%list.

(** ** How the calls change the tree *)

(** The same kind of node with the same mode or target; the bytes of a
    file may differ. *)
Definition same_kind (n n' : node) : Prop :=
  match n, n' with
  | NDir m, NDir m' => m = m'
  | NFile m _, NFile m' _ => m = m'
  | NLink x, NLink x' => x = x'
  | _, _ => False
  end.

(** From [t] to [t'], path by path: nothing changes, or a node appears
    where there was none, or the file at [p] gets other bytes. *)
Definition gently (p : string) (t t' : gmap string node) : Prop :=
  forall q,
    t' !! q = t !! q \/
    (view t q = None /\ is_Some (t' !! q)) \/
    (q = p /\ exists m d d', t !! q = Some (NFile m d) /\ t' !! q = Some (NFile m d')).

Definition steps (p : string) (w w' : World) : Prop :=
  gently p (tree w) (tree w') /\ calls_extend w w'.







(** ** Sorting

    What [sort.Slice] promises for a [less] that is a strict weak order:
    the same elements, and no element before one that [less] puts first. *)
Definition asymmetric {A} (less : A -> A -> bool) : Prop :=
  forall a b, less a b = true -> less b a = false.

Definition negatively_transitive {A} (less : A -> A -> bool) : Prop :=
  forall a b c, less a b = false -> less b c = false -> less a c = false.

Definition sorts {A} (sort : (A -> A -> bool) -> list A -> list A) : Prop :=
  forall less l,
    asymmetric less -> negatively_transitive less ->
    Permutation (sort less l) l /\
    StronglySorted (fun a b => less b a = false) (sort less l).

(** The insertion sort [sort.Slice] runs on slices of at most 12
    elements: each element moves left while it is less than the one
    before it. *)
Fixpoint move_left {A} (less : A -> A -> bool) (x : A) (before : list A)
  : list A :=
  match before with
  | [] => [x]
  | prev :: earlier =>
      if less x prev then prev :: move_left less x earlier
      else x :: before
  end.

(** [sorted_rev] holds the sorted part, last element first. *)
Fixpoint insertion_from {A} (less : A -> A -> bool) (sorted_rev todo : list A)
  : list A :=
  match todo with
  | [] => rev sorted_rev
  | x :: rest => insertion_from less (move_left less x sorted_rev) rest
  end.

Definition insertionSort {A} (less : A -> A -> bool) (l : list A) : list A :=
  insertion_from less [] l.

(** What the finder needs of [semver.Compare]: on valid versions it is the
    three-way comparison of a total preorder. *)
Definition compares_versions (IsValid : string -> bool)
    (Compare : string -> string -> Z) : Prop :=
  (forall v w, IsValid v = true -> IsValid w = true ->
     0 < Compare v w -> Compare w v <= 0) /\
  (forall u v w, IsValid u = true -> IsValid v = true -> IsValid w = true ->
     Compare u v <= 0 -> Compare v w <= 0 -> Compare u w <= 0).

(** A release that is neither a draft nor a prerelease. *)
Definition stable (r : Release) : Prop := Draft r = false /\ Prerelease r = false.

(** ** The order of versions

    [semver.Compare] read as a comparison of keys, each key with a total
    order. *)

Definition order_cmp {K : Type} (c : K -> K -> comparison) : Prop :=
  (forall x y, c x y = Eq <-> x = y) /\
  (forall x y, c y x = CompOpp (c x y)) /\
  (forall x y z r, c x y = r -> c y z = r -> c x z = r).

Definition lex (c1 c2 : comparison) : comparison :=
  match c1 with Eq => c2 | r => r end.

Definition cmp_pair {A B : Type} (ca : A -> A -> comparison)
    (cb : B -> B -> comparison) (x y : A * B) : comparison :=
  lex (ca (fst x) (fst y)) (cb (snd x) (snd y)).

Definition cmp_option {A : Type} (ca : A -> A -> comparison)
    (x y : option A) : comparison :=
  match x, y with
  | None, None => Eq
  | None, Some _ => Gt
  | Some _, None => Lt
  | Some a, Some b => ca a b
  end.

Definition Z_of_cmp (c : comparison) : Z :=
  match c with Eq => 0 | Lt => -1 | Gt => 1 end.

(** Numbers written without leading zero: the shorter is the smaller. *)
Definition int_key (x : string) : nat * string := (String.length x, x).

Definition cmp_int (x y : string) : comparison :=
  cmp_pair Nat.compare String.compare (int_key x) (int_key y).

(** Identifiers of a prerelease: numbers before names, numbers by value,
    names by their characters. *)
Definition ident_key (d : string) : nat * (nat * string) :=
  if semver.isNum d then (0%nat, (String.length d, d)) else (1%nat, (0%nat, d)).

Definition cmp_ident (dx dy : string) : comparison :=
  cmp_pair Nat.compare (cmp_pair Nat.compare String.compare)
    (ident_key dx) (ident_key dy).

(** A version without prerelease is above those with one. *)
Definition pre_key (x : string) : option (list string) :=
  if String.eqb x "" then None else Some (semver.idents x).

Definition version_key (p : semver.parsed)
  : string * (string * (string * option (list string))) :=
  (semver.major p, (semver.minor p, (semver.patch p, pre_key (semver.prerelease p)))).

Definition cmp_version
  : string * (string * (string * option (list string))) ->
    string * (string * (string * option (list string))) -> comparison :=
  cmp_pair cmp_int
    (cmp_pair cmp_int
       (cmp_pair cmp_int (cmp_option (list_compare cmp_ident)))).

(** A prerelease as [parse] stores it: empty, or a hyphen and what
    follows. *)
Definition pre_shape (x : string) : Prop :=
  x = "" \/ exists rest, x = String "-" rest.

(** The text of the identifiers, each after a dot. *)
Fixpoint dotted (ds : list string) : string :=
  match ds with
  | [] => ""
  | d :: ds => String "." (d +:+ dotted ds)
  end.

(** * Samples *)

(** ** Sample archives and worlds *)

Definition bytes_of (s : string) : list byte := list_byte_of_string s.

Definition whole (s : string) : Body := mkBody (bytes_of s) None.

Definition no_calls (t : gmap string node) : World := mkWorld t [].

(** A destination directory that exists and is empty. *)
Definition empty_dst : World := no_calls {[ "/dst" := NDir perm_0755 ]}.

Definition dir_entry (name : string) : Header * Body :=
  (mkHeader name TypeDir 493 "", whole "").

Definition file_entry (name content : string) : Header * Body :=
  (mkHeader name TypeReg 420 "", whole content).

Definition link_entry (name target : string) : Header * Body :=
  (mkHeader name TypeSymlink 511 target, whole "").

(** The archive of [createTarGzWithCurrentDir] in the tests. *)
Definition tar_with_current_dir : list (Header * Body) :=
  [ dir_entry "./";
    file_entry "test.txt" "Hello, World!";
    dir_entry "subdir/";
    file_entry "subdir/nested.txt" "Nested file content" ].

(** The archive of [createMaliciousTarGz] in the tests. *)
Definition malicious_tar : list (Header * Body) :=
  [ file_entry "../../../etc/passwd" "malicious" ].

Definition zip_file (name content : string) : ZipFile :=
  mkZipFile name 420 (inl (whole content)).

Definition zip_dir (name : string) : ZipFile :=
  mkZipFile name (ModeDir + 493) (inl (whole "")).

(** Where a link at [path] with the target [target] points: the target is
    read from the directory that holds the link, unless it is absolute. *)
Definition link_resolves_to (path target : string) : string :=
  if rooted target then Clean target else Join (Dir path) target.

(** The releases of [TestFindLatestRelease] with a draft, a prerelease and
    a release whose tag is no version. *)
Definition release_of (tag : string) (draft pre : bool) (published : Z) : Release :=
  mkRelease tag "" [] draft pre published.

Definition sample_releases : list Release :=
  [ release_of "v1.0.0" false false 1;
    release_of "3.0.0-rc1" false true 9;
    release_of "v2.0.0" false false 3;
    release_of "nightly" false false 8;
    release_of "v9.9.9" true false 7;
    release_of "1.5.0" false false 2 ].

(** A sample installation: the finder knows one release with one asset,
    the download yields a gzip stream, and the stream decodes to the given
    entries. *)
Definition sample_asset : Asset :=
  mkAsset "app.tar.gz"
    "https://github.com/owner/repo/releases/download/v1.0.0/app.tar.gz"
    "application/gzip" 1024.

Definition sample_release : Release :=
  mkRelease "v1.0.0" "" [sample_asset] false false 1.

Definition sample_config : Config :=
  mkConfig [mkRepo "https://github.com/owner/repo" "/dst"] "https://ghfast.top".

Definition first_asset (assets : list Asset) : Asset + error :=
  match assets with
  | a :: _ => inl a
  | [] => inr (Msg "no matching asset found")
  end.

Definition gzip_reader : Reader := mkReader [x1f; x8b; x08; x00] None.

Definition sample_install (ctx : Context) (entries : list (Header * Body))
    (w : World) : option error * World :=
  installRepo (fun _ _ _ => inl sample_release)
    (fun _ _ => inl gzip_reader)
    (Extract (fun _ => Tar entries None) (fun _ => Zip []))
    first_asset false
    ctx sample_config (mkRepo "https://github.com/owner/repo" "/dst") w.

Definition three_files : list (Header * Body) :=
  [ file_entry "a.txt" "a"; file_entry "b.txt" "b"; file_entry "c.txt" "c" ].

(** ** The claims that fail, as the specification words them *)

(** With a mirror configured, every download goes through the mirror. *)
Definition mirror_always_applied : Prop :=
  forall PingGoogle cfg repo asset,
    MirrorURL cfg <> "" ->
    downloadURL_of PingGoogle cfg repo asset
    = MirrorURL cfg +:+ "/" +:+ URL asset.

(** An installer that runs the archive [entries] under the signal [ctx]
    checks the signal before each entry: raised after [n] entries, it ends
    the run in an error with the world the first [n] entries left in the
    destination. *)
Definition checks_signal_between_entries
    (run : Context -> list (Header * Body) -> World -> option error * World)
    (dst : string) : Prop :=
  forall n entries w,
    (n < length entries)%nat ->
    exists e,
      run (mkContext (Some n)) entries w
      = (Some e, snd (tar_loop (firstn n entries) None dst
                        (snd (MkdirAll dst perm_0755 w)))).


(** * More of the program *)

From stdpp Require pretty.

(** [%d] of a count or an index. *)
Definition Sprint_d (n : nat) : string := pretty.pretty n.

(** [%v] of a slice of strings. *)
Fixpoint join_space (l : list string) : string :=
  match l with
  | [] => ""
  | [s] => s
  | s :: rest => s +:+ " " +:+ join_space rest
  end.

Definition Sprint_v (l : list string) : string := "[" +:+ join_space l +:+ "]".

(** ** The legacy extractor ([MultiExtractor] in extractor.go) *)

Module Legacy.

(** [MultiExtractor.extractFile] *)
Definition extractFile (reader : Body) (path : string) (mode : Z)
    (w : World) : option error * World :=
  match MkdirAll (Dir path) perm_0755 w with
  | (Some err, w) =>
      (Some (Wrap ("failed to create directory for file " +:+ path) err), w)
  | (None, w) =>
      match OpenFile path mode w with
      | (Some err, w) => (Some (Wrap ("failed to create file " +:+ path) err), w)
      | (None, w) =>
          let w := WriteTo path (data reader) w in
          match broken reader with
          | Some err => (Some (Wrap ("failed to write file " +:+ path) err), w)
          | None => (None, w)
          end
      end
  end.

(** [MultiExtractor.extractTarEntry] *)
Definition extractTarEntry (reader : Body) (header : Header) (dst : string)
    (w : World) : option error * World :=
  let path := Join dst (Name header) in
  let cleanedDst := Clean dst in
  let cleanedPath := Clean path in
  if String.eqb (Name header) "./" || String.eqb (Name header) "." then (None, w)
  else if negb (HasPrefix cleanedPath cleanedDst)
          || (negb (String.eqb cleanedPath cleanedDst)
              && negb (HasPrefix cleanedPath (cleanedDst +:+ String Separator "")))
  then (Some (Msg ("invalid file path: " +:+ Name header)), w)
  else if Ascii.eqb (Typeflag header) TypeDir then
    MkdirAll path (FileMode (Mode header)) w
  else if Ascii.eqb (Typeflag header) TypeReg then
    extractFile reader path (FileMode (Mode header)) w
  else if Ascii.eqb (Typeflag header) TypeSymlink then
    let linkTarget := Linkname header in
    if negb (HasPrefix (Join dst linkTarget) dst) then
      (Some (Msg ("invalid symlink target: " +:+ linkTarget)), w)
    else Symlink linkTarget path w
  else (None, w).

(** [MultiExtractor.extractZipEntry] *)
Definition extractZipEntry (file : ZipFile) (dst : string) (w : World)
  : option error * World :=
  let path := Join dst (zName file) in
  let cleanedDst := Clean dst in
  let cleanedPath := Clean path in
  if String.eqb (zName file) "./" || String.eqb (zName file) "." then (None, w)
  else if negb (HasPrefix cleanedPath cleanedDst)
          || (negb (String.eqb cleanedPath cleanedDst)
              && negb (HasPrefix cleanedPath (cleanedDst +:+ String Separator "")))
  then (Some (Msg ("invalid file path: " +:+ zName file)), w)
  else if IsDir (zMode file) then MkdirAll path (zMode file) w
  else match zOpen file with
       | inr err => (Some (Wrap "failed to open zip file entry" err), w)
       | inl fileReader => extractFile fileReader path (zMode file) w
       end.

(** The loop of [MultiExtractor.extractTarGz]. *)
Fixpoint tar_entries (entries : list (Header * Body)) (tail : option error)
    (dst : string) (w : World) : option error * World :=
  match entries with
  | [] =>
      match tail with
      | None => (None, w)
      | Some err => (Some (Wrap "failed to read tar entry" err), w)
      end
  | (header, reader) :: rest =>
      match extractTarEntry reader header dst w with
      | (Some err, w) =>
          (Some (Wrap ("failed to extract tar entry " +:+ Name header) err), w)
      | (None, w) => tar_entries rest tail dst w
      end
  end.

(** The loop of [MultiExtractor.extractZip]. *)
Fixpoint zip_entries (files : list ZipFile) (dst : string) (w : World)
  : option error * World :=
  match files with
  | [] => (None, w)
  | file :: rest =>
      match extractZipEntry file dst w with
      | (Some err, w) =>
          (Some (Wrap ("failed to extract zip entry " +:+ zName file) err), w)
      | (None, w) => zip_entries rest dst w
      end
  end.

Section LegacyDecoders.

Variable untar : Reader -> TarStream.
Variable unzip : list byte -> ZipArchive.

(** [MultiExtractor.extractTarGz]: the decoders read the bytes held in
    memory. *)
Definition extractTarGz (data : list byte) (dst : string) (w : World)
  : option error * World :=
  match untar (mkReader data None) with
  | NotGzip err => (Some (Wrap "failed to create gzip reader" err), w)
  | Tar entries tail => tar_entries entries tail dst w
  end.

(** [MultiExtractor.extractZip] *)
Definition extractZip (data : list byte) (dst : string) (w : World)
  : option error * World :=
  match unzip data with
  | NotZip err => (Some (Wrap "failed to create zip reader" err), w)
  | Zip files => zip_entries files dst w
  end.

(** [MultiExtractor.Extract] *)
Definition Extract (src : Reader) (dst : string) (w : World)
  : option error * World :=
  match MkdirAll dst perm_0755 w with
  | (Some err, w) =>
      (Some (Wrap ("failed to create destination directory " +:+ dst) err), w)
  | (None, w) =>
      match fault src with
      | Some err => (Some (Wrap "failed to read source data" err), w)
      | None =>
          let data := bytes src in
          match MultiExtractor.detectFormat data with
          | (_, Some err) =>
              (Some (Wrap "failed to detect archive format" err), w)
          | (format, None) =>
              if String.eqb format "tar.gz" || String.eqb format "tgz" then
                extractTarGz data dst w
              else if String.eqb format "zip" then extractZip data dst w
              else (Some (Msg ("unsupported archive format: " +:+ format)), w)
          end
      end
  end.

End LegacyDecoders.

End Legacy.

(** [TarGzExtractor.Extract] and [ZipExtractor.Extract]: both hand over to
    the optimized extractor, whatever the format. *)
Definition TarGzExtractor_Extract (untar : Reader -> TarStream)
    (unzip : list byte -> ZipArchive) (src : Reader) (dst : string) (w : World)
  : option error * World :=
  Extract untar unzip src dst w.

Definition ZipExtractor_Extract (untar : Reader -> TarStream)
    (unzip : list byte -> ZipArchive) (src : Reader) (dst : string) (w : World)
  : option error * World :=
  Extract untar unzip src dst w.

(** ** Loading a configuration ([internal/config]) *)

(** [strings.TrimSuffix]: [s] without the trailing [suf], once. *)
Fixpoint TrimSuffix (s suf : string) : string :=
  if String.eqb s suf then ""
  else match s with
       | EmptyString => ""
       | String a rest => String a (TrimSuffix rest suf)
       end.

(** The loop of [Config.validate] from the index [i] on. *)
Fixpoint validate_from (i : nat) (repos : list Repo) : option error :=
  match repos with
  | [] => None
  | repo :: rest =>
      if String.eqb (RepoURL repo) "" then
        Some (Msg ("repository at index " +:+ Sprint_d i +:+ ": URL is required"))
      else if String.eqb (OutputDir repo) "" then
        Some (Msg ("repository at index " +:+ Sprint_d i
                   +:+ ": output_dir is required"))
      else if negb (HasPrefix (RepoURL repo) "https://github.com/") then
        Some (Msg ("repository at index " +:+ Sprint_d i
                   +:+ ": URL must be a GitHub repository URL"))
      else validate_from (S i) rest
  end.

(** [Config.validate] *)
Definition validate (c : Config) : option error :=
  if (length (Github c) =? 0)%nat then
    Some (Msg "no GitHub repositories configured")
  else validate_from 0 (Github c).

(** [Config.normalize] *)
Definition normalize (c : Config) : Config :=
  mkConfig
    (map (fun repo => mkRepo (TrimSuffix (RepoURL repo) "/")
                             (Clean (OutputDir repo)))
         (Github c))
    (if negb (String.eqb (MirrorURL c) "") then TrimSuffix (MirrorURL c) "/"
     else MirrorURL c).

Section Load.

(** [os.ReadFile], [yaml.Unmarshal] into a [Config], and the quoting of
    [%q]. *)
Variable ReadFile : string -> list byte + error.
Variable Unmarshal : list byte -> Config + error.
Variable Quote : string -> string.

(** [Load] *)
Definition Load (cfgPath : string) : Config + error :=
  match ReadFile cfgPath with
  | inr err => inr (Wrap ("failed to read config file " +:+ Quote cfgPath) err)
  | inl data =>
      match Unmarshal data with
      | inr err =>
          inr (Wrap ("failed to parse config file " +:+ Quote cfgPath) err)
      | inl cfg =>
          match validate cfg with
          | Some err => inr (Wrap "invalid config" err)
          | None => inl (normalize cfg)
          end
      end
  end.

End Load.

(** ** Choosing an asset ([internal/release], filter.go) *)

(** [strings.Contains] *)
Fixpoint Contains (s substr : string) : bool :=
  String.prefix substr s
  || match s with
     | EmptyString => false
     | String _ rest => Contains rest substr
     end.

Definition AssetFilter : Type := list Asset -> Asset + error.

Section Filters.

(** [strings.ToLower], and the platform of the build. *)
Variable ToLower : string -> string.
Variable GOOS GOARCH : string.

(** The inner loop over the patterns, each lowered. *)
Fixpoint any_pattern (name : string) (patterns : list string) : bool :=
  match patterns with
  | [] => false
  | pattern :: rest =>
      if Contains name (ToLower pattern) then true else any_pattern name rest
  end.

(** The inner loop over the aliases, taken as they are. *)
Fixpoint any_alias (name : string) (aliases : list string) : bool :=
  match aliases with
  | [] => false
  | alias :: rest =>
      if Contains name alias then true else any_alias name rest
  end.

(** The loop over the assets with the patterns. *)
Fixpoint first_by_patterns (patterns : list string) (assets : list Asset)
  : option Asset :=
  match assets with
  | [] => None
  | asset :: rest =>
      if any_pattern (ToLower (AssetName asset)) patterns then Some asset
      else first_by_patterns patterns rest
  end.

(** The loop over the assets with the aliases. *)
Fixpoint first_by_aliases (aliases : list string) (assets : list Asset)
  : option Asset :=
  match assets with
  | [] => None
  | asset :: rest =>
      if any_alias (ToLower (AssetName asset)) aliases then Some asset
      else first_by_aliases aliases rest
  end.

Definition default_patterns : list string := [".tar.gz"; ".zip"; ".tgz"].

(** [Release.FindAsset]; [None] is [nil]. *)
Definition FindAsset (r : Release) (patterns : list string) : option Asset :=
  let patterns :=
    if (length patterns =? 0)%nat then default_patterns else patterns in
  first_by_patterns patterns (Assets r).

(** [DefaultFilter] *)
Definition DefaultFilter : AssetFilter := fun assets =>
  match first_by_patterns default_patterns assets with
  | Some asset => inl asset
  | None => inr (Msg "no suitable asset found")
  end.

(** [ByNamePattern] *)
Definition ByNamePattern (patterns : list string) : AssetFilter := fun assets =>
  if (length patterns =? 0)%nat then inr (Msg "no patterns specified")
  else match first_by_patterns patterns assets with
       | Some asset => inl asset
       | None => inr (Msg ("no asset matching patterns " +:+ Sprint_v patterns))
       end.

Definition osAliases : gmap string (list string) :=
  list_to_map [ ("linux", ["linux"]);
                ("darwin", ["darwin"; "macos"; "osx"]);
                ("windows", ["windows"; "win"]) ].

Definition archAliases : gmap string (list string) :=
  list_to_map [ ("amd64", ["amd64"; "x86_64"; "x64"]);
                ("386", ["386"; "i386"; "x86"]);
                ("arm64", ["arm64"; "aarch64"]);
                ("arm", ["arm"; "armv7"]) ].

(** The aliases [ByOS] searches for. *)
Definition os_aliases_of (os : string) : list string :=
  let targetOS := ToLower os in
  let targetOS := if String.eqb targetOS "" then ToLower GOOS else targetOS in
  match osAliases !! targetOS with
  | Some aliases => aliases
  | None => [targetOS]
  end.

(** [ByOS] *)
Definition ByOS (os : string) : AssetFilter := fun assets =>
  match first_by_aliases (os_aliases_of os) assets with
  | Some asset => inl asset
  | None => inr (Msg ("no asset found for OS: " +:+ os))
  end.

(** The aliases [ByArch] searches for. *)
Definition arch_aliases_of (arch : string) : list string :=
  let targetArch := ToLower arch in
  let targetArch :=
    if String.eqb targetArch "" then ToLower GOARCH else targetArch in
  match archAliases !! targetArch with
  | Some aliases => aliases
  | None => [targetArch]
  end.

(** [ByArch] *)
Definition ByArch (arch : string) : AssetFilter := fun assets =>
  match first_by_aliases (arch_aliases_of arch) assets with
  | Some asset => inl asset
  | None => inr (Msg ("no asset found for architecture: " +:+ arch))
  end.

End Filters.

(** The loop of [Combined] from the filter of index [i] on. *)
Fixpoint Combined_from (i : nat) (filters : list AssetFilter)
    (currentAssets : list Asset) : Asset + error :=
  match filters with
  | [] =>
      match currentAssets with
      | [] => inr (Msg "no assets found after applying all filters")
      | first :: _ => inl first
      end
  | filter :: rest =>
      if (length currentAssets =? 0)%nat then
        inr (Msg ("no assets left after filter " +:+ Sprint_d i))
      else
        match rest with
        | [] => filter currentAssets
        | _ :: _ =>
            match filter currentAssets with
            | inr err => inr (Wrap ("filter " +:+ Sprint_d i +:+ " failed") err)
            | inl selected => Combined_from (S i) rest [selected]
            end
        end
  end.

(** [Combined] *)
Definition Combined (filters : list AssetFilter) : AssetFilter := fun assets =>
  if (length filters =? 0)%nat then inr (Msg "no filters specified")
  else Combined_from 0 filters assets.

(** [BySize], with [sort.Slice] read on the elements. *)
Definition BySize (sort_Slice : (Asset -> Asset -> bool) -> list Asset -> list Asset)
    (largest : bool) : AssetFilter := fun assets =>
  if (length assets =? 0)%nat then inr (Msg "no assets available")
  else
    let sorted :=
      sort_Slice (fun ai aj => if largest then Size aj <? Size ai
                               else Size ai <? Size aj) assets in
    match sorted with
    | first :: _ => inl first
    | [] => inr (Msg "panic: index out of range")
    end.

(** [strings.ToLower] on the letters A to Z; the other bytes stay. *)
Definition lower_ascii (c : ascii) : ascii :=
  let n := nat_of_ascii c in
  if (65 <=? n)%nat && (n <=? 90)%nat then ascii_of_nat (n + 32) else c.

Fixpoint ToLower_ascii (s : string) : string :=
  match s with
  | EmptyString => ""
  | String c rest => String (lower_ascii c) (ToLower_ascii rest)
  end.

(** [Installer.InstallRepo] *)
Definition InstallRepo
    (finder : Context -> string -> string -> Release + error)
    (download : Context -> string -> Reader + error)
    (extract : Reader -> string -> World -> option error * World)
    (filter : AssetFilter) (PingGoogle : bool)
    (ctx : Context) (cfg : Config) (repoURL outputDir : string) (w : World)
  : option error * World :=
  installRepo finder download extract filter PingGoogle ctx cfg
    (mkRepo repoURL outputDir) w.

(** ** Vocabulary of the further properties *)

(** What [validate] asks of a repository. *)
Definition valid_repo (repo : Repo) : Prop :=
  RepoURL repo <> "" /\ OutputDir repo <> "" /\
  HasPrefix (RepoURL repo) "https://github.com/" = true.

(** The three complaints of [validate] about the repository of index [i]. *)
Definition complaint (i : nat) (repo : Repo) : error :=
  if String.eqb (RepoURL repo) "" then
    Msg ("repository at index " +:+ Sprint_d i +:+ ": URL is required")
  else if String.eqb (OutputDir repo) "" then
    Msg ("repository at index " +:+ Sprint_d i +:+ ": output_dir is required")
  else
    Msg ("repository at index " +:+ Sprint_d i
         +:+ ": URL must be a GitHub repository URL").

(** [s] ends with a separator. *)
Definition ends_with_sep (s : string) : Prop := exists t, s = t +:+ "/".

(** The lowered name of the asset contains one of the lowered patterns,
    or one of the aliases. *)
Definition name_matches (ToLower : string -> string) (patterns : list string)
    (a : Asset) : Prop :=
  exists p, In p patterns /\ Contains (ToLower (AssetName a)) (ToLower p) = true.

Definition name_has_alias (ToLower : string -> string) (aliases : list string)
    (a : Asset) : Prop :=
  exists p, In p aliases /\ Contains (ToLower (AssetName a)) p = true.

(** [a] is the first element of [l] with the property [P]. *)
Definition first_with {A : Type} (P : A -> Prop) (l : list A) (a : A) : Prop :=
  exists before after,
    l = (before ++ a :: after)%list /\ P a /\ Forall (fun b => ~ P b) before.

(** A filter that answers with one of the assets it is given. *)
Definition selecting (f : AssetFilter) : Prop :=
  forall assets a, f assets = inl a -> In a assets.

(** Sample assets. *)
Definition asset_named (name : string) (size : Z) : Asset :=
  mkAsset name ("https://example.org/" +:+ name) "" size.

Definition sample_assets : list Asset :=
  [ asset_named "README.md" 1;
    asset_named "app-Darwin-amd64.tar.gz" 30;
    asset_named "app-windows-amd64.zip" 20;
    asset_named "app-linux-x86_64.TGZ" 10 ].


(** [q] lies strictly below [root]. *)
Definition below (root q : string) : Prop :=
  within_root root q /\ HasPrefix q (root +:+ "/") = true.



(** The elements of the cleaned path, last element first. *)
Definition path_stack (path : string) : list string :=
  fold_left (clean_step (rooted path)) (split_sep path) [].


(** A configuration of three repositories, the second with a URL that
    names no repository, and the loop of [Install] on the sample
    collaborators. *)
Definition three_repos : Config :=
  mkConfig [mkRepo "https://github.com/owner/repo" "/dst";
            mkRepo "https://github.com/owner" "/dst2";
            mkRepo "https://github.com/owner/other" "/dst3"] "".

Definition sample_loop (repos : list Repo) (w : World) : option error * World :=
  Install_loop (fun _ _ _ => inl sample_release) (fun _ _ => inl gzip_reader)
    (Extract (fun _ => Tar three_files None) (fun _ => Zip []))
    first_asset false (mkContext None) three_repos repos w.



(** * Properties *)

(** ** Sanity checks of the path model against the examples of Go's documentation *)

Example Clean_examples :
  map Clean ["abc"; ""; "abc//def//ghi"; "abc/./def"; "/./abc/def";
             "abc/def/ghi/../jkl"; "abc/def/../../.."; "/abc/def/../../..";
             "abc/def/../../../ghi/jkl/../../../mno"; "/../abc";
             "abc/./../def"; "abc/"; "../.."; "/"; "."; "/dst/../dst-evil/x"]
  = ["abc"; "."; "abc/def/ghi"; "abc/def"; "/abc/def";
     "abc/def/jkl"; ".."; "/";
     "../../mno"; "/abc";
     "def"; "abc"; "../.."; "/"; "."; "/dst-evil/x"].
Proof. vm_compute. reflexivity. Qed.

Example Join_Dir_examples :
  (Join "/dst" "a/b.txt", Join "/dst" "../../etc/passwd", Join "" "a", Join "" "",
   Join "/dst" "/etc/passwd", Dir "/dst/a/b.txt", Dir "/dst", Dir "a", Dir "/")
  = ("/dst/a/b.txt", "/etc/passwd", "a", "",
     "/dst/etc/passwd", "/dst/a", "/", ".", "/").
Proof. vm_compute. reflexivity. Qed.

(** ** Format sniffing *)

Lemma byte_eqb_eq (a b : byte) : byte_eqb a b = true <-> a = b.
Proof.
  unfold byte_eqb. split.
  - intros H. now apply Byte.byte_dec_bl.
  - intros ->. now apply Byte.byte_dec_lb.
Qed.

Lemma gzip_magic_iff (data : list byte) :
  byte_eqb (at_ data 0) x1f && byte_eqb (at_ data 1) x8b = true
  <-> ((2 <= length data)%nat -> starts_gzip data) /\
      at_ data 0 = x1f /\ at_ data 1 = x8b.
Proof.
  rewrite andb_true_iff, !byte_eqb_eq. split.
  - intros [H0 H1]. split; [|done].
    intros Hlen. destruct data as [|a [|b rest]]; simpl in Hlen; try lia.
    unfold at_ in *. simpl in *. subst. by exists rest.
  - tauto.
Qed.

Lemma zip_magic_iff (data : list byte) :
  byte_eqb (at_ data 0) "P"%byte && byte_eqb (at_ data 1) "K"%byte
    && byte_eqb (at_ data 2) x03 && byte_eqb (at_ data 3) x04 = true
  <-> ((4 <= length data)%nat -> starts_zip data) /\
      at_ data 0 = "P"%byte /\ at_ data 1 = "K"%byte /\
      at_ data 2 = x03 /\ at_ data 3 = x04.
Proof.
  rewrite !andb_true_iff, !byte_eqb_eq. split.
  - intros [[[H0 H1] H2] H3]. split; [|done].
    intros Hlen. destruct data as [|a [|b [|c [|d rest]]]]; simpl in Hlen; try lia.
    unfold at_ in *. simpl in *. subst. by exists rest.
  - tauto.
Qed.

Lemma firstn4_keeps_magic (data : list byte) :
  (4 <= length data)%nat ->
  at_ (firstn 4 data) 0 = at_ data 0 /\ at_ (firstn 4 data) 1 = at_ data 1 /\
  at_ (firstn 4 data) 2 = at_ data 2 /\ at_ (firstn 4 data) 3 = at_ data 3 /\
  length (firstn 4 data) = 4%nat.
Proof.
  intros Hlen. destruct data as [|a [|b [|c [|d rest]]]]; simpl in Hlen; try lia.
  by cbn.
Qed.

(** C3. A prefix shorter than 4 bytes gives the error of a truncated input,
    which differs from the outcome of an unknown format; a prefix of at
    least 4 bytes gives tar.gz when it begins with 1F 8B, zip when it
    begins with PK 03 04, and the unsupported-format error otherwise.  This
    holds for [detectFormat] and for the peek and sniff that open
    [OptimizedExtractor.Extract]. *)
Theorem C3_format_sniffing (data : list byte) :
  ((length data < 4)%nat ->
     MultiExtractor.detectFormat data
       = ("", Some (Msg "file too small to detect format")) /\
     Extract_dispatch (mkReader data None)
     = Refused (Wrap "failed to peek archive data" EOF)) /\
  ((4 <= length data)%nat -> starts_gzip data ->
     MultiExtractor.detectFormat data = ("tar.gz", None) /\
     Extract_dispatch (mkReader data None) = ToTarGz) /\
  ((4 <= length data)%nat -> starts_zip data ->
     MultiExtractor.detectFormat data = ("zip", None) /\
     Extract_dispatch (mkReader data None) = ToZip) /\
  ((4 <= length data)%nat -> ~ starts_gzip data -> ~ starts_zip data ->
     MultiExtractor.detectFormat data
       = ("", Some (Msg "unknown archive format")) /\
     Extract_dispatch (mkReader data None)
     = Refused (Msg "unsupported archive format")) /\
  Msg "file too small to detect format" <> Msg "unknown archive format" /\
  Wrap "failed to peek archive data" EOF <> Msg "unsupported archive format".
Proof.
  split; [|split; [|split; [|split; [|split]]]]; try discriminate.
  - intros Hlen. unfold MultiExtractor.detectFormat, Extract_dispatch, Peek.
    cbn [bytes fault].
    apply Nat.ltb_lt in Hlen. by rewrite Hlen.
  - intros Hlen [rest ->].
    unfold MultiExtractor.detectFormat, Extract_dispatch, Peek.
    cbn [bytes fault].
    apply Nat.ltb_ge in Hlen. rewrite Hlen.
    destruct rest as [|c [|d rest]]; simpl in Hlen; try discriminate Hlen.
    by cbn.
  - intros Hlen [rest ->].
    unfold MultiExtractor.detectFormat, Extract_dispatch, Peek.
    cbn [bytes fault].
    by cbn.
  - intros Hlen Hgz Hzip.
    assert (Hg : byte_eqb (at_ data 0) x1f && byte_eqb (at_ data 1) x8b = false).
    { apply not_true_is_false. rewrite gzip_magic_iff. intros [H _].
      apply Hgz, H. lia. }
    assert (Hz : byte_eqb (at_ data 0) "P"%byte && byte_eqb (at_ data 1) "K"%byte
                 && byte_eqb (at_ data 2) x03 && byte_eqb (at_ data 3) x04 = false).
    { apply not_true_is_false. rewrite zip_magic_iff. intros [H _].
      by apply Hzip, H. }
    destruct (firstn4_keeps_magic data Hlen) as (E0 & E1 & E2 & E3 & E4).
    apply Nat.ltb_ge in Hlen.
    unfold MultiExtractor.detectFormat, Extract_dispatch, Peek.
    cbn [bytes fault].
    rewrite Hlen, Hg, Hz. cbv iota. unfold detectFormatFromBytes.
    rewrite E0, E1, E2, E3, E4, Hg, Hz. by cbn.
Qed.

Lemma C3_format_sniffing_witness :
  MultiExtractor.detectFormat [x1f]
    = ("", Some (Msg "file too small to detect format")) /\
  MultiExtractor.detectFormat [x1f; x8b; x08; x00] = ("tar.gz", None) /\
  Extract_dispatch (mkReader ["P"%byte; "K"%byte; x03; x04; x14] None) = ToZip /\
  Extract_dispatch (mkReader [x00; x01; x02; x03] None)
  = Refused (Msg "unsupported archive format").
Proof.
  split; [|split; [|split]].
  - apply (C3_format_sniffing [x1f]). simpl. lia.
  - apply (C3_format_sniffing [x1f; x8b; x08; x00]); [simpl; lia|].
    by exists [x08; x00].
  - apply (C3_format_sniffing ["P"%byte; "K"%byte; x03; x04; x14]); [simpl; lia|].
    by exists [x14].
  - apply (C3_format_sniffing [x00; x01; x02; x03]); [simpl; lia| |].
    + intros [rest H]. discriminate H.
    + intros [rest H]. discriminate H.
Defined.

(** ** Strings and path elements *)

Lemma HasPrefix_app (s pre : string) :
  HasPrefix s pre = true -> exists rest, s = pre +:+ rest.
Proof.
  unfold HasPrefix. revert s. induction pre as [|a pre IH]; intros s H.
  - by exists s.
  - destruct s as [|b s]; simpl in H; [discriminate|].
    destruct (ascii_dec a b) as [->|]; [|discriminate].
    destruct (IH s H) as [rest ->]. by exists rest.
Qed.

Lemma append_cons (x : ascii) (a b : string) :
  String x a +:+ b = String x (a +:+ b).
Proof. reflexivity. Qed.

Lemma append_nil (b : string) : "" +:+ b = b.
Proof. reflexivity. Qed.

Lemma append_assoc (a b c : string) : (a +:+ b) +:+ c = a +:+ (b +:+ c).
Proof.
  induction a as [|x a IH]; [done|]. by rewrite !append_cons, IH.
Qed.

Lemma split_sep_not_nil (s : string) : split_sep s <> [].
Proof.
  induction s as [|a s IH]; simpl; [done|].
  destruct (Ascii.eqb a Separator); [done|].
  by destruct (split_sep s).
Qed.

Lemma split_sep_app (a b : string) :
  split_sep (a +:+ String Separator b) = (split_sep a ++ split_sep b)%list.
Proof.
  induction a as [|x a IH].
  - done.
  - rewrite append_cons. simpl. rewrite IH.
    destruct (Ascii.eqb x Separator); [done|].
    pose proof (split_sep_not_nil a) as Hne.
    destruct (split_sep a) as [|seg segs]; [done|done].
Qed.

Lemma split_sep_no_sep (s : string) : Forall no_sep (split_sep s).
Proof.
  induction s as [|a s IH]; simpl.
  - by constructor.
  - destruct (Ascii.eqb a Separator) eqn:Ha.
    + by constructor.
    + pose proof (split_sep_not_nil s) as Hne.
      destruct (split_sep s) as [|seg segs]; [done|].
      inversion IH as [|? ? Hseg Hsegs]; subst. constructor; [|done].
      unfold no_sep in *. simpl. by rewrite Ha, Hseg.
Qed.

Lemma no_sep_not_rooted (s : string) : no_sep s -> rooted s = false.
Proof.
  unfold no_sep. destruct s as [|a s]; [done|]. simpl.
  destruct (Ascii.eqb a Separator); [discriminate|done].
Qed.

Lemma rooted_app (a b : string) : a <> "" -> rooted (a +:+ b) = rooted a.
Proof. by destruct a. Qed.

Lemma split_join_sep (segs : list string) :
  segs <> [] -> Forall no_sep segs -> split_sep (join_sep segs) = segs.
Proof.
  induction segs as [|s segs IH]; [done|]. intros _ Hall.
  inversion Hall as [|? ? Hs Hsegs]; subst.
  destruct segs as [|s' segs]; [done|].
  change (join_sep (s :: s' :: segs))
    with (s +:+ String Separator (join_sep (s' :: segs))).
  rewrite split_sep_app, Hs, IH; done.
Qed.

Lemma within_root_refl (root : string) : within_root root root.
Proof. split; [done|]. exists []. by rewrite app_nil_r. Qed.

Lemma within_root_app (root rest : string) :
  root <> "" -> within_root root (root +:+ String Separator rest).
Proof.
  intros Hne. split; [by apply rooted_app|].
  exists (path_elems rest). unfold path_elems.
  by rewrite split_sep_app, List.filter_app.
Qed.

(** What the path guard lets through is the root or lies below it. *)
Lemma path_guard_sound (cleanedPath cleanedDst : string) :
  cleanedDst <> "" ->
  path_refused cleanedPath cleanedDst = false ->
  within_root cleanedDst cleanedPath.
Proof.
  intros Hne H. unfold path_refused in H.
  apply orb_false_iff in H as [_ H]. apply andb_false_iff in H as [H|H].
  - apply negb_false_iff, String.eqb_eq in H. subst. apply within_root_refl.
  - apply negb_false_iff, HasPrefix_app in H as [rest ->].
    rewrite append_assoc, append_cons, append_nil. by apply within_root_app.
Qed.

(** ** [Clean] is idempotent and never empty *)

Lemma clean_step_name (r : bool) (out : list string) (seg : string) :
  is_name seg -> clean_step r out seg = seg :: out.
Proof.
  intros (H1 & H2 & H3 & _). unfold clean_step.
  apply String.eqb_neq in H1, H2, H3. by rewrite H1, H2, H3.
Qed.

Lemma clean_step_cleaned (r : bool) (out : list string) (seg : string) :
  no_sep seg -> cleaned_stack r out -> cleaned_stack r (clean_step r out seg).
Proof.
  intros Hseg (names & k & -> & Hnames & Hk). unfold clean_step.
  destruct (String.eqb_spec seg "") as [->|Hne]; [by exists names, k|].
  destruct (String.eqb_spec seg ".") as [->|Hnd]; [by exists names, k|].
  simpl. destruct (String.eqb_spec seg "..") as [->|Hndd].
  - destruct names as [|top names]; simpl.
    + destruct k as [|k]; simpl.
      * destruct r; [by exists [], 0%nat|]. by exists [], 1%nat.
      * destruct r; [by specialize (Hk eq_refl)|].
        exists [], (S (S k)). by repeat split.
    + inversion Hnames as [|? ? Htop Hrest]; subst.
      destruct r; [by exists names, k|].
      destruct Htop as (_ & _ & Htop & _). apply String.eqb_neq in Htop.
      rewrite Htop. by exists names, k.
  - exists (seg :: names), k. repeat split; [|done].
    constructor; [|done]. by repeat split.
Qed.

Lemma clean_fold_cleaned (r : bool) (segs out : list string) :
  Forall no_sep segs -> cleaned_stack r out ->
  cleaned_stack r (fold_left (clean_step r) segs out).
Proof.
  revert out. induction segs as [|seg segs IH]; intros out Hsegs Hout; [done|].
  inversion Hsegs; subst. simpl. apply IH; [done|]. by apply clean_step_cleaned.
Qed.

Lemma cleaned_stack_of_path (path : string) :
  cleaned_stack (rooted path)
    (fold_left (clean_step (rooted path)) (split_sep path) []).
Proof.
  apply clean_fold_cleaned; [apply split_sep_no_sep|]. by exists [], 0%nat.
Qed.

Lemma clean_fold_names (r : bool) (names out : list string) :
  Forall is_name names ->
  fold_left (clean_step r) names out = (rev names ++ out)%list.
Proof.
  revert out. induction names as [|s names IH]; intros out Hall; [done|].
  inversion Hall; subst. simpl. rewrite clean_step_name, IH by done.
  by rewrite <- app_assoc.
Qed.

Lemma clean_fold_dotdots (k : nat) (out : list string) :
  (out = [] \/ exists below, out = ".." :: below) ->
  fold_left (clean_step false) (repeat ".." k) out = (repeat ".." k ++ out)%list.
Proof.
  revert out. induction k as [|k IH]; intros out Hout; [done|].
  simpl. assert (Hstep : clean_step false out ".." = ".." :: out).
  { by destruct Hout as [->|[below ->]]. }
  rewrite Hstep, IH by (right; by exists out).
  change (".." :: out) with ([".."] ++ out)%list.
  rewrite app_assoc. f_equal. by rewrite <- repeat_cons.
Qed.

(** Cleaning the elements of a cleaned path gives them back. *)
Lemma clean_fold_fixpoint (r : bool) (out : list string) :
  cleaned_stack r out -> fold_left (clean_step r) (rev out) [] = out.
Proof.
  intros (names & k & -> & Hnames & Hk).
  rewrite rev_app_distr, rev_repeat, fold_left_app.
  assert (Hdots : fold_left (clean_step r) (repeat ".." k) [] = repeat ".." k).
  { destruct r.
    - by rewrite (Hk eq_refl).
    - rewrite clean_fold_dotdots by (by left). by rewrite app_nil_r. }
  rewrite Hdots, clean_fold_names, rev_involutive; [done|].
  by apply Forall_rev.
Qed.

Lemma cleaned_stack_no_sep (r : bool) (out : list string) :
  cleaned_stack r out -> Forall no_sep out /\ Forall (fun s => s <> "") out.
Proof.
  intros (names & k & -> & Hnames & _). split; apply Forall_app; split.
  - eapply Forall_impl; [exact Hnames|]. by intros s (_ & _ & _ & H).
  - apply Forall_forall. intros s Hs. apply list_elem_of_In, repeat_spec in Hs. by subst.
  - eapply Forall_impl; [exact Hnames|]. by intros s (H & _).
  - apply Forall_forall. intros s Hs. apply list_elem_of_In, repeat_spec in Hs. by subst.
Qed.

Lemma join_sep_cons (s : string) (segs : list string) :
  segs <> [] -> join_sep (s :: segs) = s +:+ String Separator (join_sep segs).
Proof. by destruct segs. Qed.

Lemma join_sep_not_rooted (segs : list string) :
  Forall no_sep segs -> Forall (fun s => s <> "") segs ->
  rooted (join_sep segs) = false.
Proof.
  intros Hsep Hne. destruct segs as [|s segs]; [done|].
  inversion Hsep; inversion Hne; subst.
  destruct segs as [|s' segs]; [by apply no_sep_not_rooted|].
  rewrite join_sep_cons by done. rewrite rooted_app by done.
  by apply no_sep_not_rooted.
Qed.

Lemma join_sep_not_empty (segs : list string) :
  segs <> [] -> Forall (fun s => s <> "") segs -> join_sep segs <> "".
Proof.
  intros Hnil Hne. destruct segs as [|s segs]; [done|].
  inversion Hne; subst. destruct s as [|a s]; [done|].
  destruct segs; [done|]. by rewrite join_sep_cons.
Qed.

Lemma Clean_not_empty (path : string) : Clean path <> "".
Proof.
  unfold Clean, render, clean_segs.
  destruct (cleaned_stack_no_sep _ _ (cleaned_stack_of_path path)) as [_ Hne].
  destruct (rooted path); [done|].
  destruct (rev _) as [|s segs] eqn:E; [done|].
  apply join_sep_not_empty; [done|]. rewrite <- E. by apply Forall_rev.
Qed.

Lemma Clean_render (r : bool) (out : list string) :
  cleaned_stack r out -> Clean (render r (rev out)) = render r (rev out).
Proof.
  intros Hout. destruct (cleaned_stack_no_sep _ _ Hout) as [Hsep Hne].
  apply Forall_rev in Hsep, Hne.
  destruct (rev out) as [|s segs] eqn:E.
  - destruct r; by vm_compute.
  - assert (Hroot : rooted (render r (s :: segs)) = r).
    { unfold render. destruct r; [done|]. by apply join_sep_not_rooted. }
    unfold Clean. rewrite Hroot. f_equal. unfold clean_segs.
    assert (Hsplit : fold_left (clean_step r) (split_sep (render r (s :: segs))) []
                     = fold_left (clean_step r) (s :: segs) []).
    { unfold render. destruct r.
      - change ("/" +:+ join_sep (s :: segs))
          with ("" +:+ String Separator (join_sep (s :: segs))).
        rewrite split_sep_app, split_join_sep by done. done.
      - by rewrite split_join_sep. }
    rewrite Hsplit, <- E, clean_fold_fixpoint by done. done.
Qed.

Lemma Clean_idempotent (path : string) : Clean (Clean path) = Clean path.
Proof.
  unfold Clean at 2 3. unfold clean_segs. apply Clean_render, cleaned_stack_of_path.
Qed.

(** A trailing [.] element, with or without a separator after it, does not
    change the cleaned path. *)
Lemma Clean_dot_suffix (dst : string) :
  dst <> "" ->
  Clean (dst +:+ "/" +:+ ".") = Clean dst /\ Clean (dst +:+ "/" +:+ "./") = Clean dst.
Proof.
  intros Hne. unfold Clean, clean_segs.
  change (dst +:+ "/" +:+ ".") with (dst +:+ String Separator ".").
  change (dst +:+ "/" +:+ "./") with (dst +:+ String Separator "./").
  rewrite !rooted_app, !split_sep_app, !fold_left_app by done. done.
Qed.

Lemma Join_skipped_name (dst name : string) :
  name = "." \/ name = "./" -> Clean (Join dst name) = Clean dst.
Proof.
  intros Hname. unfold Join. destruct (String.eqb_spec dst "") as [->|Hne].
  - by destruct Hname as [->| ->]; vm_compute.
  - simpl. rewrite Clean_idempotent.
    by destruct Hname as [->| ->]; apply Clean_dot_suffix.
Qed.

(** ** The loops over the entries *)

Lemma tar_loop_app (pre rest : list (Header * Body)) (tail : option error)
    (dst : string) (w w1 : World) :
  tar_loop pre None dst w = (None, w1) ->
  tar_loop (pre ++ rest) tail dst w = tar_loop rest tail dst w1.
Proof.
  revert w. induction pre as [|[h b] pre IH]; intros w H; simpl in *.
  - by inversion H.
  - destruct (extractTarEntryOptimized b h dst w) as [[e|] w'] eqn:E; [done|].
    by apply IH.
Qed.

Lemma zip_loop_app (pre rest : list ZipFile) (dst : string) (w w1 : World) :
  zip_loop pre dst w = (None, w1) ->
  zip_loop (pre ++ rest) dst w = zip_loop rest dst w1.
Proof.
  revert w. induction pre as [|f pre IH]; intros w H; simpl in *.
  - by inversion H.
  - destruct (extractZipEntryOptimized f dst w) as [[e|] w'] eqn:E; [done|].
    by apply IH.
Qed.

(** The entries before a given one either all succeed or stop the loop. *)
Lemma tar_loop_prefix (pre : list (Header * Body)) (dst : string) (w : World) :
  (exists w1, tar_loop pre None dst w = (None, w1)) \/
  (forall rest tail, exists e w1, tar_loop (pre ++ rest) tail dst w = (Some e, w1)).
Proof.
  revert w. induction pre as [|[h b] pre IH]; intros w; simpl.
  - left. by exists w.
  - destruct (extractTarEntryOptimized b h dst w) as [[e|] w'] eqn:E.
    + right. intros rest tail. by eexists _, _.
    + apply IH.
Qed.

Lemma zip_loop_prefix (pre : list ZipFile) (dst : string) (w : World) :
  (exists w1, zip_loop pre dst w = (None, w1)) \/
  (forall rest, exists e w1, zip_loop (pre ++ rest) dst w = (Some e, w1)).
Proof.
  revert w. induction pre as [|f pre IH]; intros w; simpl.
  - left. by exists w.
  - destruct (extractZipEntryOptimized f dst w) as [[e|] w'] eqn:E.
    + right. intros rest. by eexists _, _.
    + apply IH.
Qed.

(** ** The current-directory entry *)



(** ** The path guard *)

(** C1. An entry whose path, joined with the destination and cleaned, is
    neither the cleaned destination nor below it element by element is
    refused: the tar entry and the zip entry return the error of an invalid
    path and leave the world as it was, so no directory is made, no file
    opened or written and no link created; and an archive holding such an
    entry makes the loop over its entries, and [Extract], end in an
    error. *)
Theorem C1_outside_root_refused (dst name : string) :
  ~ within_root (Clean dst) (Clean (Join dst name)) ->
  (forall header reader w,
     Name header = name ->
     extractTarEntryOptimized reader header dst w
     = (Some (Msg ("invalid file path: " +:+ name)), w)) /\
  (forall file w,
     zName file = name ->
     extractZipEntryOptimized file dst w
     = (Some (Msg ("invalid file path: " +:+ name)), w)) /\
  (forall header reader before after tail w,
     Name header = name ->
     exists e w', tar_loop (before ++ (header, reader) :: after) tail dst w
                  = (Some e, w')) /\
  (forall file before after w,
     zName file = name ->
     exists e w', zip_loop (before ++ file :: after) dst w = (Some e, w')) /\
  (forall untar unzip src w header reader entries tail,
     Extract_dispatch src = ToTarGz -> untar src = Tar entries tail ->
     In (header, reader) entries -> Name header = name ->
     exists e w', Extract untar unzip src dst w = (Some e, w')) /\
  (forall untar unzip src w file files,
     Extract_dispatch src = ToZip -> unzip (bytes src) = Zip files ->
     In file files -> zName file = name ->
     exists e w', Extract untar unzip src dst w = (Some e, w')).
Proof.
  intros Hout.
  assert (Hskip : String.eqb name "./" || String.eqb name "." = false).
  { apply not_true_is_false. intros H. apply Hout.
    rewrite Join_skipped_name; [apply within_root_refl|].
    apply orb_true_iff in H as [H|H]; apply String.eqb_eq in H; auto. }
  assert (Hguard : path_refused (Clean (Join dst name)) (Clean dst) = true).
  { apply not_false_is_true. intros H. apply Hout.
    apply path_guard_sound; [apply Clean_not_empty|done]. }
  assert (Htar : forall header reader w, Name header = name ->
            extractTarEntryOptimized reader header dst w
            = (Some (Msg ("invalid file path: " +:+ name)), w)).
  { intros header reader w Hn. unfold extractTarEntryOptimized.
    by rewrite Hn, Hskip, Hguard. }
  assert (Hzip : forall file w, zName file = name ->
            extractZipEntryOptimized file dst w
            = (Some (Msg ("invalid file path: " +:+ name)), w)).
  { intros file w Hn. unfold extractZipEntryOptimized.
    by rewrite Hn, Hskip, Hguard. }
  assert (Htars : forall header reader before after tail w, Name header = name ->
            exists e w', tar_loop (before ++ (header, reader) :: after) tail dst w
                         = (Some e, w')).
  { intros header reader before after tail w Hn.
    destruct (tar_loop_prefix before dst w) as [[w1 Hpre]|Hstop]; [|apply Hstop].
    rewrite (tar_loop_app _ _ _ _ _ _ Hpre). simpl.
    rewrite (Htar _ _ _ Hn). by eexists _, _. }
  assert (Hzips : forall file before after w, zName file = name ->
            exists e w', zip_loop (before ++ file :: after) dst w = (Some e, w')).
  { intros file before after w Hn.
    destruct (zip_loop_prefix before dst w) as [[w1 Hpre]|Hstop]; [|apply Hstop].
    rewrite (zip_loop_app _ _ _ _ _ Hpre). simpl.
    rewrite (Hzip _ _ Hn). by eexists _, _. }
  split; [done|]. split; [done|]. split; [done|]. split; [done|]. split.
  - intros untar unzip src w header reader entries tail Hd Hu Hin Hn.
    unfold Extract.
    destruct (MkdirAll dst perm_0755 w) as [[e|] w0]; [by eexists _, _|].
    rewrite Hd. unfold extractTarGzStream. rewrite Hu.
    apply in_split in Hin as (before & after & ->). by apply Htars.
  - intros untar unzip src w file files Hd Hu Hin Hn. unfold Extract.
    destruct (MkdirAll dst perm_0755 w) as [[e|] w0]; [by eexists _, _|].
    rewrite Hd. unfold extractZipFromReader.
    destruct (fault src); [by eexists _, _|]. rewrite Hu.
    apply in_split in Hin as (before & after & ->). by apply Hzips.
Qed.

(** ** No call removes anything *)

Lemma view_raw (t : gmap string node) (q : string) (n : node) :
  t !! q = Some n -> view t q = Some n.
Proof. unfold view. by intros ->. Qed.




Lemma gently_refl (p : string) (t : gmap string node) : gently p t t.
Proof. intros q. by left. Qed.

Lemma gently_trans (p : string) (t1 t2 t3 : gmap string node) :
  gently p t1 t2 -> gently p t2 t3 -> gently p t1 t3.
Proof.
  intros H12 H23 q.
  destruct (H12 q) as [E12|[[V1 S2]|(Hq1 & m & d & d' & F1 & F2)]];
    destruct (H23 q) as [E23|[[V2 S3]|(Hq & m' & e & e' & G2 & G3)]].
  - left. congruence.
  - right. left. split; [|done]. unfold view in *. by rewrite <- E12.
  - right. right. split; [done|]. exists m', e, e'. split; congruence.
  - right. left. split; [done|]. by rewrite E23.
  - destruct S2 as [n Hn]. by rewrite (view_raw _ _ _ Hn) in V2.
  - right. left. split; [done|]. by rewrite G3.
  - right. right. split; [done|]. exists m, d, d'. split; congruence.
  - by rewrite (view_raw _ _ _ F2) in V2.
  - right. right. split; [done|]. exists m, d, e'. split; congruence.
Qed.




Lemma same_kind_sym (a b : node) : same_kind a b -> same_kind b a.
Proof. destruct a, b; simpl; intros; by subst. Qed.




Lemma calls_extend_refl (w : World) : calls_extend w w.
Proof. exists []. by rewrite app_nil_r. Qed.

Lemma calls_extend_trans (w1 w2 w3 : World) :
  calls_extend w1 w2 -> calls_extend w2 w3 -> calls_extend w1 w3.
Proof.
  intros [m1 H1] [m2 H2]. exists (m1 ++ m2)%list. by rewrite H2, H1, app_assoc.
Qed.

Lemma steps_refl (p : string) (w : World) : steps p w w.
Proof. split; [apply gently_refl|apply calls_extend_refl]. Qed.

Lemma steps_trans (p : string) (w1 w2 w3 : World) :
  steps p w1 w2 -> steps p w2 w3 -> steps p w1 w3.
Proof.
  intros [G1 C1] [G2 C2].
  split; [by eapply gently_trans|by eapply calls_extend_trans].
Qed.

(** What [mkdir_all] does, path by path. *)
Lemma mkdir_all_effect (r : bool) (rsegs : list string) (perm : Z)
    (t t' : gmap string node) :
  mkdir_all r rsegs perm t = inl t' ->
  forall q, t' !! q = t !! q \/ (view t q = None /\ t' !! q = Some (NDir (Perm perm))).
Proof.
  revert t'. induction rsegs as [|seg up IH]; intros t' H q.
  - cbn [mkdir_all] in H.
    destruct (view t (render r (rev []))) as [[]|]; inversion H; subst. by left.
  - cbn [mkdir_all] in H.
    destruct (view t (render r (rev (seg :: up)))) as [[]|] eqn:Hp;
      try (inversion H; subst; by left).
    destruct (mkdir_all r up perm t) as [t''|e] eqn:Hup; [|done].
    inversion H; subst. destruct (decide (render r (rev (seg :: up)) = q)) as [<-|Hne].
    + right. by rewrite lookup_insert_eq.
    + rewrite lookup_insert_ne by done. by apply IH.
Qed.


Lemma mkdir_all_gently (r : bool) (rsegs : list string) (perm : Z)
    (t t' : gmap string node) (p : string) :
  mkdir_all r rsegs perm t = inl t' -> gently p t t'.
Proof.
  intros H q. destruct (mkdir_all_effect _ _ _ _ _ H q) as [E|[V E]]; [by left|].
  right. left. by rewrite E.
Qed.

Lemma gently_insert_new (p q : string) (n : node) (t : gmap string node) :
  view t q = None -> gently p t (<[q := n]> t).
Proof.
  intros Hq q'. destruct (decide (q = q')) as [<-|Hne].
  - right. left. by rewrite lookup_insert_eq.
  - left. by rewrite lookup_insert_ne.
Qed.

Lemma gently_insert_file (p : string) (m : Z) (d d' : list byte)
    (t : gmap string node) :
  t !! p = Some (NFile m d) -> gently p t (<[p := NFile m d']> t).
Proof.
  intros Hp q. destruct (decide (p = q)) as [<-|Hne].
  - right. right. split; [done|]. exists m, d, d'. by rewrite lookup_insert_eq.
  - left. by rewrite lookup_insert_ne.
Qed.

Lemma view_file_raw (t : gmap string node) (p : string) (m : Z) (d : list byte) :
  view t p = Some (NFile m d) -> t !! p = Some (NFile m d).
Proof.
  unfold view. destruct (t !! p); [done|]. by destruct (always_there p).
Qed.

Lemma open_file_gently (path : string) (perm : Z) (t t' : gmap string node) :
  open_file path perm t = inl t' -> gently (Clean path) t t'.
Proof.
  unfold open_file. intros H.
  destruct (view t (Dir (Clean path))) as [[]|]; try done.
  destruct (view t (Clean path)) as [[m|m d|x]|] eqn:Hp; try done.
  - destruct (owner_writable m); inversion H; subst.
    eapply gently_insert_file. by apply view_file_raw.
  - inversion H; subst. by apply gently_insert_new.
Qed.

Lemma write_file_gently (path : string) (d : list byte) (t : gmap string node) :
  gently (Clean path) t (write_file path d t).
Proof.
  unfold write_file.
  destruct (t !! Clean path) as [[m|m old|x]|] eqn:Hp; try apply gently_refl.
  by eapply gently_insert_file.
Qed.

Lemma sym_link_gently (target path p : string) (t t' : gmap string node) :
  sym_link target path t = inl t' -> gently p t t'.
Proof.
  unfold sym_link. intros H.
  destruct (view t (Clean path)) eqn:Hp; [done|].
  destruct (view t (Dir (Clean path))) as [[]|]; inversion H; subst.
  by apply gently_insert_new.
Qed.

Lemma call_steps (c : FsCall) (res : gmap string node + error) (p : string)
    (w w' : World) (r : option error) :
  (forall t', res = inl t' -> gently p (tree w) t') ->
  call c res w = (r, w') -> steps p w w'.
Proof.
  intros Hg H. unfold call in H. destruct res as [t'|e]; inversion H; subst.
  - split; [by apply Hg|by eexists].
  - split; [apply gently_refl|by eexists].
Qed.

Lemma MkdirAll_steps (path : string) (perm : Z) (w w' : World)
    (r : option error) (p : string) :
  MkdirAll path perm w = (r, w') -> steps p w w'.
Proof. apply call_steps. intros t'. apply mkdir_all_gently. Qed.

Lemma OpenFile_steps (path : string) (perm : Z) (w w' : World) (r : option error) :
  OpenFile path perm w = (r, w') -> steps (Clean path) w w'.
Proof. apply call_steps. intros t'. apply open_file_gently. Qed.

Lemma WriteTo_steps (path : string) (d : list byte) (w : World) :
  steps (Clean path) w (WriteTo path d w).
Proof. split; [apply write_file_gently|by eexists]. Qed.

Lemma Symlink_steps (target path p : string) (w w' : World) (r : option error) :
  Symlink target path w = (r, w') -> steps p w w'.
Proof. apply call_steps. intros t'. apply sym_link_gently. Qed.

Lemma extractFileOptimized_steps (reader : Body) (path : string) (mode : Z)
    (w w' : World) (r : option error) :
  extractFileOptimized reader path mode w = (r, w') -> steps (Clean path) w w'.
Proof.
  unfold extractFileOptimized. intros H.
  destruct (MkdirAll (Dir path) perm_0755 w) as [r1 w1] eqn:E1.
  pose proof (MkdirAll_steps _ _ _ _ _ (Clean path) E1) as S1.
  destruct r1 as [e|]; [by inversion H; subst|].
  destruct (OpenFile path mode w1) as [r2 w2] eqn:E2.
  pose proof (OpenFile_steps _ _ _ _ _ E2) as S2.
  destruct r2 as [e|]; [inversion H; subst; by eapply steps_trans|].
  pose proof (WriteTo_steps path (data reader) w2) as S3.
  assert (steps (Clean path) w (WriteTo path (data reader) w2)) as HS.
  { eapply steps_trans; [exact S1|]. by eapply steps_trans. }
  by destruct (broken reader); inversion H; subst.
Qed.

Lemma extractTarEntryOptimized_steps (reader : Body) (header : Header)
    (dst : string) (w w' : World) (r : option error) :
  extractTarEntryOptimized reader header dst w = (r, w') ->
  steps (Clean (Join dst (Name header))) w w'.
Proof.
  unfold extractTarEntryOptimized. intros H.
  destruct (_ || _); [inversion H; subst; apply steps_refl|].
  destruct (path_refused _ _); [inversion H; subst; apply steps_refl|].
  destruct (Ascii.eqb _ TypeDir); [by eapply MkdirAll_steps|].
  destruct (Ascii.eqb _ TypeReg); [by eapply extractFileOptimized_steps|].
  destruct (Ascii.eqb _ TypeSymlink); [|inversion H; subst; apply steps_refl].
  destruct (negb _); [inversion H; subst; apply steps_refl|].
  by eapply Symlink_steps.
Qed.

Lemma extractZipEntryOptimized_steps (file : ZipFile) (dst : string)
    (w w' : World) (r : option error) :
  extractZipEntryOptimized file dst w = (r, w') ->
  steps (Clean (Join dst (zName file))) w w'.
Proof.
  unfold extractZipEntryOptimized. intros H.
  destruct (_ || _); [inversion H; subst; apply steps_refl|].
  destruct (path_refused _ _); [inversion H; subst; apply steps_refl|].
  destruct (IsDir _); [by eapply MkdirAll_steps|].
  destruct (zOpen file); [by eapply extractFileOptimized_steps|].
  inversion H; subst. apply steps_refl.
Qed.

(** ** Failure of one entry *)


(** ** The properties at the archives of the tests *)

(** [TestMultiExtractor_Extract_DirectoryTraversal]: the error names the
    invalid path, and nothing is written. *)
Example malicious_tar_refused :
  let out := tar_loop malicious_tar None "/dst" empty_dst in
  option_map error_text (fst out)
  = Some "failed to extract tar entry ../../../etc/passwd: invalid file path: ../../../etc/passwd"
  /\ snd out = empty_dst.
Proof. split; vm_compute; reflexivity. Qed.

(** A sibling of the destination whose name begins with the name of the
    destination is refused as well. *)
Example sibling_refused :
  extractTarEntryOptimized (whole "x")
    (mkHeader "../dst-evil/x" TypeReg 420 "") "/dst" empty_dst
  = (Some (Msg "invalid file path: ../dst-evil/x"), empty_dst).
Proof. vm_compute. reflexivity. Qed.

(** [TestMultiExtractor_Extract_CurrentDirectory]: the files are there
    with their contents. *)
Example tar_with_current_dir_extracted :
  let out := tar_loop tar_with_current_dir None "/dst" empty_dst in
  fst out = None /\
  tree (snd out) !! "/dst/test.txt" = Some (NFile 420 (bytes_of "Hello, World!")) /\
  tree (snd out) !! "/dst/subdir/nested.txt"
  = Some (NFile 420 (bytes_of "Nested file content")).
Proof. repeat split; vm_compute; reflexivity. Qed.

Lemma C1_outside_root_refused_witness :
  extractTarEntryOptimized (whole "malicious")
    (mkHeader "../../../etc/passwd" TypeReg 420 "") "/dst" empty_dst
  = (Some (Msg ("invalid file path: " +:+ "../../../etc/passwd")), empty_dst).
Proof.
  apply (C1_outside_root_refused "/dst" "../../../etc/passwd").
  - intros [_ [below H]]. vm_compute in H. discriminate H.
  - reflexivity.
Defined.


Lemma surjective_result (r : option error * World) (e : option error) :
  fst r = e -> r = (e, snd r).
Proof. intros <-. by destruct r. Qed.


(** ** Link targets *)

(** C2 (evaluation at the failing input). With the destination [/dst], the
    link entry [link] whose target is [../dst-evil/secret] points, read
    from the directory that holds the link, at [/dst-evil/secret], which is
    not within the destination; the entry is accepted all the same and the
    link is created, because the target is joined with the destination and
    compared with it as a string prefix. *)
Theorem C2_escaping_link_created :
  let header := mkHeader "link" TypeSymlink 511 "../dst-evil/secret" in
  let out := extractTarEntryOptimized (whole "") header "/dst" empty_dst in
  ~ within_root (Clean "/dst") (link_resolves_to (Join "/dst" "link") (Linkname header)) /\
  fst out = None /\
  calls (snd out) = [CallSymlink "../dst-evil/secret" "/dst/link"] /\
  tree (snd out) !! "/dst/link" = Some (NLink "../dst-evil/secret").
Proof.
  intros header out. split; [|split; [|split]].
  - intros [_ [below H]]. vm_compute in H. discriminate H.
  - vm_compute. reflexivity.
  - vm_compute. reflexivity.
  - vm_compute. reflexivity.
Qed.

(** The same check refuses a link whose target stays within the
    destination, because it reads the target from the destination and not
    from the directory that holds the link. *)
Lemma link_within_root_refused :
  let header := mkHeader "sub/link" TypeSymlink 511 "../ok.txt" in
  let w := no_calls {[ "/dst" := NDir perm_0755; "/dst/sub" := NDir perm_0755 ]} in
  within_root (Clean "/dst") (link_resolves_to (Join "/dst" "sub/link") (Linkname header)) /\
  extractTarEntryOptimized (whole "") header "/dst" w
  = (Some (Msg "invalid symlink target: ../ok.txt"), w).
Proof.
  intros header w. split.
  - split; [reflexivity|]. exists ["ok.txt"]. vm_compute. reflexivity.
  - reflexivity.
Qed.

(** ** The latest stable release *)

Section FinderProperties.

Variable IsValid : string -> bool.
Variable Compare : string -> string -> Z.
Variable sort_Slice : (Release -> Release -> bool) -> list Release -> list Release.

Hypothesis Compare_ok : compares_versions IsValid Compare.
Hypothesis sort_Slice_ok : sorts sort_Slice.

Local Abbreviation less := (release_less IsValid Compare).

Lemma release_less_asymmetric : asymmetric less.
Proof.
  destruct Compare_ok as [Hasym _].
  intros a b. unfold release_less, After.
  destruct (IsValid (normalizeTag (TagName a))) eqn:Va,
           (IsValid (normalizeTag (TagName b))) eqn:Vb; simpl; try done.
  - intros H. apply Z.ltb_lt in H. apply Z.ltb_ge. by apply Hasym.
  - intros H. apply Z.ltb_lt in H. apply Z.ltb_ge. lia.
Qed.

Lemma release_less_negatively_transitive : negatively_transitive less.
Proof.
  destruct Compare_ok as [_ Htrans].
  intros a b c. unfold release_less, After.
  destruct (IsValid (normalizeTag (TagName a))) eqn:Va,
           (IsValid (normalizeTag (TagName b))) eqn:Vb,
           (IsValid (normalizeTag (TagName c))) eqn:Vc; simpl; try done.
  - rewrite !Z.ltb_ge. by apply Htrans.
  - rewrite !Z.ltb_ge. lia.
Qed.

Lemma filterStableReleases_In (releases : list Release) (r : Release) :
  In r (filterStableReleases releases) <-> In r releases /\ stable r.
Proof.
  unfold filterStableReleases, stable. rewrite List.filter_In, andb_true_iff.
  rewrite !negb_true_iff. tauto.
Qed.

Lemma findLatestRelease_head (releases : list Release) :
  releases <> [] ->
  exists latest,
    findLatestRelease IsValid Compare sort_Slice releases = Some latest /\
    In latest releases /\
    forall r, In r releases -> less r latest = false.
Proof.
  intros Hne. destruct releases as [|r0 [|r1 rest]]; [done| |].
  - exists r0. split; [done|]. split; [by left|].
    intros r [Heq|[]]. subst r. destruct (less r0 r0) eqn:E; [|done].
    by rewrite (release_less_asymmetric _ _ E) in E.
  - destruct (sort_Slice_ok less (r0 :: r1 :: rest)
                release_less_asymmetric release_less_negatively_transitive)
      as [Hperm Hsorted].
    unfold findLatestRelease.
    destruct (sort_Slice less (r0 :: r1 :: rest)) as [|top others] eqn:E.
    { apply Permutation_nil in Hperm. discriminate Hperm. }
    exists top. split; [done|]. split.
    { eapply Permutation_in; [exact Hperm|]. by left. }
    intros r Hr. apply Permutation_sym in Hperm.
    apply (Permutation_in _ Hperm) in Hr. destruct Hr as [Heq|Hr].
    + subst r. destruct (less top top) eqn:Et; [|done].
      by rewrite (release_less_asymmetric _ _ Et) in Et.
    + apply StronglySorted_inv in Hsorted as [_ Hall].
      rewrite List.Forall_forall in Hall. by apply Hall.
Qed.

(** C5. From a list with at least one stable release the finder returns
    a release of the list that is neither a draft nor a prerelease, and
    no stable release of the list ranks above it.  The ranking is by
    [semver.Compare] when both normalized tags are valid versions, by the
    publication time when neither is, and a valid tag ranks above one
    that is not. *)
Theorem C5_latest_stable_release (releases : list Release) (owner repo : string) :
  (forall ri rj,
     let tagI := normalizeTag (TagName ri) in
     let tagJ := normalizeTag (TagName rj) in
     (IsValid tagI = true -> IsValid tagJ = true ->
        less ri rj = (0 <? Compare tagI tagJ)) /\
     (IsValid tagI = false -> IsValid tagJ = false ->
        less ri rj = After (PublishedAt ri) (PublishedAt rj)) /\
     (IsValid tagI = true -> IsValid tagJ = false ->
        less ri rj = true /\ less rj ri = false)) /\
  ((exists r, In r releases /\ stable r) ->
     exists latest,
       LatestStable IsValid Compare sort_Slice releases owner repo = inl latest /\
       In latest releases /\ stable latest /\
       forall r, In r releases -> stable r -> less r latest = false).
Proof.
  split.
  - intros ri rj tagI tagJ. unfold release_less. fold tagI tagJ.
    split; [|split]; intros Hi Hj; by rewrite ?Hi, ?Hj.
  - intros (r0 & Hr0 & Hs0). unfold LatestStable.
    assert (Hst : In r0 (filterStableReleases releases))
      by by apply filterStableReleases_In.
    destruct releases as [|x xs]; [done|]. cbn [length Nat.eqb].
    destruct (filterStableReleases (x :: xs)) as [|y ys] eqn:E; [done|].
    cbn [length Nat.eqb].
    destruct (findLatestRelease_head (y :: ys)) as (latest & -> & Hin & Hmax); [done|].
    exists latest. rewrite <- E in Hin, Hmax.
    apply filterStableReleases_In in Hin as [Hin Hstable].
    repeat split; try done; try apply Hstable.
    intros r Hr Hs. apply Hmax. by apply filterStableReleases_In.
Qed.

End FinderProperties.

(** ** Insertion sort keeps the promise of [sort.Slice] *)

Section InsertionSort.

Context {A : Type} (less : A -> A -> bool).
Hypothesis less_asym : asymmetric less.
Hypothesis less_ntrans : negatively_transitive less.

Lemma move_left_perm (x : A) (before : list A) :
  Permutation (move_left less x before) (x :: before).
Proof.
  induction before as [|prev earlier IH]; simpl; [done|].
  destruct (less x prev); [|done].
  rewrite IH. apply perm_swap.
Qed.

Lemma move_left_sorted (x : A) (before : list A) :
  StronglySorted (fun later earlier => less later earlier = false) before ->
  StronglySorted (fun later earlier => less later earlier = false)
    (move_left less x before).
Proof.
  induction before as [|prev earlier IH]; intros Hs; simpl.
  - repeat constructor.
  - apply StronglySorted_inv in Hs as [Hs Hprev].
    destruct (less x prev) eqn:E.
    + constructor; [by apply IH|].
      apply List.Forall_forall. intros y Hy.
      apply (Permutation_in _ (move_left_perm x earlier)) in Hy as [<-|Hy].
      * by apply less_asym.
      * rewrite List.Forall_forall in Hprev. by apply Hprev.
    + constructor; [by constructor|]. constructor; [done|].
      rewrite List.Forall_forall in Hprev |- *. intros y Hy.
      eapply less_ntrans; [exact E|]. by apply Hprev.
Qed.

Lemma sorted_snoc (R : A -> A -> Prop) (l : list A) (x : A) :
  StronglySorted R l -> List.Forall (fun y => R y x) l ->
  StronglySorted R (l ++ [x]).
Proof.
  induction l as [|a l IH]; intros Hs Hall; simpl.
  - repeat constructor.
  - apply StronglySorted_inv in Hs as [Hs Ha].
    apply List.Forall_cons_iff in Hall as [Hax Hall].
    constructor; [by apply IH|].
    apply List.Forall_app. split; [done|]. by constructor.
Qed.

Lemma sorted_rev (R : A -> A -> Prop) (l : list A) :
  StronglySorted R l -> StronglySorted (fun a b => R b a) (rev l).
Proof.
  induction l as [|a l IH]; intros Hs; simpl; [constructor|].
  apply StronglySorted_inv in Hs as [Hs Ha].
  apply sorted_snoc; [by apply IH|].
  apply List.Forall_forall. intros y Hy. apply List.in_rev in Hy.
  rewrite List.Forall_forall in Ha. by apply Ha.
Qed.

Lemma insertion_from_ok (sorted_part todo : list A) :
  StronglySorted (fun later earlier => less later earlier = false) sorted_part ->
  Permutation (insertion_from less sorted_part todo) (sorted_part ++ todo) /\
  StronglySorted (fun a b => less b a = false) (insertion_from less sorted_part todo).
Proof.
  revert sorted_part. induction todo as [|x rest IH]; intros sorted_part Hs; simpl.
  - split; [|by apply sorted_rev].
    rewrite app_nil_r. apply Permutation_sym, Permutation_rev.
  - destruct (IH (move_left less x sorted_part)) as [Hp Hsorted];
      [by apply move_left_sorted|].
    split; [|done]. rewrite Hp, move_left_perm. simpl.
    apply Permutation_middle.
Qed.

Lemma insertionSort_ok (l : list A) :
  Permutation (insertionSort less l) l /\
  StronglySorted (fun a b => less b a = false) (insertionSort less l).
Proof. apply (insertion_from_ok [] l). constructor. Qed.

End InsertionSort.

Lemma insertionSort_sorts {A : Type} : sorts (@insertionSort A).
Proof. intros less l Ha Hn. by apply insertionSort_ok. Qed.

(** ** The order of versions *)

Lemma order_cmp_nat : order_cmp Nat.compare.
Proof.
  split; [|split].
  - intros x y. apply Nat.compare_eq_iff.
  - intros x y. apply Nat.compare_antisym.
  - intros x y z [] H1 H2.
    + apply Nat.compare_eq_iff in H1, H2. apply Nat.compare_eq_iff. lia.
    + apply Nat.compare_lt_iff in H1, H2. apply Nat.compare_lt_iff. lia.
    + apply Nat.compare_gt_iff in H1, H2. apply Nat.compare_gt_iff. lia.
Qed.

Lemma string_compare_trans_lt (x y z : string) :
  String.compare x y = Lt -> String.compare y z = Lt -> String.compare x z = Lt.
Proof.
  intros H1 H2. apply String_as_OT.cmp_lt.
  apply String_as_OT.cmp_lt in H1, H2. by eapply String_as_OT.lt_trans.
Qed.

Lemma order_cmp_string : order_cmp String.compare.
Proof.
  split; [|split].
  - intros x y. split; [apply String.compare_eq_iff|].
    intros ->. destruct (String.compare y y) eqn:E; [done| |].
    + pose proof (String.compare_antisym y y) as H. rewrite E in H. done.
    + pose proof (String.compare_antisym y y) as H. rewrite E in H. done.
  - intros x y. apply String.compare_antisym.
  - intros x y z [] H1 H2.
    + apply String.compare_eq_iff in H1, H2. subst.
      destruct (String.compare z z) eqn:E; [done| |];
        pose proof (String.compare_antisym z z) as H; by rewrite E in H.
    + by eapply string_compare_trans_lt.
    + rewrite String.compare_antisym in H1, H2 |- *.
      apply CompOpp_iff in H1, H2. apply CompOpp_iff. simpl in *.
      by eapply string_compare_trans_lt.
Qed.

Lemma order_cmp_pair {A B : Type} (ca : A -> A -> comparison)
    (cb : B -> B -> comparison) :
  order_cmp ca -> order_cmp cb -> order_cmp (cmp_pair ca cb).
Proof.
  intros (Ea & Sa & Ta) (Eb & Sb & Tb). unfold cmp_pair, lex.
  split; [|split].
  - intros [a1 b1] [a2 b2]. simpl. split.
    + destruct (ca a1 a2) eqn:E; try discriminate.
      intros H. apply Ea in E. apply Eb in H. by subst.
    + intros [= -> ->]. rewrite (proj2 (Ea a2 a2) eq_refl). by apply Eb.
  - intros [a1 b1] [a2 b2]. simpl. rewrite (Sa a1 a2).
    destruct (ca a1 a2); simpl; [apply Sb|done|done].
  - intros [a1 b1] [a2 b2] [a3 b3] r. simpl.
    destruct (ca a1 a2) eqn:E12; destruct (ca a2 a3) eqn:E23.
    all: try (apply Ea in E12; subst a2).
    all: try (apply Ea in E23; subst a3).
    all: try rewrite (proj2 (Ea _ _) eq_refl).
    all: try rewrite E12; try rewrite E23.
    all: try (intros <- ?; done).
    all: try (intros ? <-; done).
    + apply Tb.
    + rewrite (Ta _ _ _ Lt E12 E23). by intros <-.
    + rewrite (Ta _ _ _ Gt E12 E23). by intros <-.
Qed.

Lemma order_cmp_option {A : Type} (ca : A -> A -> comparison) :
  order_cmp ca -> order_cmp (cmp_option ca).
Proof.
  intros (Ea & Sa & Ta). split; [|split].
  - intros [a|] [b|]; simpl; try done. rewrite Ea. split; congruence.
  - intros [a|] [b|]; simpl; first [done | apply Sa].
  - intros [a|] [b|] [c|] r; simpl; first [apply Ta | congruence].
Qed.

Lemma order_cmp_list {A : Type} (ca : A -> A -> comparison) :
  order_cmp ca -> order_cmp (list_compare ca).
Proof.
  intros (Ea & Sa & Ta). split; [|split].
  - by apply list_compare_refl.
  - intros x y. by apply list_compare_antisym.
  - intros x y z r. by apply list_compare_trans.
Qed.

Lemma order_cmp_key {X K : Type} (k : X -> K) (c : K -> K -> comparison) :
  (forall x y, k x = k y -> x = y) -> order_cmp c ->
  order_cmp (fun x y => c (k x) (k y)).
Proof.
  intros Hinj (Ec & Sc & Tc). split; [|split].
  - intros x y. rewrite Ec. split; [apply Hinj|by intros ->].
  - intros x y. apply Sc.
  - intros x y z r. apply Tc.
Qed.

Lemma order_cmp_int : order_cmp cmp_int.
Proof.
  apply (order_cmp_key int_key (cmp_pair Nat.compare String.compare)).
  - unfold int_key. by intros x y [= _ ->].
  - apply order_cmp_pair; [apply order_cmp_nat|apply order_cmp_string].
Qed.

Lemma order_cmp_ident : order_cmp cmp_ident.
Proof.
  apply (order_cmp_key ident_key
           (cmp_pair Nat.compare (cmp_pair Nat.compare String.compare))).
  - unfold ident_key. intros x y.
    destruct (semver.isNum x), (semver.isNum y); intros H; by simplify_eq.
  - apply order_cmp_pair; [apply order_cmp_nat|].
    apply order_cmp_pair; [apply order_cmp_nat|apply order_cmp_string].
Qed.

Lemma order_cmp_version : order_cmp cmp_version.
Proof.
  unfold cmp_version.
  repeat (apply order_cmp_pair; [apply order_cmp_int|]).
  apply order_cmp_option, order_cmp_list, order_cmp_ident.
Qed.

(** ** [semver.Compare] is the comparison of the version keys *)

Lemma order_cmp_refl {K : Type} (c : K -> K -> comparison) (x : K) :
  order_cmp c -> c x x = Eq.
Proof. intros (E & _). by apply E. Qed.

Lemma str_lt_cases (x y : string) :
  x <> y ->
  (if semver.str_lt x y then -1 else 1) = Z_of_cmp (String.compare x y).
Proof.
  intros Hne. unfold semver.str_lt.
  destruct (String.compare x y) eqn:E; try done.
  by apply String.compare_eq_iff in E.
Qed.

Lemma shortlex_cases (x y : string) :
  x <> y ->
  (if (String.length x <? String.length y)%nat then -1
   else if (String.length y <? String.length x)%nat then 1
   else if semver.str_lt x y then -1 else 1)
  = Z_of_cmp (lex (Nat.compare (String.length x) (String.length y))
                (String.compare x y)).
Proof.
  intros Hne.
  destruct (Nat.ltb_spec (String.length x) (String.length y)) as [H|H].
  { apply Nat.compare_lt_iff in H. by rewrite H. }
  destruct (Nat.ltb_spec (String.length y) (String.length x)) as [H'|H'].
  { apply Nat.compare_gt_iff in H'. by rewrite H'. }
  assert (E : Nat.compare (String.length x) (String.length y) = Eq)
    by (apply Nat.compare_eq_iff; lia).
  rewrite E. simpl. by apply str_lt_cases.
Qed.

Lemma compareInt_cmp (x y : string) :
  semver.compareInt x y = Z_of_cmp (cmp_int x y).
Proof.
  unfold semver.compareInt. destruct (String.eqb_spec x y) as [->|Hne].
  - by rewrite (order_cmp_refl _ _ order_cmp_int).
  - by apply shortlex_cases.
Qed.

Lemma compareIdent_cmp (dx dy : string) :
  dx <> dy -> semver.compareIdent dx dy = Z_of_cmp (cmp_ident dx dy).
Proof.
  intros Hne. unfold semver.compareIdent, cmp_ident, ident_key, cmp_pair.
  destruct (semver.isNum dx), (semver.isNum dy); simpl; try done.
  - by apply shortlex_cases.
  - by apply str_lt_cases.
Qed.

Lemma compareIdents_cmp (xs ys : list string) :
  xs <> ys ->
  semver.compareIdents xs ys = Z_of_cmp (list_compare cmp_ident xs ys).
Proof.
  revert ys. induction xs as [|dx xs IH]; intros [|dy ys] Hne; simpl; try done.
  destruct (String.eqb_spec dx dy) as [->|Hd].
  - rewrite (order_cmp_refl _ _ order_cmp_ident). apply IH. congruence.
  - rewrite (compareIdent_cmp _ _ Hd).
    destruct (cmp_ident dx dy) eqn:E; try done.
    by apply (proj1 order_cmp_ident) in E.
Qed.

Lemma nextIdent_split (x : string) :
  let (d, rest) := semver.nextIdent x in
  x = d +:+ rest /\ (rest = "" \/ exists r, rest = String "." r) /\
  (String.length rest <= String.length x)%nat.
Proof.
  induction x as [|c x IH]; simpl.
  - split; [done|]. split; [by left|lia].
  - destruct (Ascii.eqb_spec c ".") as [->|Hc].
    + split; [done|]. split; [right; by eexists|simpl; lia].
    + destruct (semver.nextIdent x) as [d rest].
      destruct IH as (-> & Hrest & Hlen). split; [done|]. split; [done|lia].
Qed.

Lemma dotted_idents_from (fuel : nat) (x : string) :
  (String.length x <= fuel)%nat ->
  (x = "" \/ exists r, x = String "." r) ->
  dotted (semver.idents_from fuel x) = x.
Proof.
  revert x. induction fuel as [|fuel IH]; intros x Hlen Hx.
  - destruct x; [done|simpl in Hlen; lia].
  - destruct Hx as [->|[r ->]]; [done|]. simpl in Hlen |- *.
    pose proof (nextIdent_split r) as Hr.
    destruct (semver.nextIdent r) as [d rest].
    destruct Hr as (-> & Hrest & Hl). simpl.
    rewrite IH; [done|lia|done].
Qed.

Lemma idents_inj (x y : string) :
  (exists r, x = String "-" r) -> (exists r, y = String "-" r) ->
  semver.idents x = semver.idents y -> x = y.
Proof.
  assert (Hrebuild : forall r,
    String "-" r = String "-" (List.hd "" (semver.idents (String "-" r))
                     +:+ dotted (List.tl (semver.idents (String "-" r))))).
  { intros r. unfold semver.idents. simpl.
    pose proof (nextIdent_split r) as Hr.
    destruct (semver.nextIdent r) as [d rest].
    destruct Hr as (-> & Hrest & Hl). simpl.
    rewrite dotted_idents_from; [done|lia|done]. }
  intros [r ->] [r' ->] H. rewrite (Hrebuild r), (Hrebuild r'). by rewrite H.
Qed.

Lemma comparePrerelease_cmp (x y : string) :
  pre_shape x -> pre_shape y ->
  semver.comparePrerelease x y
  = Z_of_cmp (cmp_option (list_compare cmp_ident) (pre_key x) (pre_key y)).
Proof.
  intros Hx Hy. unfold semver.comparePrerelease, pre_key.
  destruct (String.eqb_spec x y) as [->|Hne].
  - destruct (String.eqb y ""); simpl; [done|].
    by rewrite (order_cmp_refl _ _ (order_cmp_list _ order_cmp_ident)).
  - destruct (String.eqb_spec x "") as [->|Hxe].
    { destruct (String.eqb_spec y ""); [congruence|done]. }
    destruct (String.eqb_spec y "") as [->|Hye]; [done|]. simpl.
    destruct Hx as [?|Hx]; [done|]. destruct Hy as [?|Hy]; [done|].
    apply compareIdents_cmp. intros H. by apply Hne, idents_inj.
Qed.

Lemma parsePrerelease_shape (v pre rest : string) :
  semver.parsePrerelease v = Some (pre, rest) -> exists t, pre = String "-" t.
Proof.
  unfold semver.parsePrerelease. intros H.
  destruct v as [|c v]; [done|].
  destruct (Ascii.eqb_spec c "-") as [->|Hc].
  - destruct (semver.scan_idents true true "" v) as [[t r]|]; [|done].
    inversion H; subst. by eexists.
  - destruct c as [[] [] [] [] [] [] [] []]; done.
Qed.

Lemma parse_tail_pre_shape (ma mi pa v : string) (p : semver.parsed) :
  semver.parse_tail ma mi pa v = Some p ->
  pre_shape (semver.prerelease p) /\
  semver.major p = ma /\ semver.minor p = mi /\ semver.patch p = pa.
Proof.
  unfold semver.parse_tail. intros H.
  destruct (semver.starts_with "-" v).
  - destruct (semver.parsePrerelease v) as [[pre r]|] eqn:E; [|done].
    apply parsePrerelease_shape in E as [t ->].
    destruct (if semver.starts_with "+" r then _ else _) as [[bld r']|]; [|done].
    destruct (String.eqb r' ""); [|done]. inversion H; subst. simpl.
    split; [right; by eexists|done].
  - destruct (if semver.starts_with "+" v then _ else _) as [[bld r']|]; [|done].
    destruct (String.eqb r' ""); [|done]. inversion H; subst. simpl.
    split; [by left|done].
Qed.

Lemma parse_pre_shape (v : string) (p : semver.parsed) :
  semver.parse v = Some p -> pre_shape (semver.prerelease p).
Proof.
  unfold semver.parse. intros H.
  destruct (negb _); [done|].
  destruct (semver.parseInt _) as [[ma v1]|]; [|done].
  destruct (String.eqb v1 ""); [inversion H; by left|].
  destruct (negb _); [done|].
  destruct (semver.parseInt _) as [[mi v2]|]; [|done].
  destruct (String.eqb v2 ""); [inversion H; by left|].
  destruct (negb _); [done|].
  destruct (semver.parseInt _) as [[pa v3]|]; [|done].
  by apply parse_tail_pre_shape in H as [H _].
Qed.

Lemma Z_of_cmp_zero (c : comparison) : (Z_of_cmp c =? 0) = true <-> c = Eq.
Proof. by destruct c. Qed.

Lemma Compare_cmp (v w : string) (pv pw : semver.parsed) :
  semver.parse v = Some pv -> semver.parse w = Some pw ->
  semver.Compare v w = Z_of_cmp (cmp_version (version_key pv) (version_key pw)).
Proof.
  intros Hv Hw. unfold semver.Compare. rewrite Hv, Hw.
  unfold cmp_version, version_key, cmp_pair. simpl.
  rewrite !compareInt_cmp.
  rewrite (comparePrerelease_cmp _ _ (parse_pre_shape _ _ Hv) (parse_pre_shape _ _ Hw)).
  destruct (cmp_int (semver.major pv) (semver.major pw)); simpl; try done.
  destruct (cmp_int (semver.minor pv) (semver.minor pw)); simpl; try done.
  by destruct (cmp_int (semver.patch pv) (semver.patch pw)).
Qed.

Lemma order_cmp_le_trans {K : Type} (c : K -> K -> comparison) (x y z : K) :
  order_cmp c ->
  Z_of_cmp (c x y) <= 0 -> Z_of_cmp (c y z) <= 0 -> Z_of_cmp (c x z) <= 0.
Proof.
  intros (E & S & T) H1 H2.
  destruct (c x y) eqn:E1; simpl in H1; try lia;
    destruct (c y z) eqn:E2; simpl in H2; try lia.
  - apply E in E1, E2. subst. by rewrite (proj2 (E z z) eq_refl).
  - apply E in E1. subst. by rewrite E2.
  - apply E in E2. subst. by rewrite E1.
  - by rewrite (T _ _ _ Lt E1 E2).
Qed.

(** The model of the library is a comparison of versions. *)
Lemma semver_compares_versions : compares_versions semver.IsValid semver.Compare.
Proof.
  split.
  - intros v w Hv Hw. unfold semver.IsValid in *.
    destruct (semver.parse v) as [pv|] eqn:Ev; [|done].
    destruct (semver.parse w) as [pw|] eqn:Ew; [|done].
    rewrite (Compare_cmp _ _ _ _ Ev Ew), (Compare_cmp _ _ _ _ Ew Ev).
    destruct order_cmp_version as (_ & S & _). rewrite (S (version_key pv)).
    by destruct (cmp_version _ _).
  - intros u v w Hu Hv Hw. unfold semver.IsValid in *.
    destruct (semver.parse u) as [pu|] eqn:Eu; [|done].
    destruct (semver.parse v) as [pv|] eqn:Ev; [|done].
    destruct (semver.parse w) as [pw|] eqn:Ew; [|done].
    rewrite (Compare_cmp _ _ _ _ Eu Ev), (Compare_cmp _ _ _ _ Ev Ew),
      (Compare_cmp _ _ _ _ Eu Ew).
    apply order_cmp_le_trans, order_cmp_version.
Qed.

Lemma C5_latest_stable_release_witness :
  exists latest,
    LatestStable semver.IsValid semver.Compare (@insertionSort Release)
      sample_releases "owner" "repo" = inl latest /\
    In latest sample_releases /\ stable latest /\
    forall r, In r sample_releases -> stable r ->
              release_less semver.IsValid semver.Compare r latest = false.
Proof.
  apply (C5_latest_stable_release semver.IsValid semver.Compare
           (@insertionSort Release) semver_compares_versions insertionSort_sorts
           sample_releases "owner" "repo").
  exists (release_of "v1.0.0" false false 1). split; [by left|]. by split.
Defined.

Example LatestStable_sample :
  LatestStable semver.IsValid semver.Compare (@insertionSort Release)
    sample_releases "owner" "repo"
  = inl (release_of "v2.0.0" false false 3).
Proof. vm_compute. reflexivity. Qed.

(** ** Tags without the leading v *)

Lemma normalizeTag_prefixed (tag : string) :
  normalizeTag ("v" +:+ tag) = "v" +:+ tag.
Proof.
  unfold normalizeTag, HasPrefix.
  change ("v" +:+ tag) with (String "v" tag). simpl. by destruct tag.
Qed.

(** C10. A tag that is not empty and does not begin with v is compared
    as v followed by the tag: the comparison of [findLatestRelease] cannot
    tell a release from the same release tagged with the v in front,
    whatever the version library; so 1.2.3 is a valid version equal to
    v1.2.3 in the order.  The empty tag stays empty and is no valid
    version. *)
Theorem C10_bare_tag_normalized :
  (forall tag,
     tag <> "" -> HasPrefix tag "v" = false ->
     normalizeTag tag = "v" +:+ tag /\
     forall IsValid Compare ri ri' rj,
       TagName ri = tag -> TagName ri' = "v" +:+ tag ->
       PublishedAt ri' = PublishedAt ri ->
       release_less IsValid Compare ri rj = release_less IsValid Compare ri' rj /\
       release_less IsValid Compare rj ri = release_less IsValid Compare rj ri') /\
  (normalizeTag "1.2.3" = "v1.2.3" /\
   semver.IsValid (normalizeTag "1.2.3") = true /\
   semver.Compare (normalizeTag "1.2.3") (normalizeTag "v1.2.3") = 0) /\
  (normalizeTag "" = "" /\ semver.IsValid (normalizeTag "") = false).
Proof.
  split; [|split; [by vm_compute|by vm_compute]].
  intros tag Hne Hv.
  assert (Hn : normalizeTag tag = "v" +:+ tag).
  { unfold normalizeTag. apply String.eqb_neq in Hne. by rewrite Hne, Hv. }
  split; [done|].
  intros IsValid Compare ri ri' rj Hi Hi' Hp. unfold release_less.
  by rewrite Hi, Hi', Hp, Hn, normalizeTag_prefixed.
Qed.

Lemma C10_bare_tag_normalized_witness :
  normalizeTag "1.5.0" = "v" +:+ "1.5.0" /\
  release_less semver.IsValid semver.Compare
    (release_of "1.5.0" false false 2) (release_of "v1.0.0" false false 1)
  = release_less semver.IsValid semver.Compare
      (release_of "v1.5.0" false false 2) (release_of "v1.0.0" false false 1).
Proof.
  destruct (proj1 C10_bare_tag_normalized "1.5.0") as [Hn Hless];
    [discriminate|reflexivity|].
  split; [exact Hn|].
  apply (Hless semver.IsValid semver.Compare
           (release_of "1.5.0" false false 2) (release_of "v1.5.0" false false 2)
           (release_of "v1.0.0" false false 1)); reflexivity.
Defined.

(** ** The download URL *)

(** C9 (as worded) fails: with a mirror configured and the probe of
    google.com answered, the download uses the asset URL itself. *)
Lemma C9_mirror_not_always_applied : ~ mirror_always_applied.
Proof.
  intros H.
  specialize (H true sample_config
                (mkRepo "https://github.com/owner/repo" "/dst") sample_asset).
  vm_compute in H. by specialize (H ltac:(discriminate)).
Qed.

(** C9 (amended). [GetDownloadURL] gives the mirror URL, a slash and the
    asset URL when a mirror is configured, and the asset URL when none is;
    the installer downloads from that URL when the probe of google.com
    fails, and from the asset URL itself when the probe succeeds. *)
Theorem C9_download_url (cfg : Config) (repo : Repo) (asset : Asset) :
  (MirrorURL cfg <> "" ->
     GetDownloadURL cfg (RepoURL repo) (URL asset)
     = MirrorURL cfg +:+ "/" +:+ URL asset /\
     downloadURL_of false cfg repo asset = MirrorURL cfg +:+ "/" +:+ URL asset) /\
  (MirrorURL cfg = "" ->
     GetDownloadURL cfg (RepoURL repo) (URL asset) = URL asset /\
     downloadURL_of false cfg repo asset = URL asset) /\
  downloadURL_of true cfg repo asset = URL asset /\
  (forall finder download extract filter_ ctx w owner repoName rel,
     ParseRepoURL (RepoURL repo) = inl (owner, repoName) ->
     finder ctx owner repoName = inl rel ->
     filter_ (Assets rel) = inl asset ->
     forall PingGoogle,
     installRepo finder download extract filter_ PingGoogle ctx cfg repo w
     = match download ctx (downloadURL_of PingGoogle cfg repo asset) with
       | inr err => (Some (Wrap "failed to download asset" err), w)
       | inl reader =>
           match extract reader (OutputDir repo) w with
           | (Some err, w') => (Some (Wrap "failed to extract archive" err), w')
           | (None, w') => (None, w')
           end
       end).
Proof.
  unfold downloadURL_of, GetDownloadURL. split; [|split; [|split]].
  - intros Hne. apply String.eqb_neq in Hne. by rewrite Hne.
  - intros ->. by rewrite String.eqb_refl.
  - done.
  - intros finder download extract filter_ ctx w owner repoName rel Hp Hf Ha ping.
    unfold installRepo. by rewrite Hp, Hf, Ha.
Qed.

Lemma C9_download_url_witness :
  downloadURL_of false sample_config
    (mkRepo "https://github.com/owner/repo" "/dst") sample_asset
  = "https://ghfast.top" +:+ "/" +:+ URL sample_asset.
Proof.
  apply (C9_download_url sample_config
           (mkRepo "https://github.com/owner/repo" "/dst") sample_asset).
  discriminate.
Defined.

(** ** Cancellation *)

(** C4 (as worded) fails: with the signal raised after the first of three
    entries, the installation returns no error and all three files are
    written. *)
Lemma C4_signal_not_checked : ~ checks_signal_between_entries sample_install "/dst".
Proof.
  intros H. destruct (H 1%nat three_files (no_calls ∅)) as [e He]; [simpl; lia|].
  apply (f_equal fst) in He. vm_compute in He. discriminate He.
Qed.

Example C4_all_entries_written :
  let out := sample_install (mkContext (Some 1%nat)) three_files (no_calls ∅) in
  fst out = None /\
  tree (snd out) !! "/dst/c.txt" = Some (NFile 420 (bytes_of "c")).
Proof. split; vm_compute; reflexivity. Qed.

(** C4 (amended). The extractor is given the byte source and the
    destination, not the signal: once the download has handed over its
    reader, what [installRepo] returns and writes is what [Extract] does
    with that reader, whatever the signal; and [Extract] on a tar.gz stream
    goes through the entries until the stream ends or an entry fails. *)
Theorem C4_extraction_ignores_signal
    (finder : Context -> string -> string -> Release + error)
    (download : Context -> string -> Reader + error)
    (filter_ : list Asset -> Asset + error) (PingGoogle : bool)
    (untar : Reader -> TarStream) (unzip : list byte -> ZipArchive)
    (cfg : Config) (repo : Repo) (w : World)
    (owner repoName : string) (rel : Release) (asset : Asset) (reader : Reader) :
  ParseRepoURL (RepoURL repo) = inl (owner, repoName) ->
  (forall ctx, finder ctx owner repoName = inl rel) ->
  filter_ (Assets rel) = inl asset ->
  (forall ctx, download ctx (downloadURL_of PingGoogle cfg repo asset) = inl reader) ->
  (forall ctx ctx',
     installRepo finder download (Extract untar unzip) filter_ PingGoogle ctx cfg repo w
     = installRepo finder download (Extract untar unzip) filter_ PingGoogle ctx' cfg repo w) /\
  (forall ctx entries tail w1,
     MkdirAll (OutputDir repo) perm_0755 w = (None, w1) ->
     Extract_dispatch reader = ToTarGz ->
     untar reader = Tar entries tail ->
     installRepo finder download (Extract untar unzip) filter_ PingGoogle ctx cfg repo w
     = match tar_loop entries tail (OutputDir repo) w1 with
       | (Some err, w') => (Some (Wrap "failed to extract archive" err), w')
       | (None, w') => (None, w')
       end).
Proof.
  intros Hp Hf Ha Hd. split.
  - intros ctx ctx'. unfold installRepo. by rewrite Hp, !Hf, Ha, !Hd.
  - intros ctx entries tail w1 Hmk Hdisp Htar.
    unfold installRepo. rewrite Hp, Hf, Ha, Hd. unfold Extract.
    by rewrite Hmk, Hdisp, Htar.
Qed.

Lemma C4_extraction_ignores_signal_witness :
  sample_install (mkContext (Some 1%nat)) three_files empty_dst
  = sample_install (mkContext None) three_files empty_dst.
Proof.
  apply (C4_extraction_ignores_signal
           (fun _ _ _ => inl sample_release) (fun _ _ => inl gzip_reader)
           first_asset false (fun _ => Tar three_files None) (fun _ => Zip [])
           sample_config (mkRepo "https://github.com/owner/repo" "/dst") empty_dst
           "owner" "repo" sample_release sample_asset gzip_reader);
    reflexivity.
Defined.

(** ** Extracting twice *)


(** A file written before the link keeps the bytes of the first entry of
    its name after the second run, not those of the last. *)
Example C6_second_run_changes_tree :
  let archive := [file_entry "a" "x"; link_entry "l" "a"; file_entry "a" "y"] in
  let first := tar_loop archive None "/dst" empty_dst in
  let second := tar_loop archive None "/dst" (snd first) in
  fst first = None /\
  tree (snd first) !! "/dst/a" = Some (NFile 420 (bytes_of "y")) /\
  tree (snd second) !! "/dst/a" = Some (NFile 420 (bytes_of "x")).
Proof. repeat split; vm_compute; reflexivity. Qed.

























(** A file that its owner may not write extracts once, and stops the
    second run. *)
Example read_only_file_stops_second_run :
  let archive := [(mkHeader "ro.txt" TypeReg 292 "", whole "x")] in
  let first := tar_loop archive None "/dst" empty_dst in
  fst first = None /\
  fst (tar_loop archive None "/dst" (snd first))
  = Some (Wrap "failed to extract tar entry ro.txt"
            (Wrap "failed to create file /dst/ro.txt"
               (PathError "open" "/dst/ro.txt" "permission denied"))).
Proof. split; vm_compute; reflexivity. Qed.

(** The zip archive of the tests extracts to the files with their
    contents. *)
Example zip_extracted :
  let out := zip_loop [zip_file "test.txt" "Hello, World!"; zip_dir "subdir/";
                       zip_file "subdir/nested.txt" "Nested file content"]
               "/dst" empty_dst in
  fst out = None /\
  tree (snd out) !! "/dst/test.txt" = Some (NFile 420 (bytes_of "Hello, World!")) /\
  tree (snd out) !! "/dst/subdir" = Some (NDir 493) /\
  tree (snd out) !! "/dst/subdir/nested.txt"
  = Some (NFile 420 (bytes_of "Nested file content")).
Proof. repeat split; vm_compute; reflexivity. Qed.

(** * Further properties *)

(** ** The configuration *)

Lemma validate_from_ok (i : nat) (repos : list Repo) :
  validate_from i repos = None <-> Forall valid_repo repos.
Proof.
  revert i. induction repos as [|repo rest IH]; intros i; simpl.
  - split; [constructor|done].
  - unfold valid_repo at 1.
    destruct (String.eqb_spec (RepoURL repo) "") as [E|E].
    { split; [done|]. intros H. inversion H as [|? ? [H1 _] _]. done. }
    destruct (String.eqb_spec (OutputDir repo) "") as [E'|E'].
    { split; [done|]. intros H. inversion H as [|? ? (_ & H1 & _) _]. done. }
    destruct (HasPrefix (RepoURL repo) "https://github.com/") eqn:Hp; simpl.
    + rewrite IH. split.
      * intros H. constructor; [by repeat split|done].
      * intros H. by inversion H.
    + split; [done|]. intros H. inversion H as [|? ? (_ & _ & H1) _].
      unfold valid_repo in *. congruence.
Qed.

Lemma validate_from_complaint (i : nat) (repos : list Repo) (e : error) :
  validate_from i repos = Some e ->
  exists k repo,
    nth_error repos k = Some repo /\ Forall valid_repo (firstn k repos) /\
    ~ valid_repo repo /\ e = complaint (i + k) repo.
Proof.
  revert i. induction repos as [|repo rest IH]; intros i; simpl; [done|].
  unfold complaint.
  destruct (String.eqb_spec (RepoURL repo) "") as [E|E].
  { intros [= <-]. exists 0%nat, repo. rewrite Nat.add_0_r.
    destruct (String.eqb_spec (RepoURL repo) ""); [|done].
    repeat split; [constructor|]. by intros [H _]. }
  destruct (String.eqb_spec (OutputDir repo) "") as [E'|E'].
  { intros [= <-]. exists 0%nat, repo. rewrite Nat.add_0_r.
    destruct (String.eqb_spec (RepoURL repo) ""); [done|].
    destruct (String.eqb_spec (OutputDir repo) ""); [|done].
    repeat split; [constructor|]. by intros (_ & H & _). }
  destruct (HasPrefix (RepoURL repo) "https://github.com/") eqn:Hp; simpl.
  - intros H. destruct (IH _ H) as (k & r & Hk & Hfirst & Hbad & ->).
    exists (S k), r. simpl. repeat split; try done.
    + constructor; [by repeat split|done].
    + unfold complaint. by rewrite Nat.add_succ_r.
  - intros [= <-]. exists 0%nat, repo. rewrite Nat.add_0_r.
    destruct (String.eqb_spec (RepoURL repo) ""); [done|].
    destruct (String.eqb_spec (OutputDir repo) ""); [done|].
    repeat split; [constructor|]. intros (_ & _ & H). congruence.
Qed.

(** X1. [validate] accepts a configuration exactly when it lists at least
    one repository and every repository has a URL beginning with
    https://github.com/ and an output directory; otherwise the error is the
    complaint about the first repository that fails, with its index. *)
Theorem validate_accepts_valid_repos (c : Config) :
  (validate c = None <-> Github c <> [] /\ Forall valid_repo (Github c)) /\
  (Github c = [] -> validate c = Some (Msg "no GitHub repositories configured")) /\
  (forall e, Github c <> [] -> validate c = Some e ->
     exists k repo,
       nth_error (Github c) k = Some repo /\
       Forall valid_repo (firstn k (Github c)) /\
       ~ valid_repo repo /\ e = complaint k repo).
Proof.
  unfold validate. destruct (Github c) as [|repo rest] eqn:E.
  - split; [|split]; try done. split; [done|]. by intros [H _].
  - cbn [length Nat.eqb]. split; [|split]; try done.
    + rewrite validate_from_ok. split; [by intros H|by intros [_ H]].
    + intros e _ H. by apply validate_from_complaint in H.
Qed.

Lemma validate_accepts_valid_repos_witness :
  exists k repo,
    nth_error [mkRepo "https://github.com/a/b" "/x"; mkRepo "https://github.com/a" ""] k
    = Some repo /\
    Forall valid_repo
      (firstn k [mkRepo "https://github.com/a/b" "/x"; mkRepo "https://github.com/a" ""]) /\
    ~ valid_repo repo /\
    Msg "repository at index 1: output_dir is required" = complaint k repo.
Proof.
  apply (proj2 (proj2 (validate_accepts_valid_repos
           (mkConfig [mkRepo "https://github.com/a/b" "/x";
                      mkRepo "https://github.com/a" ""] "")))).
  - discriminate.
  - vm_compute. reflexivity.
Defined.

Lemma HasPrefix_append (pre s : string) : HasPrefix (pre +:+ s) pre = true.
Proof.
  unfold HasPrefix. induction pre as [|a pre IH]; [by destruct s|].
  rewrite append_cons. simpl. by destruct (ascii_dec a a).
Qed.

Lemma TrimPrefix_from_append (pre s : string) :
  TrimPrefix_from (pre +:+ s) pre = Some s.
Proof.
  induction pre as [|a pre IH]; [by destruct s|].
  rewrite append_cons. simpl. by rewrite Ascii.eqb_refl.
Qed.

Lemma TrimPrefix_append (pre s : string) : TrimPrefix (pre +:+ s) pre = s.
Proof. unfold TrimPrefix. by rewrite TrimPrefix_from_append. Qed.

Lemma append_nil_r (a : string) : a +:+ "" = a.
Proof. induction a as [|x a IH]; [done|]. by rewrite append_cons, IH. Qed.

Lemma join_split_sep (s : string) : join_sep (split_sep s) = s.
Proof.
  induction s as [|a s IH]; [done|]. simpl.
  pose proof (split_sep_not_nil s) as Hne.
  destruct (Ascii.eqb_spec a Separator) as [->|Ha].
  - rewrite join_sep_cons by done. by rewrite IH.
  - destruct (split_sep s) as [|seg segs]; [done|].
    destruct segs as [|seg' segs].
    + simpl in *. by rewrite IH.
    + rewrite join_sep_cons by done. rewrite join_sep_cons in IH by done.
      rewrite append_cons. by rewrite IH.
Qed.

(** X2. [ParseRepoURL] answers with an owner and a repository exactly for
    the URLs https://github.com/OWNER/REPO, alone or followed by a slash
    and anything, where neither OWNER nor REPO holds a slash (either may be
    empty); every other URL is an error. *)
Theorem ParseRepoURL_owner_and_repo (url owner repo : string) :
  ParseRepoURL url = inl (owner, repo) <->
  no_sep owner /\ no_sep repo /\
  exists rest,
    url = "https://github.com/" +:+ owner +:+ "/" +:+ repo +:+ rest /\
    (rest = "" \/ HasPrefix rest "/" = true).
Proof.
  unfold ParseRepoURL. split.
  - destruct (HasPrefix url "https://github.com/") eqn:Hp; [|done]. simpl.
    apply HasPrefix_app in Hp as [path ->]. rewrite TrimPrefix_append.
    pose proof (split_sep_no_sep path) as Hall.
    pose proof (join_split_sep path) as Hjoin.
    destruct (split_sep path) as [|o [|r more]]; [done|done|].
    intros [= -> ->].
    apply Forall_cons in Hall as [Ho Hrest].
    apply Forall_cons in Hrest as [Hr _].
    repeat split; [done|done|].
    rewrite join_sep_cons in Hjoin by done.
    destruct more as [|m more].
    + exists "". split; [|by left]. simpl in Hjoin.
      rewrite <- Hjoin at 1. by rewrite append_nil_r.
    + rewrite join_sep_cons in Hjoin by done.
      exists (String Separator (join_sep (m :: more))).
      split; [|right; apply (HasPrefix_append "/")].
      by rewrite <- Hjoin at 1.
  - intros (Ho & Hr & rest & -> & Hrest).
    rewrite HasPrefix_append. simpl. rewrite TrimPrefix_append.
    change ("/" +:+ repo +:+ rest) with (String Separator (repo +:+ rest)).
    rewrite split_sep_app, Ho.
    destruct Hrest as [->|Hrest].
    + by rewrite append_nil_r, Hr.
    + apply HasPrefix_app in Hrest as [more ->].
      change ("/" +:+ more) with (String Separator more).
      by rewrite split_sep_app, Hr.
Qed.

Lemma TrimSuffix_sep_append (t : string) : TrimSuffix (t +:+ "/") "/" = t.
Proof.
  induction t as [|a t IH]; [done|].
  rewrite append_cons. cbn [TrimSuffix].
  destruct (String.eqb_spec (String a (t +:+ "/")) "/") as [E|E].
  - injection E as _ E. by destruct t.
  - by rewrite IH.
Qed.

Lemma TrimSuffix_sep_none (s : string) :
  ~ ends_with_sep s -> TrimSuffix s "/" = s.
Proof.
  induction s as [|a s IH]; intros H; [done|]. cbn [TrimSuffix].
  destruct (String.eqb_spec (String a s) "/") as [E|E].
  - destruct H. exists "". by rewrite E.
  - rewrite IH; [done|]. intros [t ->]. apply H. by exists (String a t).
Qed.

(** X3. After [normalize] one trailing slash of the mirror makes no
    difference to [GetDownloadURL]: the asset URL is appended to the mirror
    after exactly one slash.  A mirror that is only a slash becomes no
    mirror at all. *)
Theorem normalize_mirror_trailing_slash
    (repos : list Repo) (mirror repoURL assetURL : string) :
  mirror <> "" -> ~ ends_with_sep mirror ->
  GetDownloadURL (normalize (mkConfig repos (mirror +:+ "/"))) repoURL assetURL
  = mirror +:+ "/" +:+ assetURL /\
  GetDownloadURL (normalize (mkConfig repos mirror)) repoURL assetURL
  = mirror +:+ "/" +:+ assetURL /\
  GetDownloadURL (normalize (mkConfig repos "/")) repoURL assetURL = assetURL.
Proof.
  intros Hne Hend. unfold GetDownloadURL, normalize. cbn [MirrorURL].
  split; [|split].
  - destruct (String.eqb_spec (mirror +:+ "/") "") as [E|_].
    { by destruct mirror. }
    cbn [negb]. rewrite TrimSuffix_sep_append.
    by destruct (String.eqb_spec mirror "").
  - destruct (String.eqb_spec mirror ""); [done|]. cbn [negb].
    rewrite TrimSuffix_sep_none by done.
    by destruct (String.eqb_spec mirror "").
  - done.
Qed.

Lemma normalize_mirror_trailing_slash_witness :
  GetDownloadURL (normalize (mkConfig [] "https://ghproxy.com/")) "r" "https://x/y"
  = "https://ghproxy.com/https://x/y" /\
  GetDownloadURL (normalize (mkConfig [] "https://ghproxy.com")) "r" "https://x/y"
  = "https://ghproxy.com/https://x/y" /\
  GetDownloadURL (normalize (mkConfig [] "/")) "r" "https://x/y" = "https://x/y".
Proof.
  apply (normalize_mirror_trailing_slash [] "https://ghproxy.com" "r" "https://x/y").
  - discriminate.
  - intros [t E]. revert E.
    do 19 (destruct t as [|? t]; [discriminate|]; intros [= _ E]; revert E).
    destruct t; discriminate.
Defined.

Lemma TrimSuffix_keeps_prefix (pre rest : string) :
  HasPrefix (TrimSuffix (pre +:+ "/" +:+ rest) "/") pre = true.
Proof.
  unfold HasPrefix. induction pre as [|a pre IH].
  - by destruct (TrimSuffix _ _).
  - rewrite append_cons. cbn [TrimSuffix].
    destruct (String.eqb_spec (String a (pre +:+ "/" +:+ rest)) "/") as [E|E].
    + injection E as _ E. by destruct pre.
    + simpl. by destruct (ascii_dec a a).
Qed.

(** X4. A configuration that [Load] returns lists at least one repository,
    and each of them has a cleaned, non-empty output directory and a URL
    that begins with https://github.com (the slash after it may have been
    trimmed). *)
Theorem Load_invariants
    (ReadFile : string -> list byte + error) (Unmarshal : list byte -> Config + error)
    (Quote : string -> string) (cfgPath : string) (cfg : Config) :
  Load ReadFile Unmarshal Quote cfgPath = inl cfg ->
  Github cfg <> [] /\
  Forall (fun repo =>
            Clean (OutputDir repo) = OutputDir repo /\ OutputDir repo <> "" /\
            HasPrefix (RepoURL repo) "https://github.com" = true)
         (Github cfg).
Proof.
  unfold Load. destruct (ReadFile cfgPath) as [data|]; [|done].
  destruct (Unmarshal data) as [raw|]; [|done].
  destruct (validate raw) eqn:Hv; [done|]. intros [= <-].
  unfold validate in Hv. destruct (Github raw) as [|r0 rs] eqn:E; [done|].
  cbn [length Nat.eqb] in Hv. apply validate_from_ok in Hv as Hall.
  unfold normalize. rewrite E. cbn [Github]. split.
  - done.
  - apply Forall_map. eapply Forall_impl; [exact Hall|].
    intros repo (_ & _ & Hp). cbn [OutputDir RepoURL].
    split; [apply Clean_idempotent|]. split; [apply Clean_not_empty|].
    apply HasPrefix_app in Hp as [rest ->].
    change ("https://github.com/" +:+ rest)
      with ("https://github.com" +:+ "/" +:+ rest).
    apply TrimSuffix_keeps_prefix.
Qed.

Lemma Load_invariants_witness :
  Github (mkConfig [mkRepo "https://github.com/a/b" "/y"] "") <> [] /\
  Forall (fun repo =>
            Clean (OutputDir repo) = OutputDir repo /\ OutputDir repo <> "" /\
            HasPrefix (RepoURL repo) "https://github.com" = true)
         (Github (mkConfig [mkRepo "https://github.com/a/b" "/y"] "")).
Proof.
  apply (Load_invariants
           (fun _ => inl [])
           (fun _ => inl (mkConfig [mkRepo "https://github.com/a/b/" "/x/../y/"] ""))
           (fun s => s) "ghinstall.yaml").
  vm_compute. reflexivity.
Defined.

(** ** Choosing an asset *)

Lemma Contains_unfold (s sub : string) :
  Contains s sub
  = String.prefix sub s
    || match s with EmptyString => false | String _ rest => Contains rest sub end.
Proof. by destruct s. Qed.

Lemma Contains_spec (s sub : string) :
  Contains s sub = true <-> exists l r, s = l +:+ sub +:+ r.
Proof.
  split.
  - induction s as [|c s IH]; rewrite Contains_unfold; intros H;
      apply orb_true_iff in H as [H|H].
    + apply (HasPrefix_app "" sub) in H as [r ->]. by exists "", r.
    + done.
    + apply (HasPrefix_app _ sub) in H as [r ->]. by exists "", r.
    + destruct (IH H) as (l & r & ->). by exists (String c l), r.
  - intros (l & r & ->). induction l as [|c l IH]; rewrite Contains_unfold.
    + rewrite append_nil. apply orb_true_iff. left. apply HasPrefix_append.
    + rewrite append_cons. apply orb_true_iff. by right.
Qed.

Lemma Contains_trans (s a b : string) :
  Contains s a = true -> Contains a b = true -> Contains s b = true.
Proof.
  rewrite !Contains_spec. intros (l & r & ->) (l' & r' & ->).
  exists (l +:+ l'), (r' +:+ r). by rewrite !append_assoc.
Qed.

Lemma first_with_head {A : Type} (P : A -> Prop) (a : A) (l : list A) :
  P a -> first_with P (a :: l) a.
Proof. intros H. exists [], l. by repeat split. Qed.

Lemma first_with_tail {A : Type} (P : A -> Prop) (b a : A) (l : list A) :
  ~ P b -> first_with P (b :: l) a <-> first_with P l a.
Proof.
  intros Hb. split.
  - intros (before & after & E & Ha & Hbefore).
    destruct before as [|x before]; simpl in E.
    + injection E as -> _. done.
    + injection E as -> ->. apply Forall_cons in Hbefore as [_ Hbefore].
      by exists before, after.
  - intros (before & after & -> & Ha & Hbefore).
    exists (b :: before), after. repeat split; [done|]. by constructor.
Qed.

Lemma first_with_nil {A : Type} (P : A -> Prop) (a : A) : ~ first_with P [] a.
Proof. intros (before & after & E & _). by destruct before. Qed.

Lemma first_with_unique {A : Type} (P : A -> Prop) (l : list A) (a b : A) :
  first_with P l a -> first_with P l b -> a = b.
Proof.
  induction l as [|x l IH]; intros Ha Hb.
  - by apply first_with_nil in Ha.
  - destruct Ha as (before & after & E & Ha & Hbefore).
    destruct Hb as (before' & after' & E' & Hb & Hbefore').
    destruct before as [|y before], before' as [|y' before'];
      simpl in E, E'.
    + congruence.
    + injection E as -> _. injection E' as -> _.
      by apply Forall_cons in Hbefore' as [Hy _].
    + injection E as -> _. injection E' as -> _.
      by apply Forall_cons in Hbefore as [Hy _].
    + injection E as -> ->. injection E' as _ E'.
      apply Forall_cons in Hbefore as [_ Hbefore].
      apply Forall_cons in Hbefore' as [_ Hbefore'].
      apply IH; [by exists before, after|by exists before', after'].
Qed.

Section FilterProperties.

Variable ToLower : string -> string.
Variable GOOS GOARCH : string.

Lemma any_pattern_spec (name : string) (patterns : list string) :
  any_pattern ToLower name patterns = true <->
  exists p, In p patterns /\ Contains name (ToLower p) = true.
Proof.
  induction patterns as [|p rest IH]; simpl.
  - split; [done|]. by intros (p & [] & _).
  - destruct (Contains name (ToLower p)) eqn:E.
    + split; [|done]. intros _. exists p. split; [by left|done].
    + rewrite IH. split.
      * intros (q & Hq & Hc). exists q. split; [by right|done].
      * intros (q & [<-|Hq] & Hc); [congruence|]. by exists q.
Qed.

Lemma any_alias_spec (name : string) (aliases : list string) :
  any_alias name aliases = true <->
  exists p, In p aliases /\ Contains name p = true.
Proof.
  induction aliases as [|p rest IH]; simpl.
  - split; [done|]. by intros (p & [] & _).
  - destruct (Contains name p) eqn:E.
    + split; [|done]. intros _. exists p. split; [by left|done].
    + rewrite IH. split.
      * intros (q & Hq & Hc). exists q. split; [by right|done].
      * intros (q & [<-|Hq] & Hc); [congruence|]. by exists q.
Qed.

Lemma first_by_patterns_Some (patterns : list string) (assets : list Asset)
    (a : Asset) :
  first_by_patterns ToLower patterns assets = Some a <->
  first_with (name_matches ToLower patterns) assets a.
Proof.
  induction assets as [|b rest IH]; simpl.
  - split; [done|]. intros H. by apply first_with_nil in H.
  - destruct (any_pattern ToLower (ToLower (AssetName b)) patterns) eqn:E.
    + apply any_pattern_spec in E. split.
      * intros [= <-]. by apply first_with_head.
      * intros H. f_equal. eapply first_with_unique; [|exact H].
        by apply first_with_head.
    + assert (Hb : ~ name_matches ToLower patterns b).
      { intros H. apply any_pattern_spec in H. congruence. }
      by rewrite IH, first_with_tail.
Qed.

Lemma first_by_patterns_None (patterns : list string) (assets : list Asset) :
  first_by_patterns ToLower patterns assets = None <->
  Forall (fun b => ~ name_matches ToLower patterns b) assets.
Proof.
  induction assets as [|b rest IH]; simpl.
  - split; [constructor|done].
  - destruct (any_pattern ToLower (ToLower (AssetName b)) patterns) eqn:E.
    + apply any_pattern_spec in E. split; [done|].
      intros H. by apply Forall_cons in H as [H _].
    + rewrite IH. split.
      * intros H. constructor; [|done].
        intros Hb. apply any_pattern_spec in Hb. congruence.
      * intros H. by apply Forall_cons in H as [_ H].
Qed.

Lemma first_by_aliases_Some (aliases : list string) (assets : list Asset)
    (a : Asset) :
  first_by_aliases ToLower aliases assets = Some a <->
  first_with (name_has_alias ToLower aliases) assets a.
Proof.
  induction assets as [|b rest IH]; simpl.
  - split; [done|]. intros H. by apply first_with_nil in H.
  - destruct (any_alias (ToLower (AssetName b)) aliases) eqn:E.
    + apply any_alias_spec in E. split.
      * intros [= <-]. by apply first_with_head.
      * intros H. f_equal. eapply first_with_unique; [|exact H].
        by apply first_with_head.
    + assert (Hb : ~ name_has_alias ToLower aliases b).
      { intros H. apply any_alias_spec in H. congruence. }
      by rewrite IH, first_with_tail.
Qed.

Lemma first_by_aliases_None (aliases : list string) (assets : list Asset) :
  first_by_aliases ToLower aliases assets = None <->
  Forall (fun b => ~ name_has_alias ToLower aliases b) assets.
Proof.
  induction assets as [|b rest IH]; simpl.
  - split; [constructor|done].
  - destruct (any_alias (ToLower (AssetName b)) aliases) eqn:E.
    + apply any_alias_spec in E. split; [done|].
      intros H. by apply Forall_cons in H as [H _].
    + rewrite IH. split.
      * intros H. constructor; [|done].
        intros Hb. apply any_alias_spec in Hb. congruence.
      * intros H. by apply Forall_cons in H as [_ H].
Qed.

Lemma first_with_In {A : Type} (P : A -> Prop) (l : list A) (a : A) :
  first_with P l a -> In a l.
Proof. intros (before & after & -> & _). apply in_elt. Qed.

(** X5. [ByNamePattern] with at least one pattern answers with the first
    asset, in the order of the release, whose lowered name contains one of
    the lowered patterns; it fails exactly when no asset does, and the
    error lists the patterns. *)
Theorem ByNamePattern_first_match (patterns : list string) (assets : list Asset) :
  patterns <> [] ->
  (forall a, ByNamePattern ToLower patterns assets = inl a <->
             first_with (name_matches ToLower patterns) assets a) /\
  (forall e, ByNamePattern ToLower patterns assets = inr e <->
             e = Msg ("no asset matching patterns " +:+ Sprint_v patterns) /\
             Forall (fun b => ~ name_matches ToLower patterns b) assets).
Proof.
  intros Hne. unfold ByNamePattern.
  destruct patterns as [|p ps]; [done|]. cbn [length Nat.eqb].
  split.
  - intros a. rewrite <- first_by_patterns_Some.
    destruct (first_by_patterns _ _ _); split; congruence.
  - intros e. rewrite <- first_by_patterns_None.
    destruct (first_by_patterns _ _ _); split.
    + done.
    + by intros [_ ?].
    + by intros [= <-].
    + by intros [-> _].
Qed.

(** X6. [Release.FindAsset] without patterns and [DefaultFilter] choose
    alike: the first asset whose lowered name contains .tar.gz, .zip or
    .tgz.  With patterns [FindAsset] chooses as [ByNamePattern] does; but
    without any, [ByNamePattern] is an error where [FindAsset] falls back
    on the three defaults. *)
Theorem FindAsset_agrees_with_filters (r : Release) :
  (forall a, FindAsset ToLower r [] = Some a <->
             DefaultFilter ToLower (Assets r) = inl a) /\
  (forall a, DefaultFilter ToLower (Assets r) = inl a <->
             first_with (name_matches ToLower [".tar.gz"; ".zip"; ".tgz"])
                        (Assets r) a) /\
  (forall p ps a, FindAsset ToLower r (p :: ps) = Some a <->
                  ByNamePattern ToLower (p :: ps) (Assets r) = inl a) /\
  ByNamePattern ToLower [] (Assets r) = inr (Msg "no patterns specified").
Proof.
  unfold FindAsset, DefaultFilter, ByNamePattern. cbn [length Nat.eqb].
  split; [|split; [|split]]; try done.
  - intros a. destruct (first_by_patterns _ _ _); split; congruence.
  - intros a. rewrite <- first_by_patterns_Some. unfold default_patterns.
    destruct (first_by_patterns _ _ _); split; congruence.
  - intros p ps a. destruct (first_by_patterns _ _ _); split; congruence.
Qed.

(** X7. [ByOS] and [ByArch] answer with the first asset whose lowered name
    contains one of the aliases of the platform asked for, and fail
    exactly when no asset does, naming the platform as it was given. *)
Theorem ByOS_ByArch_first_match (os arch : string) (assets : list Asset) :
  (forall a, ByOS ToLower GOOS os assets = inl a <->
             first_with (name_has_alias ToLower (os_aliases_of ToLower GOOS os))
                        assets a) /\
  (forall e, ByOS ToLower GOOS os assets = inr e <->
             e = Msg ("no asset found for OS: " +:+ os) /\
             Forall (fun b => ~ name_has_alias ToLower
                                  (os_aliases_of ToLower GOOS os) b) assets) /\
  (forall a, ByArch ToLower GOARCH arch assets = inl a <->
             first_with (name_has_alias ToLower (arch_aliases_of ToLower GOARCH arch))
                        assets a) /\
  (forall e, ByArch ToLower GOARCH arch assets = inr e <->
             e = Msg ("no asset found for architecture: " +:+ arch) /\
             Forall (fun b => ~ name_has_alias ToLower
                                  (arch_aliases_of ToLower GOARCH arch) b) assets).
Proof.
  unfold ByOS, ByArch.
  split; [|split; [|split]].
  - intros a. rewrite <- first_by_aliases_Some.
    destruct (first_by_aliases _ _ _); split; congruence.
  - intros e. rewrite <- first_by_aliases_None.
    destruct (first_by_aliases _ _ _); split;
      [done|by intros [_ ?]|by intros [= <-]|by intros [-> _]].
  - intros a. rewrite <- first_by_aliases_Some.
    destruct (first_by_aliases _ _ _); split; congruence.
  - intros e. rewrite <- first_by_aliases_None.
    destruct (first_by_aliases _ _ _); split;
      [done|by intros [_ ?]|by intros [= <-]|by intros [-> _]].
Qed.

End FilterProperties.

Lemma ByNamePattern_first_match_witness :
  (forall a, ByNamePattern ToLower_ascii ["LINUX"; ".zip"] sample_assets = inl a <->
             first_with (name_matches ToLower_ascii ["LINUX"; ".zip"]) sample_assets a) /\
  (forall e, ByNamePattern ToLower_ascii ["LINUX"; ".zip"] sample_assets = inr e <->
             e = Msg ("no asset matching patterns " +:+ Sprint_v ["LINUX"; ".zip"]) /\
             Forall (fun b => ~ name_matches ToLower_ascii ["LINUX"; ".zip"] b)
                    sample_assets).
Proof.
  apply (ByNamePattern_first_match ToLower_ascii ["LINUX"; ".zip"] sample_assets).
  discriminate.
Defined.

Lemma first_by_aliases_head (ToLower : string -> string) (aliases : list string)
    (a : Asset) (rest : list Asset) (alias : string) :
  In alias aliases -> Contains (ToLower (AssetName a)) alias = true ->
  first_by_aliases ToLower aliases (a :: rest) = Some a.
Proof.
  intros Hin Hc. simpl.
  assert (H : any_alias (ToLower (AssetName a)) aliases = true).
  { apply any_alias_spec. by exists alias. }
  by rewrite H.
Qed.

(** X8. The aliases overlap: a name that contains darwin contains win, and
    a name that contains arm64 contains arm.  So when the first asset of a
    release is the build for darwin on arm64, that asset is what
    [ByOS] gives for windows and what [ByArch] gives for arm, whatever
    follows in the release. *)
Theorem alias_overlap_takes_first_asset
    (ToLower : string -> string) (GOOS GOARCH : string)
    (a : Asset) (rest : list Asset) :
  ToLower "windows" = "windows" -> ToLower "arm" = "arm" ->
  Contains (ToLower (AssetName a)) "darwin" = true ->
  Contains (ToLower (AssetName a)) "arm64" = true ->
  ByOS ToLower GOOS "windows" (a :: rest) = inl a /\
  ByArch ToLower GOARCH "arm" (a :: rest) = inl a.
Proof.
  intros Hw Ha Hos Harch. unfold ByOS, ByArch, os_aliases_of, arch_aliases_of.
  rewrite Hw, Ha.
  change (osAliases !! "windows") with (Some ["windows"; "win"]).
  change (archAliases !! "arm") with (Some ["arm"; "armv7"]).
  cbn [String.eqb Ascii.eqb Bool.eqb]. split.
  - rewrite (first_by_aliases_head _ _ _ _ "win"); [done|by right; left|].
    eapply Contains_trans; [exact Hos|]. by vm_compute.
  - rewrite (first_by_aliases_head _ _ _ _ "arm"); [done|by left|].
    eapply Contains_trans; [exact Harch|]. by vm_compute.
Qed.

Lemma alias_overlap_takes_first_asset_witness :
  ByOS ToLower_ascii "linux" "windows"
    [asset_named "app-Darwin-arm64.tar.gz" 1; asset_named "app-windows-armv7.zip" 1]
  = inl (asset_named "app-Darwin-arm64.tar.gz" 1) /\
  ByArch ToLower_ascii "amd64" "arm"
    [asset_named "app-Darwin-arm64.tar.gz" 1; asset_named "app-windows-armv7.zip" 1]
  = inl (asset_named "app-Darwin-arm64.tar.gz" 1).
Proof.
  apply (alias_overlap_takes_first_asset ToLower_ascii "linux" "amd64"
           (asset_named "app-Darwin-arm64.tar.gz" 1)
           [asset_named "app-windows-armv7.zip" 1]); by vm_compute.
Defined.

Lemma first_by_aliases_In (ToLower : string -> string) (aliases : list string)
    (assets : list Asset) (a : Asset) :
  first_by_aliases ToLower aliases assets = Some a -> In a assets.
Proof. intros H. apply first_by_aliases_Some in H. by eapply first_with_In. Qed.

Lemma ByOS_selecting (ToLower : string -> string) (GOOS os : string) :
  selecting (ByOS ToLower GOOS os).
Proof.
  intros assets a. unfold ByOS.
  destruct (first_by_aliases _ _ _) eqn:E; [|done]. intros [= <-].
  by eapply first_by_aliases_In.
Qed.

Lemma ByArch_selecting (ToLower : string -> string) (GOARCH arch : string) :
  selecting (ByArch ToLower GOARCH arch).
Proof.
  intros assets a. unfold ByArch.
  destruct (first_by_aliases _ _ _) eqn:E; [|done]. intros [= <-].
  by eapply first_by_aliases_In.
Qed.

Lemma Combined_from_choice (rest : list AssetFilter) :
  Forall selecting rest ->
  forall (f : AssetFilter) (i : nat) (assets : list Asset) (a : Asset),
    selecting f ->
    Combined_from i (f :: rest) assets = inl a <->
    f assets = inl a /\ Forall (fun g => g [a] = inl a) rest.
Proof.
  induction rest as [|g rest IH]; intros Hrest f i assets a Hf.
  - cbn [Combined_from]. destruct assets as [|x xs].
    + cbn [length Nat.eqb]. split; [done|]. intros [H _].
      by apply Hf in H.
    + cbn [length Nat.eqb]. split; [by intros H|by intros [H _]].
  - apply Forall_cons in Hrest as [Hg Hrest].
    cbn [Combined_from]. fold Combined_from. destruct assets as [|x xs].
    + cbn [length Nat.eqb]. split; [done|]. intros [H _]. by apply Hf in H.
    + cbn [length Nat.eqb]. destruct (f (x :: xs)) as [s|e] eqn:E.
      * change (Combined_from (S i) (g :: rest) [s] = inl a <->
                (inl s : Asset + error) = inl a /\
                Forall (fun g : AssetFilter => g [a] = inl a) (g :: rest)).
        rewrite (IH Hrest g (S i) [s] a Hg). split.
        -- intros [Hgs Hall]. pose proof (Hg _ _ Hgs) as [->|[]].
           split; [done|]. by constructor.
        -- intros [[= ->] Hall]. by apply Forall_cons in Hall.
      * split; [done|]. by intros [? _].
Qed.

(** X9. [Combined] does not narrow the candidates down: with filters that
    answer with one of the assets they are given, it succeeds exactly when
    the first filter chooses an asset and every later filter, given that
    one asset alone, chooses it again; the asset returned is the first
    filter's choice. *)
Theorem Combined_keeps_first_choice
    (f : AssetFilter) (rest : list AssetFilter) (assets : list Asset) (a : Asset) :
  selecting f -> Forall selecting rest ->
  Combined (f :: rest) assets = inl a <->
  f assets = inl a /\ Forall (fun g => g [a] = inl a) rest.
Proof.
  intros Hf Hrest. unfold Combined. cbn [length Nat.eqb].
  by apply Combined_from_choice.
Qed.

Lemma Combined_keeps_first_choice_witness :
  Combined [ByOS ToLower_ascii "linux" "darwin"; ByArch ToLower_ascii "amd64" "amd64"]
    sample_assets
  = inl (asset_named "app-Darwin-amd64.tar.gz" 30) <->
  ByOS ToLower_ascii "linux" "darwin" sample_assets
  = inl (asset_named "app-Darwin-amd64.tar.gz" 30) /\
  Forall (fun g => g [asset_named "app-Darwin-amd64.tar.gz" 30]
                   = inl (asset_named "app-Darwin-amd64.tar.gz" 30))
         [ByArch ToLower_ascii "amd64" "amd64"].
Proof.
  apply (Combined_keeps_first_choice
           (ByOS ToLower_ascii "linux" "darwin")
           [ByArch ToLower_ascii "amd64" "amd64"] sample_assets).
  - apply ByOS_selecting.
  - constructor; [apply ByArch_selecting|constructor].
Defined.



(** X11. [BySize] fails on an empty list only.  Otherwise, with a sort
    that keeps the contract of [sort.Slice], it answers with one of the
    assets, and none of them is larger (for the largest) or smaller (for
    the smallest) than the answer. *)
Theorem BySize_extremal
    (sort_Slice : (Asset -> Asset -> bool) -> list Asset -> list Asset)
    (largest : bool) (assets : list Asset) :
  sorts sort_Slice ->
  (assets = [] ->
   BySize sort_Slice largest assets = inr (Msg "no assets available")) /\
  (assets <> [] ->
   exists a,
     BySize sort_Slice largest assets = inl a /\ In a assets /\
     forall b, In b assets ->
       if largest then Size b <= Size a else Size a <= Size b).
Proof.
  intros Hsort. split; [by intros ->|]. intros Hne. unfold BySize.
  destruct assets as [|x xs] eqn:E; [done|]. cbn [length Nat.eqb]. rewrite <- E.
  set (less := fun ai aj : Asset =>
                 if largest then Size aj <? Size ai else Size ai <? Size aj).
  destruct (Hsort less assets) as [Hperm Hsorted].
  { intros p q. unfold less. destruct largest; rewrite Z.ltb_lt, Z.ltb_ge; lia. }
  { intros p q r. unfold less. destruct largest; rewrite !Z.ltb_ge; lia. }
  destruct (sort_Slice less assets) as [|first others].
  { apply Permutation_nil in Hperm. congruence. }
  exists first. split; [done|]. split.
  { eapply Permutation_in; [exact Hperm|by left]. }
  intros b Hb. apply Permutation_sym in Hperm.
  apply (Permutation_in _ Hperm) in Hb.
  apply StronglySorted_inv in Hsorted as [_ Hfirst].
  destruct Hb as [<-|Hb]; [destruct largest; lia|].
  rewrite List.Forall_forall in Hfirst. specialize (Hfirst b Hb).
  unfold less in Hfirst. destruct largest; apply Z.ltb_ge in Hfirst; lia.
Qed.

Lemma BySize_extremal_witness :
  (sample_assets = [] ->
   BySize insertionSort true sample_assets = inr (Msg "no assets available")) /\
  (sample_assets <> [] ->
   exists a,
     BySize insertionSort true sample_assets = inl a /\ In a sample_assets /\
     forall b, In b sample_assets -> Size b <= Size a).
Proof.
  apply (BySize_extremal insertionSort true sample_assets).
  apply insertionSort_sorts.
Defined.

(** ** The finder: errors and the order *)

Lemma filterStableReleases_nil (releases : list Release) :
  filterStableReleases releases = [] <-> Forall (fun r => ~ stable r) releases.
Proof.
  split.
  - intros H. apply List.Forall_forall. intros r Hr Hs.
    assert (Hin : In r (filterStableReleases releases))
      by by apply filterStableReleases_In.
    by rewrite H in Hin.
  - intros H. destruct (filterStableReleases releases) as [|r rs] eqn:E; [done|].
    assert (Hin : In r (filterStableReleases releases)) by (rewrite E; by left).
    apply filterStableReleases_In in Hin as [Hin Hs].
    rewrite List.Forall_forall in H. by destruct (H r Hin).
Qed.

(** X12. [LatestStable] fails exactly when the list holds no stable
    release: with the error of no release when the list is empty, with the
    error of no stable release when every release is a draft or a
    prerelease.  The panic of [findLatestRelease] on an empty slice is
    never reached. *)
Theorem LatestStable_fails_without_stable_release
    (IsValid : string -> bool) (Compare : string -> string -> Z)
    (sort_Slice : (Release -> Release -> bool) -> list Release -> list Release)
    (releases : list Release) (owner repo : string) (e : error) :
  compares_versions IsValid Compare -> sorts sort_Slice ->
  LatestStable IsValid Compare sort_Slice releases owner repo = inr e <->
  (releases = [] /\
   e = Msg ("no releases found for " +:+ owner +:+ "/" +:+ repo)) \/
  (releases <> [] /\ Forall (fun r => ~ stable r) releases /\
   e = Msg ("no stable releases found for " +:+ owner +:+ "/" +:+ repo)).
Proof.
  intros Hcmp Hsort. unfold LatestStable.
  destruct releases as [|x xs].
  { cbn [length Nat.eqb]. split.
    - intros [= <-]. by left.
    - by intros [[_ ->]|[? _]]. }
  cbn [length Nat.eqb]. rewrite <- filterStableReleases_nil.
  destruct (filterStableReleases (x :: xs)) as [|y ys] eqn:E.
  { cbn [length Nat.eqb]. split.
    - intros [= <-]. by right.
    - by intros [[? _]|(_ & _ & ->)]. }
  cbn [length Nat.eqb].
  destruct (findLatestRelease_head IsValid Compare sort_Slice Hcmp Hsort (y :: ys))
    as (latest & -> & _); [done|].
  split; [done|]. by intros [[? _]|(_ & ? & _)].
Qed.

Lemma LatestStable_fails_without_stable_release_witness :
  LatestStable semver.IsValid semver.Compare (@insertionSort Release)
    [release_of "v1.0.0-rc.1" false true 1; release_of "v0.9.0" true false 2]
    "owner" "repo"
  = inr (Msg "no stable releases found for owner/repo") <->
  ([release_of "v1.0.0-rc.1" false true 1; release_of "v0.9.0" true false 2] = [] /\
   Msg "no stable releases found for owner/repo"
   = Msg ("no releases found for " +:+ "owner" +:+ "/" +:+ "repo")) \/
  ([release_of "v1.0.0-rc.1" false true 1; release_of "v0.9.0" true false 2] <> [] /\
   Forall (fun r => ~ stable r)
     [release_of "v1.0.0-rc.1" false true 1; release_of "v0.9.0" true false 2] /\
   Msg "no stable releases found for owner/repo"
   = Msg ("no stable releases found for " +:+ "owner" +:+ "/" +:+ "repo")).
Proof.
  apply (LatestStable_fails_without_stable_release
           semver.IsValid semver.Compare (@insertionSort Release)
           [release_of "v1.0.0-rc.1" false true 1; release_of "v0.9.0" true false 2]
           "owner" "repo" (Msg "no stable releases found for owner/repo")
           semver_compares_versions insertionSort_sorts).
Defined.

(** X13. The function given to [sort.Slice] in [findLatestRelease] is a
    strict weak order, which is what [sort.Slice] asks of it, as soon as
    [semver.Compare] orders the valid versions: no release goes before
    itself, two releases never go before each other, and not going before
    is transitive. *)
Theorem release_less_strict_weak_order
    (IsValid : string -> bool) (Compare : string -> string -> Z) :
  compares_versions IsValid Compare ->
  (forall r, release_less IsValid Compare r r = false) /\
  asymmetric (release_less IsValid Compare) /\
  negatively_transitive (release_less IsValid Compare).
Proof.
  intros Hcmp. split; [|split].
  - intros r. destruct (release_less IsValid Compare r r) eqn:E; [|done].
    by rewrite (release_less_asymmetric IsValid Compare Hcmp _ _ E) in E.
  - by apply release_less_asymmetric.
  - by apply release_less_negatively_transitive.
Qed.

Lemma release_less_strict_weak_order_witness :
  (forall r, release_less semver.IsValid semver.Compare r r = false) /\
  asymmetric (release_less semver.IsValid semver.Compare) /\
  negatively_transitive (release_less semver.IsValid semver.Compare).
Proof.
  apply (release_less_strict_weak_order semver.IsValid semver.Compare).
  apply semver_compares_versions.
Defined.

(** X14. [normalizeTag] is idempotent, gives the empty tag for the empty
    tag only, and every other result begins with v. *)
Theorem normalizeTag_idempotent (tag : string) :
  normalizeTag (normalizeTag tag) = normalizeTag tag /\
  (normalizeTag tag = "" <-> tag = "") /\
  (tag <> "" -> HasPrefix (normalizeTag tag) "v" = true).
Proof.
  unfold normalizeTag. destruct (String.eqb_spec tag "") as [->|Hne].
  { by repeat split. }
  destruct (HasPrefix tag "v") eqn:Hv.
  - destruct (String.eqb_spec tag ""); [done|]. rewrite Hv. by repeat split.
  - change ("v" +:+ tag) with (String "v" tag).
    assert (Hp : HasPrefix (String "v" tag) "v" = true)
      by apply (HasPrefix_append "v").
    cbn [String.eqb]. rewrite Hp. by repeat split.
Qed.

Lemma normalizeTag_idempotent_witness :
  normalizeTag (normalizeTag "1.2.3") = normalizeTag "1.2.3" /\
  (normalizeTag "1.2.3" = "" <-> "1.2.3" = "") /\
  ("1.2.3" <> "" -> HasPrefix (normalizeTag "1.2.3") "v" = true).
Proof. apply (normalizeTag_idempotent "1.2.3"). Defined.

(** ** What an extraction leaves in the tree *)







(** ** The legacy extractor *)

Lemma Legacy_extractTarEntry_eq (reader : Body) (header : Header) (dst : string)
    (w : World) :
  Legacy.extractTarEntry reader header dst w
  = extractTarEntryOptimized reader header dst w.
Proof. reflexivity. Qed.

Lemma Legacy_extractZipEntry_eq (file : ZipFile) (dst : string) (w : World) :
  Legacy.extractZipEntry file dst w = extractZipEntryOptimized file dst w.
Proof. reflexivity. Qed.

Lemma Legacy_tar_entries_eq (entries : list (Header * Body)) (tail : option error)
    (dst : string) (w : World) :
  Legacy.tar_entries entries tail dst w = tar_loop entries tail dst w.
Proof.
  revert w. induction entries as [|[h b] rest IH]; intros w; simpl; [done|].
  rewrite Legacy_extractTarEntry_eq.
  by destruct (extractTarEntryOptimized b h dst w) as [[e|] w1].
Qed.

Lemma Legacy_zip_entries_eq (files : list ZipFile) (dst : string) (w : World) :
  Legacy.zip_entries files dst w = zip_loop files dst w.
Proof.
  revert w. induction files as [|f rest IH]; intros w; simpl; [done|].
  rewrite Legacy_extractZipEntry_eq.
  by destruct (extractZipEntryOptimized f dst w) as [[e|] w1].
Qed.

Lemma detectFormat_dispatch (src : Reader) :
  fault src = None ->
  (MultiExtractor.detectFormat (bytes src) = ("tar.gz", None) /\
   Extract_dispatch src = ToTarGz) \/
  (MultiExtractor.detectFormat (bytes src) = ("zip", None) /\
   Extract_dispatch src = ToZip) \/
  (exists format e e',
     MultiExtractor.detectFormat (bytes src) = (format, Some e) /\
     Extract_dispatch src = Refused e').
Proof.
  destruct src as [data f]. cbn [fault bytes]. intros ->.
  unfold MultiExtractor.detectFormat, Extract_dispatch, Peek, detectFormatFromBytes.
  cbn [bytes fault].
  destruct data as [|a [|b [|c [|d rest]]]];
    try (right; right; by eexists _, _, _).
  change (length (a :: b :: c :: d :: rest) <? 4)%nat with false.
  change (length (firstn 4 (a :: b :: c :: d :: rest)) <? 4)%nat with false.
  cbn [firstn at_ nth].
  destruct (byte_eqb a x1f && byte_eqb b x8b); [by left|].
  destruct (byte_eqb a "P" && byte_eqb b "K" && byte_eqb c x03 && byte_eqb d x04).
  - right. by left.
  - right. right. by eexists _, _, _.
Qed.

(** X16. On a source that reads without error the legacy extractor
    ([MultiExtractor]) and the optimized one do the same: the same calls,
    the same tree, and an error from the one exactly when from the other;
    when the format is recognised the results are equal, error included.
    On a source that fails while it is read the legacy extractor stops
    after making the destination directory, with the error of reading the
    source, whatever bytes came before the failure. *)
Theorem legacy_extractor_agrees
    (untar : Reader -> TarStream) (unzip : list byte -> ZipArchive)
    (src : Reader) (dst : string) (w : World) :
  (fault src = None ->
     snd (Legacy.Extract untar unzip src dst w) = snd (Extract untar unzip src dst w) /\
     (fst (Legacy.Extract untar unzip src dst w) = None <->
      fst (Extract untar unzip src dst w) = None) /\
     (Extract_dispatch src = ToTarGz \/ Extract_dispatch src = ToZip ->
      Legacy.Extract untar unzip src dst w = Extract untar unzip src dst w)) /\
  (forall err w1,
     fault src = Some err -> MkdirAll dst perm_0755 w = (None, w1) ->
     Legacy.Extract untar unzip src dst w
     = (Some (Wrap "failed to read source data" err), w1)).
Proof.
  split.
  - intros Hf.
    unfold Legacy.Extract, Extract, Legacy.extractTarGz, Legacy.extractZip,
      extractZipFromReader, extractTarGzStream.
    rewrite Hf.
    assert (Hsrc : mkReader (bytes src) None = src)
      by (destruct src; simpl in *; by subst).
    rewrite Hsrc.
    destruct (MkdirAll dst perm_0755 w) as [[e|] w1]; [by repeat split|].
    destruct (detectFormat_dispatch src Hf)
      as [[-> ->]|[[-> ->]|(format & e & e' & -> & ->)]].
    + cbn. rewrite ?Legacy_tar_entries_eq.
      destruct (untar src) as [e|entries tail]; [by repeat split|].
      rewrite Legacy_tar_entries_eq. by repeat split.
    + cbn. destruct (unzip (bytes src)) as [e|files]; [by repeat split|].
      rewrite Legacy_zip_entries_eq. by repeat split.
    + cbn. repeat split; try done. by intros [|].
  - intros err w1 Hf Hm. unfold Legacy.Extract. by rewrite Hm, Hf.
Qed.

Lemma legacy_extractor_agrees_witness :
  (snd (Legacy.Extract (fun _ => Tar [file_entry "f" "x"] None) (fun _ => Zip [])
          gzip_reader "/dst" empty_dst)
   = snd (Extract (fun _ => Tar [file_entry "f" "x"] None) (fun _ => Zip [])
            gzip_reader "/dst" empty_dst) /\
   (fst (Legacy.Extract (fun _ => Tar [file_entry "f" "x"] None) (fun _ => Zip [])
           gzip_reader "/dst" empty_dst) = None <->
    fst (Extract (fun _ => Tar [file_entry "f" "x"] None) (fun _ => Zip [])
           gzip_reader "/dst" empty_dst) = None) /\
   (Extract_dispatch gzip_reader = ToTarGz \/ Extract_dispatch gzip_reader = ToZip ->
    Legacy.Extract (fun _ => Tar [file_entry "f" "x"] None) (fun _ => Zip [])
      gzip_reader "/dst" empty_dst
    = Extract (fun _ => Tar [file_entry "f" "x"] None) (fun _ => Zip [])
        gzip_reader "/dst" empty_dst)) /\
  Legacy.Extract (fun _ => Tar [file_entry "f" "x"] None) (fun _ => Zip [])
    (mkReader [x1f; x8b; x08; x00] (Some (Msg "connection reset"))) "/dst" empty_dst
  = (Some (Wrap "failed to read source data" (Msg "connection reset")),
     snd (MkdirAll "/dst" perm_0755 empty_dst)).
Proof.
  split.
  - apply (proj1 (legacy_extractor_agrees
                    (fun _ => Tar [file_entry "f" "x"] None) (fun _ => Zip [])
                    gzip_reader "/dst" empty_dst)).
    reflexivity.
  - apply (proj2 (legacy_extractor_agrees
                    (fun _ => Tar [file_entry "f" "x"] None) (fun _ => Zip [])
                    (mkReader [x1f; x8b; x08; x00] (Some (Msg "connection reset")))
                    "/dst" empty_dst)).
    + reflexivity.
    + apply surjective_result. vm_compute. reflexivity.
Defined.

(** ** The destination directory *)

Lemma tar_loop_calls (entries : list (Header * Body)) (tail : option error)
    (dst : string) (w w' : World) (r : option error) :
  tar_loop entries tail dst w = (r, w') -> calls_extend w w'.
Proof.
  revert w. induction entries as [|[h b] rest IH]; intros w H; simpl in H.
  - destruct tail; inversion H; subst; apply calls_extend_refl.
  - destruct (extractTarEntryOptimized b h dst w) as [[e|] w1] eqn:E;
      pose proof (extractTarEntryOptimized_steps _ _ _ _ _ _ E) as [_ C].
    + by inversion H; subst.
    + eapply calls_extend_trans; [exact C|]. by apply IH.
Qed.

Lemma zip_loop_calls (files : list ZipFile) (dst : string) (w w' : World)
    (r : option error) :
  zip_loop files dst w = (r, w') -> calls_extend w w'.
Proof.
  revert w. induction files as [|f rest IH]; intros w H; simpl in H.
  - inversion H; subst; apply calls_extend_refl.
  - destruct (extractZipEntryOptimized f dst w) as [[e|] w1] eqn:E;
      pose proof (extractZipEntryOptimized_steps _ _ _ _ _ E) as [_ C].
    + by inversion H; subst.
    + eapply calls_extend_trans; [exact C|]. by apply IH.
Qed.

Lemma MkdirAll_calls (path : string) (perm : Z) (w : World) :
  calls (snd (MkdirAll path perm w)) = (calls w ++ [CallMkdirAll path perm])%list.
Proof. unfold MkdirAll, call. by destruct (mkdir_path path perm (tree w)). Qed.

(** X17. Whatever the source, the first thing [Extract] does is to make
    the destination directory.  When that fails, the error says so and
    nothing else is called; when the source is then refused, because it is
    too short or of no known format, the directory made stays and is the
    only change. *)
Theorem Extract_makes_destination_first
    (untar : Reader -> TarStream) (unzip : list byte -> ZipArchive)
    (src : Reader) (dst : string) (w : World) :
  (exists more,
     calls (snd (Extract untar unzip src dst w))
     = (calls w ++ CallMkdirAll dst perm_0755 :: more)%list) /\
  (forall e,
     mkdir_path dst perm_0755 (tree w) = inr e ->
     Extract untar unzip src dst w
     = (Some (Wrap ("failed to create destination directory " +:+ dst) e),
        mkWorld (tree w) (calls w ++ [CallMkdirAll dst perm_0755]))) /\
  (forall e t,
     mkdir_path dst perm_0755 (tree w) = inl t ->
     Extract_dispatch src = Refused e ->
     Extract untar unzip src dst w
     = (Some e, mkWorld t (calls w ++ [CallMkdirAll dst perm_0755]))).
Proof.
  split; [|split].
  - unfold Extract. pose proof (MkdirAll_calls dst perm_0755 w) as Hc.
    destruct (MkdirAll dst perm_0755 w) as [[e|] w1]; simpl in Hc.
    { exists []. simpl. by rewrite Hc. }
    assert (Hext : forall (r : option error) w', calls_extend w1 w' ->
              exists more, calls (snd (r, w'))
                           = (calls w ++ CallMkdirAll dst perm_0755 :: more)%list).
    { intros r w' [more Hmore]. exists more. simpl.
      by rewrite Hmore, Hc, <- app_assoc. }
    destruct (Extract_dispatch src).
    + unfold extractTarGzStream. destruct (untar src) as [e|entries tail].
      * apply Hext, calls_extend_refl.
      * destruct (tar_loop entries tail dst w1) as [r w'] eqn:E.
        apply tar_loop_calls in E. by apply Hext.
    + unfold extractZipFromReader. destruct (fault src).
      { apply Hext, calls_extend_refl. }
      destruct (unzip (bytes src)) as [e|files].
      * apply Hext, calls_extend_refl.
      * destruct (zip_loop files dst w1) as [r w'] eqn:E.
        apply zip_loop_calls in E. by apply Hext.
    + apply Hext, calls_extend_refl.
  - intros e He. unfold Extract, MkdirAll, call. by rewrite He.
  - intros e t Ht Hd. unfold Extract, MkdirAll, call. by rewrite Ht, Hd.
Qed.

Lemma Extract_makes_destination_first_witness :
  Extract (fun _ => Tar [] None) (fun _ => Zip [])
    (mkReader (bytes_of "plain text") None) "/dst/new" empty_dst
  = (Some (Msg "unsupported archive format"),
     mkWorld (<["/dst/new" := NDir perm_0755]> (tree empty_dst))
       (calls empty_dst ++ [CallMkdirAll "/dst/new" perm_0755])).
Proof.
  apply (proj2 (proj2 (Extract_makes_destination_first
                         (fun _ => Tar [] None) (fun _ => Zip [])
                         (mkReader (bytes_of "plain text") None) "/dst/new" empty_dst))).
  - vm_compute. reflexivity.
  - vm_compute. reflexivity.
Defined.

(** ** The installer *)

Section InstallerProperties.

Variable finder : Context -> string -> string -> Release + error.
Variable download : Context -> string -> Reader + error.
Variable extract : Reader -> string -> World -> option error * World.
Variable filter : list Asset -> Asset + error.
Variable ping : bool.

Lemma Install_loop_app (ctx : Context) (cfg : Config) (before after : list Repo)
    (w w1 : World) :
  Install_loop finder download extract filter ping ctx cfg before w = (None, w1) ->
  Install_loop finder download extract filter ping ctx cfg (before ++ after) w
  = Install_loop finder download extract filter ping ctx cfg after w1.
Proof.
  revert w. induction before as [|repo rest IH]; intros w H; simpl in *.
  - by inversion H.
  - destruct (installRepo _ _ _ _ _ ctx cfg repo w) as [[e|] w'] eqn:E; [done|].
    by apply IH.
Qed.

(** X18. [Install] takes the repositories of the configuration in order
    and stops at the first one that fails: the error is that repository's
    error wrapped with its URL, the repositories after it are not tried,
    and what the repositories before it left in the tree stays. *)
Theorem Install_stops_at_first_failure
    (ctx : Context) (cfg : Config) (before after : list Repo) (repo : Repo)
    (w w1 w2 : World) (err : error) :
  Github cfg = (before ++ repo :: after)%list ->
  Install_loop finder download extract filter ping ctx cfg before w = (None, w1) ->
  installRepo finder download extract filter ping ctx cfg repo w1 = (Some err, w2) ->
  Install finder download extract filter ping ctx cfg w
  = (Some (Wrap ("failed to install " +:+ RepoURL repo) err), w2).
Proof.
  intros Hg Hbefore Hrepo. unfold Install. rewrite Hg.
  rewrite (Install_loop_app _ _ _ _ _ _ Hbefore). simpl. by rewrite Hrepo.
Qed.


End InstallerProperties.

(** ** Nothing is written outside the destination *)

Lemma join_sep_app (a b : list string) :
  a <> [] -> b <> [] ->
  join_sep (a ++ b) = join_sep a +:+ String Separator (join_sep b).
Proof.
  intros Ha Hb. induction a as [|s a IH]; [done|].
  destruct a as [|s' a].
  - simpl app. by rewrite join_sep_cons.
  - change ((s :: s' :: a) ++ b)%list with (s :: ((s' :: a) ++ b))%list.
    rewrite !join_sep_cons by done. rewrite IH by done.
    by rewrite append_assoc.
Qed.

Lemma render_app (r : bool) (a b : list string) :
  a <> [] -> b <> [] ->
  render r (a ++ b) = render r a +:+ String Separator (join_sep b).
Proof.
  intros Ha Hb. unfold render. destruct r.
  - rewrite join_sep_app by done. by rewrite append_assoc.
  - destruct a as [|s a]; [done|]. simpl app. 
    change (s :: (a ++ b))%list with ((s :: a) ++ b)%list.
    by rewrite join_sep_app.
Qed.

Lemma split_render (r : bool) (segs : list string) :
  Forall no_sep segs -> segs <> [] ->
  split_sep (render r segs) = ((if r then [""] else []) ++ segs)%list.
Proof.
  intros Hsep Hne. unfold render. destruct r.
  - change ("/" +:+ join_sep segs) with ("" +:+ String Separator (join_sep segs)).
    by rewrite split_sep_app, split_join_sep.
  - destruct segs as [|s segs]; [done|]. by rewrite split_join_sep.
Qed.

Lemma rooted_render (r : bool) (segs : list string) :
  Forall no_sep segs -> Forall (fun s => s <> "") segs ->
  rooted (render r segs) = r.
Proof.
  intros Hsep Hne. unfold render. destruct r; [done|].
  destruct segs as [|s segs]; [done|]. by apply join_sep_not_rooted.
Qed.


Lemma path_stack_cleaned (path : string) : cleaned_stack (rooted path) (path_stack path).
Proof. apply cleaned_stack_of_path. Qed.

Lemma Clean_stack (path : string) :
  Clean path = render (rooted path) (rev (path_stack path)).
Proof. reflexivity. Qed.

Lemma cleaned_stack_no_dot (r : bool) (out : list string) :
  cleaned_stack r out -> Forall (fun s => s <> ".") out.
Proof.
  intros (names & k & -> & Hnames & _). apply Forall_app. split.
  - eapply Forall_impl; [exact Hnames|]. by intros s (_ & H & _).
  - apply Forall_forall. intros s Hs. apply list_elem_of_In, repeat_spec in Hs. by subst.
Qed.

Lemma cleaned_stack_tail (r : bool) (s : string) (up : list string) :
  cleaned_stack r (s :: up) -> cleaned_stack r up.
Proof.
  intros (names & k & E & Hnames & Hk). destruct names as [|n names].
  - destruct k as [|k]; simpl in E; [done|]. injection E as _ E. subst up.
    exists [], k. repeat split; [done|]. intros Hr. by specialize (Hk Hr).
  - simpl in E. injection E as _ E. subst up.
    apply Forall_cons in Hnames as [_ Hnames]. by exists names, k.
Qed.

(** The stack of a cleaned path read back from its text. *)
Lemma stack_of_render (r : bool) (out : list string) :
  cleaned_stack r out ->
  rooted (render r (rev out)) = r /\ path_stack (render r (rev out)) = out.
Proof.
  intros Hout. destruct (cleaned_stack_no_sep _ _ Hout) as [Hsep Hne].
  assert (Hroot : rooted (render r (rev out)) = r).
  { apply rooted_render; by apply Forall_rev. }
  split; [done|]. unfold path_stack. rewrite Hroot.
  destruct (rev out) as [|s segs] eqn:E.
  - assert (out = []) as -> by (apply (f_equal (@rev string)) in E;
                                by rewrite rev_involutive in E).
    by destruct r.
  - rewrite split_render; [|rewrite <- E; by apply Forall_rev|done].
    rewrite <- E. destruct r; simpl app.
    + simpl fold_left. change (clean_step true [] "") with (@nil string).
      by apply clean_fold_fixpoint.
    + by apply clean_fold_fixpoint.
Qed.


Lemma path_stack_Clean (path : string) : path_stack (Clean path) = path_stack path.
Proof.
  rewrite Clean_stack.
  destruct (stack_of_render _ _ (path_stack_cleaned path)) as [_ H]. exact H.
Qed.



(** A cleaned path that continues a cleaned path after a separator has the
    elements of that path, and then more. *)
Lemma below_stack (D P rest : string) :
  Clean D = D -> Clean P = P -> P = D +:+ String Separator rest ->
  rooted P = rooted D /\
  path_stack D <> [] /\
  path_stack P = (rev (split_sep rest) ++ path_stack D)%list.
Proof.
  intros HD HP E.
  assert (HDne : D <> "") by (rewrite <- HD; apply Clean_not_empty).
  assert (Hr : rooted P = rooted D) by (rewrite E; by apply rooted_app).
  pose proof (path_stack_cleaned D) as HcD.
  pose proof (path_stack_cleaned P) as HcP. rewrite Hr in HcP.
  destruct (cleaned_stack_no_sep _ _ HcP) as [HsepP HneP].
  destruct (cleaned_stack_no_sep _ _ HcD) as [HsepD HneD].
  pose proof (cleaned_stack_no_dot _ _ HcP) as HdotP.
  apply Forall_rev in HsepP, HneP, HsepD, HneD, HdotP.
  pose proof (f_equal split_sep E) as Hsplit. rewrite split_sep_app in Hsplit.
  rewrite <- HP in Hsplit at 1. rewrite <- HD in Hsplit at 1.
  rewrite !Clean_stack, Hr in Hsplit.
  destruct (rev (path_stack P)) as [|p ps] eqn:EP.
  { exfalso. rewrite <- HP, Clean_stack, Hr, EP in E.
    destruct D as [|c D]; [done|]. rewrite append_cons in E.
    destruct (rooted (String c D)); simpl in E; injection E as _ E;
      by destruct D. }
  rewrite (split_render _ (p :: ps)) in Hsplit by done.
  destruct (rev (path_stack D)) as [|d ds] eqn:ED.
  { exfalso. destruct (rooted D); simpl in Hsplit.
    - injection Hsplit as Hp _. apply Forall_cons in HneP as [HneP _]. done.
    - injection Hsplit as Hp _. apply Forall_cons in HdotP as [HdotP _]. done. }
  rewrite (split_render _ (d :: ds)) in Hsplit by done.
  split; [done|]. split.
  { intros Hnil. by rewrite Hnil in ED. }
  rewrite <- app_assoc in Hsplit. apply app_inv_head in Hsplit.
  apply (f_equal (@rev string)) in EP, ED. rewrite rev_involutive in EP, ED.
  rewrite EP, ED, Hsplit. by rewrite rev_app_distr.
Qed.


Lemma no_sep_chars (s : string) :
  no_sep s -> existsb (Ascii.eqb Separator) (list_ascii_of_string s) = false.
Proof.
  unfold no_sep. induction s as [|a s IH]; [done|].
  cbn [split_sep list_ascii_of_string existsb].
  destruct (Ascii.eqb_spec a Separator) as [->|Ha]; [done|].
  pose proof (split_sep_not_nil s) as Hnil.
  destruct (split_sep s) as [|seg segs] eqn:E; [done|].
  intros [= -> ->]. rewrite IH by done. rewrite orb_false_r.
  apply Ascii.eqb_neq. congruence.
Qed.

Lemma upto_last_sep_app (X s : string) :
  no_sep s -> upto_last_sep (X +:+ String Separator s) = X +:+ "/".
Proof.
  intros Hs. induction X as [|a X IH].
  - rewrite append_nil. cbn [upto_last_sep]. by rewrite (no_sep_chars _ Hs).
  - rewrite !append_cons. cbn [upto_last_sep]. rewrite IH.
    assert (Hex : existsb (Ascii.eqb Separator)
                    (list_ascii_of_string (X +:+ String Separator s)) = true).
    { clear. induction X as [|b X IH]; [done|].
      rewrite append_cons. simpl. rewrite IH. apply orb_true_r. }
    by rewrite Hex.
Qed.

Lemma Clean_sep_suffix (X : string) : X <> "" -> Clean (X +:+ "/") = Clean X.
Proof.
  intros Hne. unfold Clean, clean_segs.
  change (X +:+ "/") with (X +:+ String Separator "").
  by rewrite rooted_app, split_sep_app, fold_left_app.
Qed.

(** [Dir] of a cleaned path: the path without its last element. *)
Lemma Dir_stack (P s : string) (up : list string) :
  Clean P = P -> path_stack P = s :: up ->
  Dir P = render (rooted P) (rev up) /\
  rooted (Dir P) = rooted P /\ path_stack (Dir P) = up.
Proof.
  intros HP Hstack.
  pose proof (path_stack_cleaned P) as Hc. rewrite Hstack in Hc.
  pose proof (cleaned_stack_tail _ _ _ Hc) as Hup.
  destruct (cleaned_stack_no_sep _ _ Hc) as [Hsep Hne].
  apply Forall_cons in Hsep as [Hs Hsep]. apply Forall_cons in Hne as [Hsne Hne].
  assert (HDir : Dir P = render (rooted P) (rev up)).
  { assert (HPr : P = render (rooted P) (rev (s :: up)))
      by (by rewrite <- Hstack, <- Clean_stack).
    unfold Dir. remember (rooted P) as r eqn:Er. rewrite HPr. clear HPr.
    simpl rev. destruct (rev up) as [|u us] eqn:E.
    - simpl app. unfold render. destruct r.
      + change ("/" +:+ join_sep [s]) with ("" +:+ String Separator s).
        by rewrite upto_last_sep_app.
      + simpl join_sep.
        assert (Hno : upto_last_sep s = "").
        { destruct s as [|a s']; [done|]. cbn [upto_last_sep].
          pose proof (no_sep_chars _ Hs) as Hch. simpl in Hch.
          apply orb_false_iff in Hch as [Ha Hch]. rewrite Hch.
          destruct (Ascii.eqb_spec a Separator) as [->|]; [done|done]. }
        by rewrite Hno.
    - rewrite render_app by done. simpl join_sep.
      rewrite upto_last_sep_app by done.
      rewrite Clean_sep_suffix.
      + rewrite <- E. by apply Clean_render.
      + rewrite <- E, <- (Clean_render _ _ Hup). apply Clean_not_empty. }
  split; [done|]. rewrite HDir. by apply stack_of_render.
Qed.








Lemma accepted_cases (cleanedPath cleanedDst : string) :
  path_refused cleanedPath cleanedDst = false ->
  cleanedPath = cleanedDst \/
  exists rest, cleanedPath = cleanedDst +:+ String Separator rest.
Proof.
  unfold path_refused. intros H. apply orb_false_iff in H as [_ H].
  apply andb_false_iff in H as [H|H].
  - left. apply negb_false_iff in H. by apply String.eqb_eq.
  - right. apply negb_false_iff in H. apply HasPrefix_app in H as [rest ->].
    exists rest. by rewrite append_assoc.
Qed.
















Lemma root_stack_refuses (dst name : string) :
  path_stack dst = [] ->
  Clean (Join dst name) <> Clean dst ->
  path_refused (Clean (Join dst name)) (Clean dst) = true.
Proof.
  intros Hstack Hne.
  destruct (path_refused _ _) eqn:Hok; [done|].
  destruct (accepted_cases _ _ Hok) as [Heq|[rest Hrest]]; [done|].
  destruct (below_stack _ _ rest (Clean_idempotent dst)
              (Clean_idempotent (Join dst name)) Hrest) as (_ & Hnil & _).
  by rewrite path_stack_Clean in Hnil.
Qed.

Lemma path_stack_top (dst : string) :
  Clean dst = "/" \/ Clean dst = "." -> path_stack dst = [].
Proof.
  intros H. rewrite <- path_stack_Clean. by destruct H as [-> | ->].
Qed.














(** X21. A destination that cleans to the root directory or to the
    current directory refuses every entry that is not the destination
    itself: below [/] the guard asks for the prefix [//], below [.] for the
    prefix [./], and no cleaned path begins with either.  The tar entry and
    the zip entry return the error of an invalid path and change
    nothing. *)
Theorem top_destination_refuses_every_entry (dst name : string) :
  Clean dst = "/" \/ Clean dst = "." ->
  Clean (Join dst name) <> Clean dst ->
  (forall header reader w,
     Name header = name ->
     extractTarEntryOptimized reader header dst w
     = (Some (Msg ("invalid file path: " +:+ name)), w)) /\
  (forall file w,
     zName file = name ->
     extractZipEntryOptimized file dst w
     = (Some (Msg ("invalid file path: " +:+ name)), w)).
Proof.
  intros Htop Hne.
  pose proof (root_stack_refuses dst name (path_stack_top dst Htop) Hne) as Href.
  assert (Hskip : String.eqb name "./" || String.eqb name "." = false).
  { destruct (String.eqb_spec name "./") as [->|H1].
    - destruct Hne. apply Join_skipped_name. by right.
    - destruct (String.eqb_spec name ".") as [->|H2]; [|done].
      destruct Hne. apply Join_skipped_name. by left. }
  split.
  - intros header reader w <-. unfold extractTarEntryOptimized.
    by rewrite Hskip, Href.
  - intros file w <-. unfold extractZipEntryOptimized. by rewrite Hskip, Href.
Qed.

Lemma top_destination_refuses_every_entry_witness :
  (forall header reader w,
     Name header = "bin/tool" ->
     extractTarEntryOptimized reader header "." w
     = (Some (Msg ("invalid file path: " +:+ "bin/tool")), w)) /\
  (forall file w,
     zName file = "bin/tool" ->
     extractZipEntryOptimized file "." w
     = (Some (Msg ("invalid file path: " +:+ "bin/tool")), w)).
Proof.
  apply (top_destination_refuses_every_entry "." "bin/tool").
  - right. vm_compute. reflexivity.
  - vm_compute. discriminate.
Defined.

(** ** Directories and links of the archive *)






Lemma Install_stops_at_first_failure_witness :
  Install (fun _ _ _ => inl sample_release) (fun _ _ => inl gzip_reader)
    (Extract (fun _ => Tar three_files None) (fun _ => Zip []))
    first_asset false (mkContext None) three_repos empty_dst
  = (Some (Wrap ("failed to install " +:+ "https://github.com/owner")
             (Wrap "failed to parse repository URL"
                (Msg "invalid GitHub URL format: https://github.com/owner"))),
     snd (sample_loop [mkRepo "https://github.com/owner/repo" "/dst"] empty_dst)).
Proof.
  apply (Install_stops_at_first_failure
           (fun _ _ _ => inl sample_release) (fun _ _ => inl gzip_reader)
           (Extract (fun _ => Tar three_files None) (fun _ => Zip []))
           first_asset false (mkContext None) three_repos
           [mkRepo "https://github.com/owner/repo" "/dst"]
           [mkRepo "https://github.com/owner/other" "/dst3"]
           (mkRepo "https://github.com/owner" "/dst2") empty_dst
           (snd (sample_loop [mkRepo "https://github.com/owner/repo" "/dst"] empty_dst))
           (snd (sample_loop [mkRepo "https://github.com/owner/repo" "/dst"] empty_dst))
           (Wrap "failed to parse repository URL"
              (Msg "invalid GitHub URL format: https://github.com/owner"))).
  - reflexivity.
  - apply surjective_result. vm_compute. reflexivity.
  - vm_compute. reflexivity.
Defined.

(** ** Destinations that are not what they seem *)

Lemma no_dot_slash_prefix (P d : string) :
  Clean P = P -> HasPrefix P ("./" +:+ d) = false.
Proof.
  intros HP. destruct (HasPrefix P ("./" +:+ d)) eqn:H; [|done].
  apply HasPrefix_app in H as [rest E].
  assert (E' : P = "." +:+ String Separator (d +:+ rest)).
  { rewrite E. by rewrite append_assoc. }
  assert (Hdot : Clean "." = ".") by by vm_compute.
  destruct (below_stack "." P (d +:+ rest) Hdot HP E') as (_ & Hnil & _).
  by destruct Hnil.
Qed.

(** X23. With a destination written with a leading [./], no link of an
    archive is ever created: the target joined with the destination is a
    cleaned path, which never begins with [./], so the check of the target
    against the destination fails for every target.  A link entry ends in
    an error, unless it is the current-directory entry, and the world stays
    as it was. *)
Theorem dot_slash_destination_refuses_links
    (d : string) (header : Header) (reader : Body) (w : World) :
  Typeflag header = TypeSymlink ->
  snd (extractTarEntryOptimized reader header ("./" +:+ d) w) = w /\
  (Name header <> "." -> Name header <> "./" ->
   fst (extractTarEntryOptimized reader header ("./" +:+ d) w)
   = Some (Msg ("invalid file path: " +:+ Name header)) \/
   fst (extractTarEntryOptimized reader header ("./" +:+ d) w)
   = Some (Msg ("invalid symlink target: " +:+ Linkname header))).
Proof.
  intros Hlink. unfold extractTarEntryOptimized. rewrite Hlink.
  assert (Hjoin : HasPrefix (Join ("./" +:+ d) (Linkname header)) ("./" +:+ d) = false).
  { apply no_dot_slash_prefix. unfold Join.
    change (String.eqb ("./" +:+ d) "") with false. cbn [negb].
    apply Clean_idempotent. }
  rewrite Hjoin. cbn [negb].
  change (Ascii.eqb TypeSymlink TypeDir) with false.
  change (Ascii.eqb TypeSymlink TypeReg) with false.
  change (Ascii.eqb TypeSymlink TypeSymlink) with true.
  destruct (String.eqb_spec (Name header) "./") as [->|H1].
  { split; [done|]. by intros _ []. }
  destruct (String.eqb_spec (Name header) ".") as [->|H2].
  { split; [done|]. by intros []. }
  cbn [orb]. destruct (path_refused _ _); split; try done.
  - intros _ _. by left.
  - intros _ _. by right.
Qed.

Lemma dot_slash_destination_refuses_links_witness :
  snd (extractTarEntryOptimized (snd (link_entry "latest" "v1"))
         (fst (link_entry "latest" "v1")) ("./" +:+ "out") empty_dst) = empty_dst /\
  (Name (fst (link_entry "latest" "v1")) <> "." ->
   Name (fst (link_entry "latest" "v1")) <> "./" ->
   fst (extractTarEntryOptimized (snd (link_entry "latest" "v1"))
          (fst (link_entry "latest" "v1")) ("./" +:+ "out") empty_dst)
   = Some (Msg ("invalid file path: " +:+ Name (fst (link_entry "latest" "v1")))) \/
   fst (extractTarEntryOptimized (snd (link_entry "latest" "v1"))
          (fst (link_entry "latest" "v1")) ("./" +:+ "out") empty_dst)
   = Some (Msg ("invalid symlink target: "
                +:+ Linkname (fst (link_entry "latest" "v1"))))).
Proof.
  apply (dot_slash_destination_refuses_links "out"
           (fst (link_entry "latest" "v1")) (snd (link_entry "latest" "v1"))
           empty_dst).
  reflexivity.
Defined.

Lemma Clean_climbing (x : string) :
  is_name x -> Clean ("../../" +:+ x) = "../../" +:+ x.
Proof.
  intros Hx.
  assert (Hc : cleaned_stack false [x; ".."; ".."]).
  { exists [x], 2%nat. repeat split; [|done]. by constructor. }
  exact (Clean_render false [x; ".."; ".."] Hc).
Qed.

Lemma stack_climbing (x : string) :
  is_name x -> path_stack ("../../" +:+ x) = [x; ".."; ".."].
Proof.
  intros Hx.
  assert (Hc : cleaned_stack false [x; ".."; ".."]).
  { exists [x], 2%nat. repeat split; [|done]. by constructor. }
  exact (proj2 (stack_of_render false [x; ".."; ".."] Hc)).
Qed.

(** X24. The guard compares texts, so a relative destination that is a
    parent directory does not confine the archive: with the destination
    [..], the regular file named [../NAME] passes the guard, because
    [../../NAME] begins with [../], and is written at [../../NAME], which
    is in the parent of the destination. *)
Theorem parent_destination_lets_entries_escape
    (x : string) (reader : Body) (mode : Z) :
  is_name x -> broken reader = None ->
  Clean (Join ".." ("../" +:+ x)) = "../../" +:+ x /\
  exists w',
    extractTarEntryOptimized reader (mkHeader ("../" +:+ x) TypeReg mode "") ".."
      (no_calls ∅) = (None, w') /\
    tree w' = {[ "../../" +:+ x := NFile (Perm (FileMode mode)) (data reader) ]}.
Proof.
  intros Hx Hb.
  assert (HJ : Join ".." ("../" +:+ x) = "../../" +:+ x).
  { exact (Clean_climbing x Hx). }
  assert (HC : Clean ("../../" +:+ x) = "../../" +:+ x) by by apply Clean_climbing.
  split; [by rewrite HJ|].
  unfold extractTarEntryOptimized. cbn [Name Typeflag Mode].
  rewrite HJ, HC.
  change (String.eqb ("../" +:+ x) "./") with false.
  change (String.eqb ("../" +:+ x) ".") with false. cbn [orb].
  assert (Hok : path_refused ("../../" +:+ x) (Clean "..") = false).
  { unfold path_refused. change (Clean "..") with "..".
    assert (H1 : HasPrefix ("../../" +:+ x) ".." = true)
      by exact (HasPrefix_append ".." ("/../" +:+ x)).
    assert (H2 : HasPrefix ("../../" +:+ x) (".." +:+ String Separator "") = true)
      by exact (HasPrefix_append "../" ("../" +:+ x)).
    rewrite H1, H2. cbn [negb orb]. apply andb_false_r. }
  rewrite Hok.
  change (Ascii.eqb TypeReg TypeDir) with false.
  change (Ascii.eqb TypeReg TypeReg) with true. cbv iota.
  unfold extractFileOptimized.
  assert (HDir : Dir ("../../" +:+ x) = "../..").
  { by destruct (Dir_stack _ x [".."; ".."] HC (stack_climbing x Hx)) as (-> & _). }
  rewrite HDir. change (MkdirAll "../.." perm_0755 (no_calls ∅))
    with (None : option error, mkWorld (∅ : gmap string node) [CallMkdirAll "../.." perm_0755]).
  cbv iota.
  unfold OpenFile, open_file. cbn [tree]. rewrite HC, HDir.
  change (view ∅ "../..") with (Some (NDir perm_0755)). cbv iota.
  assert (Hview : view (∅ : gmap string node) ("../../" +:+ x) = None).
  { unfold view. rewrite lookup_empty. unfold always_there.
    change (String.eqb ("../../" +:+ x) "/") with false.
    change (String.eqb ("../../" +:+ x) ".") with false. cbn [orb].
    change ("../../" +:+ x) with (".." +:+ String Separator (".." +:+ String Separator x)).
    rewrite !split_sep_app. destruct Hx as (_ & _ & Hdd & Hsep). rewrite Hsep.
    cbn. apply String.eqb_neq in Hdd. by rewrite Hdd. }
  rewrite Hview. cbn [call]. rewrite Hb.
  eexists. split; [reflexivity|]. cbn [tree WriteTo]. unfold write_file.
  rewrite HC, lookup_insert_eq. rewrite insert_insert_eq. 
  by rewrite insert_empty.
Qed.

Lemma parent_destination_lets_entries_escape_witness :
  Clean (Join ".." ("../" +:+ "passwd")) = "../../" +:+ "passwd" /\
  exists w',
    extractTarEntryOptimized (whole "bad")
      (mkHeader ("../" +:+ "passwd") TypeReg 420 "") ".." (no_calls ∅) = (None, w') /\
    tree w' = {[ "../../" +:+ "passwd"
                 := NFile (Perm (FileMode 420)) (data (whole "bad")) ]}.
Proof.
  apply (parent_destination_lets_entries_escape "passwd" (whole "bad") 420).
  - by repeat split.
  - reflexivity.
Defined.

(** ** What the validation lets through *)

Lemma no_sep_cons (c : ascii) (s : string) :
  no_sep (String c s) -> c <> Separator /\ no_sep s.
Proof.
  unfold no_sep. cbn [split_sep].
  destruct (Ascii.eqb_spec c Separator) as [->|Hc]; [done|].
  pose proof (split_sep_not_nil s) as Hnil.
  destruct (split_sep s) as [|seg segs]; [done|]. by intros [= -> ->].
Qed.

Lemma TrimSuffix_no_sep (s : string) : no_sep s -> TrimSuffix s "/" = s.
Proof.
  induction s as [|c s IH]; intros Hs; [done|].
  apply no_sep_cons in Hs as [Hc Hs]. cbn [TrimSuffix].
  destruct (String.eqb_spec (String c s) "/") as [E|_]; [by injection E|].
  by rewrite IH.
Qed.

Lemma TrimSuffix_append (a b : string) :
  b <> "" -> TrimSuffix (a +:+ b) "/" = a +:+ TrimSuffix b "/".
Proof.
  intros Hb. induction a as [|c a IH]; [done|].
  rewrite !append_cons. cbn [TrimSuffix].
  destruct (String.eqb_spec (String c (a +:+ b)) "/") as [E|_].
  - injection E as _ E. destruct a; [by destruct Hb|done].
  - by rewrite IH.
Qed.

Section ValidationGap.

Variable finder : Context -> string -> string -> Release + error.
Variable download : Context -> string -> Reader + error.
Variable extract : Reader -> string -> World -> option error * World.
Variable filter : list Asset -> Asset + error.
Variable ping : bool.

(** X25. [validate] lets through a URL that names an owner and no
    repository: https://github.com/OWNER, where OWNER holds no slash and
    may be empty, passes [validate] with any output directory, and
    [installRepo] on the repository as [normalize] leaves it fails when it
    parses the URL, before the finder is asked, with the world as it
    was. *)
Theorem validated_owner_url_fails_to_install
    (owner out : string) (ctx : Context) (w : World) :
  no_sep owner -> out <> "" ->
  let cfg := mkConfig [mkRepo ("https://github.com/" +:+ owner) out] "" in
  validate cfg = None /\
  exists repo e,
    Github (normalize cfg) = [repo] /\
    ParseRepoURL (RepoURL repo) = inr e /\
    installRepo finder download extract filter ping ctx (normalize cfg) repo w
    = (Some (Wrap "failed to parse repository URL" e), w).
Proof.
  intros Ho Hout cfg. split.
  - unfold validate, cfg. cbn [Github length Nat.eqb validate_from RepoURL OutputDir].
    change (String.eqb ("https://github.com/" +:+ owner) "") with false.
    rewrite HasPrefix_append. cbn [negb].
    by destruct (String.eqb_spec out "").
  - unfold normalize, cfg. cbn [Github map RepoURL OutputDir MirrorURL].
    assert (Hfail : exists e,
              ParseRepoURL (TrimSuffix ("https://github.com/" +:+ owner) "/") = inr e).
    { destruct owner as [|c owner'] eqn:E.
      - eexists. by vm_compute.
      - rewrite <- E in *. rewrite TrimSuffix_append by (by rewrite E).
        rewrite TrimSuffix_no_sep by done. unfold ParseRepoURL.
        rewrite HasPrefix_append, TrimPrefix_append, Ho. by eexists. }
    destruct Hfail as [e He]. eexists _, e. split; [done|].
    cbn [RepoURL]. split; [done|]. unfold installRepo. cbn [RepoURL].
    by rewrite He.
Qed.

End ValidationGap.

Lemma validated_owner_url_fails_to_install_witness :
  validate (mkConfig [mkRepo ("https://github.com/" +:+ "owner") "/dst"] "") = None /\
  exists repo e,
    Github (normalize (mkConfig [mkRepo ("https://github.com/" +:+ "owner") "/dst"] ""))
    = [repo] /\
    ParseRepoURL (RepoURL repo) = inr e /\
    installRepo (fun _ _ _ => inl sample_release) (fun _ _ => inl gzip_reader)
      (Extract (fun _ => Tar three_files None) (fun _ => Zip []))
      first_asset false (mkContext None)
      (normalize (mkConfig [mkRepo ("https://github.com/" +:+ "owner") "/dst"] ""))
      repo empty_dst
    = (Some (Wrap "failed to parse repository URL" e), empty_dst).
Proof.
  apply (validated_owner_url_fails_to_install
           (fun _ _ _ => inl sample_release) (fun _ _ => inl gzip_reader)
           (Extract (fun _ => Tar three_files None) (fun _ => Zip []))
           first_asset false "owner" "/dst" (mkContext None) empty_dst).
  - reflexivity.
  - discriminate.
Defined.

(** ** Sources that break off *)

Lemma tar_loop_tail (entries : list (Header * Body)) (err : error)
    (dst : string) (w w1 : World) :
  tar_loop entries None dst w = (None, w1) ->
  tar_loop entries (Some err) dst w
  = (Some (Wrap "failed to read tar entry" err), w1).
Proof.
  intros H. rewrite <- (app_nil_r entries).
  by rewrite (tar_loop_app _ _ _ _ _ _ H).
Qed.

(** X26. A tar.gz stream that breaks off after some entries leaves those
    entries extracted: [Extract] returns the error of reading the next
    entry and the world holds everything the entries before did.  A zip
    source that fails while it is read is not extracted at all: the error
    is that of reading the zip data and only the destination directory has
    been made. *)
Theorem broken_source_tar_partial_zip_nothing
    (untar : Reader -> TarStream) (unzip : list byte -> ZipArchive)
    (src : Reader) (dst : string) (w w0 : World) :
  MkdirAll dst perm_0755 w = (None, w0) ->
  (forall entries err w1,
     Extract_dispatch src = ToTarGz -> untar src = Tar entries (Some err) ->
     tar_loop entries None dst w0 = (None, w1) ->
     Extract untar unzip src dst w
     = (Some (Wrap "failed to read tar entry" err), w1)) /\
  (forall err,
     Extract_dispatch src = ToZip -> fault src = Some err ->
     Extract untar unzip src dst w
     = (Some (Wrap "failed to read zip data" err), w0)).
Proof.
  intros Hm. unfold Extract. rewrite Hm. split.
  - intros entries err w1 -> Hu Hloop. unfold extractTarGzStream. rewrite Hu.
    by apply tar_loop_tail.
  - intros err -> Hf. unfold extractZipFromReader. by rewrite Hf.
Qed.

Lemma broken_source_tar_partial_zip_nothing_witness :
  Extract (fun _ => Tar [file_entry "a" "x"] (Some (Msg "unexpected EOF")))
    (fun _ => Zip []) gzip_reader "/dst" empty_dst
  = (Some (Wrap "failed to read tar entry" (Msg "unexpected EOF")),
     snd (tar_loop [file_entry "a" "x"] None "/dst"
            (snd (MkdirAll "/dst" perm_0755 empty_dst)))).
Proof.
  refine (proj1 (broken_source_tar_partial_zip_nothing
                   (fun _ => Tar [file_entry "a" "x"] (Some (Msg "unexpected EOF")))
                   (fun _ => Zip []) gzip_reader "/dst" empty_dst
                   (snd (MkdirAll "/dst" perm_0755 empty_dst)) _)
            [file_entry "a" "x"] (Msg "unexpected EOF") _ _ _ _).
  - apply surjective_result. vm_compute. reflexivity.
  - reflexivity.
  - reflexivity.
  - apply surjective_result. vm_compute. reflexivity.
Defined.

Lemma tar_entries_error (entries : list (Header * Body)) (tail : option error)
    (dst : string) (w w' : World) (e : error) :
  Legacy.tar_entries entries tail dst w = (Some e, w') ->
  exists msg cause, e = Wrap msg cause.
Proof.
  revert w. induction entries as [|[h b] rest IH]; intros w H; simpl in H.
  - destruct tail; inversion H. by eexists _, _.
  - destruct (Legacy.extractTarEntry b h dst w) as [[e1|] w1].
    + inversion H. by eexists _, _.
    + by eapply IH.
Qed.

Lemma zip_entries_error (files : list ZipFile) (dst : string) (w w' : World)
    (e : error) :
  Legacy.zip_entries files dst w = (Some e, w') ->
  exists msg cause, e = Wrap msg cause.
Proof.
  revert w. induction files as [|f rest IH]; intros w H; simpl in H; [done|].
  destruct (Legacy.extractZipEntry f dst w) as [[e1|] w1].
  - inversion H. by eexists _, _.
  - by eapply IH.
Qed.

Lemma detectFormat_cases (data : list byte) :
  MultiExtractor.detectFormat data = ("tar.gz", None) \/
  MultiExtractor.detectFormat data = ("zip", None) \/
  exists format e, MultiExtractor.detectFormat data = (format, Some e).
Proof.
  unfold MultiExtractor.detectFormat.
  destruct (length data <? 4)%nat; [right; right; by eexists _, _|].
  destruct (byte_eqb (at_ data 0) x1f && byte_eqb (at_ data 1) x8b); [by left|].
  destruct (_ && _); [right; by left|right; right; by eexists _, _].
Qed.

(** X27. The last branch of the switch in [MultiExtractor.Extract] is
    never taken: [detectFormat] answers tar.gz, zip or an error, so the
    legacy extractor never returns the error of an unsupported format;
    every error it returns wraps the error of the step that failed. *)
Theorem legacy_unsupported_format_unreachable
    (untar : Reader -> TarStream) (unzip : list byte -> ZipArchive)
    (src : Reader) (dst : string) (w : World) :
  (forall format,
     fst (Legacy.Extract untar unzip src dst w)
     <> Some (Msg ("unsupported archive format: " +:+ format))) /\
  (forall e,
     fst (Legacy.Extract untar unzip src dst w) = Some e ->
     exists msg cause, e = Wrap msg cause).
Proof.
  assert (Hwrap : forall e,
            fst (Legacy.Extract untar unzip src dst w) = Some e ->
            exists msg cause, e = Wrap msg cause).
  { intros e. unfold Legacy.Extract.
    destruct (MkdirAll dst perm_0755 w) as [[e0|] w0].
    { intros [= <-]. by eexists _, _. }
    destruct (fault src). { intros [= <-]. by eexists _, _. }
    destruct (detectFormat_cases (bytes src)) as [-> |[-> |(format & e1 & ->)]].
    - cbn. unfold Legacy.extractTarGz.
      destruct (untar _) as [e1|entries tail].
      + intros [= <-]. by eexists _, _.
      + destruct (Legacy.tar_entries entries tail dst w0) as [[e1|] w1] eqn:E;
          [|done].
        intros [= <-]. by eapply tar_entries_error.
    - cbn. unfold Legacy.extractZip. destruct (unzip _) as [e1|files].
      + intros [= <-]. by eexists _, _.
      + destruct (Legacy.zip_entries files dst w0) as [[e1|] w1] eqn:E; [|done].
        intros [= <-]. by eapply zip_entries_error.
    - intros [= <-]. by eexists _, _. }
  split; [|done]. intros format H. by destruct (Hwrap _ H) as (msg & cause & ?).
Qed.
